(** * SwarmMind.io simulation engine: a shallow embedding of
    [src/engine.h] and [src/engine.cpp] and the properties checked on it.

    Numeric conventions of the embedding.
    - C++ [float] values are embedded as exact rationals [Q]: every finite
      binary32 value is a rational, comparisons are the rational ones, and
      the rounding of [+], [-], [*], [/] is not modelled (NaN and the
      infinities have no counterpart).  The one exception is the product
      that [serializeState] converts to an [int]: there the integer written
      depends on the rounding, and the product is rounded to binary32
      ([fmul]).  [std::sqrt], the bit pattern of a binary32 value and the
      Mersenne twister are parameters, see the classes [Libm], [Binary32]
      and [Mt19937] below.
    - A conversion of a [float] to an integer type is undefined in C++
      when the truncated value is not a value of the type; the embedded
      conversion returns [None] there.
    - A reference into a [std::vector] is not followed after a
      [push_back] on the vector: the [push_back] invalidates it when the
      capacity is used up, and the embedded read returns [None].
    - [uint32_t], [uint16_t], [uint8_t] are embedded in [Z] with the
      wrap-around written out ([wrap32], [wrap16], [wrap8]); [int] is
      embedded in [Z] (signed overflow is undefined in C++ and is not
      reached by the values the engine handles).
    - [std::vector] is a [list], indexed with stdpp's lookup; an index that
      is out of range is undefined behaviour in C++ and makes the embedded
      operation return [None].
    - [std::unordered_map] is stdpp's [gmap]. *)

From Stdlib Require Import ZArith QArith Qround Lia Lqa Bool.
From stdpp Require Import base option list gmap fin_maps sorting.
From Equations Require Import Equations.
From Equations.Prop Require Import Logic.

Local Open Scope Z_scope.

(** ** Constants of [engine.h] *)

Module Const.
Definition MAP_WIDTH : Q := 4000.
Definition MAP_HEIGHT : Q := 4000.
Definition MAX_BOIDS_PER_PLAYER : Z := 200.
Definition INITIAL_BOIDS : nat := 10.
Definition BOID_BASE_SPEED : Q := 3.
Definition BOID_BASE_AGGRESSION : Q := 80.
Definition BOID_BASE_COLLECT_RANGE : Q := 40.
Definition SEPARATION_RADIUS : Q := 15.
Definition ALIGNMENT_RADIUS : Q := 50.
Definition COHESION_RADIUS : Q := 60.
Definition SEPARATION_WEIGHT : Q := 5 # 2.
Definition ALIGNMENT_WEIGHT : Q := 1.
Definition COHESION_WEIGHT : Q := 1.
Definition CURSOR_WEIGHT : Q := 2.
Definition MAX_RESOURCES : Z := 300.
Definition RESOURCE_SPAWN_RATE : Q := 1 # 2.
Definition RESOURCE_VALUE_MIN : Z := 1.
Definition RESOURCE_VALUE_MAX : Z := 3.
Definition COMBAT_ABSORB_RADIUS : Q := 20.
Definition BOOST_SPEED_MULT : Q := 185 # 100.
Definition BOOST_DRAIN_RATE : Q := 4 # 100.
Definition BOOST_RECHARGE_RATE : Q := 12 # 1000.
Definition BOOST_MIN_FUEL : Q := 5 # 100.
Definition MAX_PICKUPS : Z := 20.
Definition PICKUP_SPAWN_INTERVAL : Q := 60.
Definition PICKUP_COLLECT_RADIUS : Q := 30.
Definition SHIELD_DURATION : Z := 60.
Definition SPEED_BURST_DURATION : Z := 80.
Definition SLOW_DURATION : Z := 60.
Definition SPEED_BURST_MULT : Q := 3 # 2.
Definition SLOW_MULT : Q := 1 # 2.
Definition SCATTER_FORCE : Q := 8.
Definition MINE_KILL_COUNT : Z := 4.
Definition QUADTREE_MAX_OBJECTS : Z := 8.
Definition QUADTREE_MAX_LEVELS : Z := 6.
End Const.
Import Const.

(** ** Comparisons of [float] values and fixed-width integers *)

Definition fle (a b : Q) : bool := Qle_bool a b.
Definition flt (a b : Q) : bool := negb (Qle_bool b a).
Definition fge (a b : Q) : bool := fle b a.
Definition fgt (a b : Q) : bool := flt b a.

Definition wrap8 (z : Z) : Z := z mod 2 ^ 8.
Definition wrap16 (z : Z) : Z := z mod 2 ^ 16.
Definition wrap32 (z : Z) : Z := z mod 2 ^ 32.

(** ** [struct Rect] *)

Record Rect := mkRect { rx : Q; ry : Q; rw : Q; rh : Q }.

(** [Rect::contains] *)
Definition contains (r : Rect) (px py : Q) : bool :=
  fge px (rx r) && flt px (rx r + rw r) && fge py (ry r) && flt py (ry r + rh r).

(** [Rect::intersects] *)
Definition intersects (r o : Rect) : bool :=
  negb (fgt (rx o) (rx r + rw r) || flt (rx o + rw o) (rx r)
        || fgt (ry o) (ry r + rh r) || flt (ry o + rh o) (ry r)).

(** ** [struct QTEntry] and [class QuadTree] *)

Record QTEntry := mkEntry { boidIndex : Z; ex : Q; ey : Q }.

(** A node with [divided_ = false] is a [Leaf]; a node with
    [divided_ = true] is a [Quad] and carries [children_[0..3]]. *)
Inductive QuadTree :=
| Leaf (bounds_ : Rect) (level_ : Z) (objects_ : list QTEntry)
| Quad (bounds_ : Rect) (level_ : Z) (objects_ : list QTEntry)
       (c0 c1 c2 c3 : QuadTree).

Definition qt_bounds (t : QuadTree) : Rect :=
  match t with Leaf b _ _ => b | Quad b _ _ _ _ _ _ => b end.
Definition qt_level (t : QuadTree) : Z :=
  match t with Leaf _ l _ => l | Quad _ l _ _ _ _ _ => l end.
Definition qt_objects (t : QuadTree) : list QTEntry :=
  match t with Leaf _ _ o => o | Quad _ _ o _ _ _ _ => o end.

(** [QuadTree::QuadTree] *)
Definition QuadTree_new (bounds : Rect) (level : Z) : QuadTree :=
  Leaf bounds level [].

(** [QuadTree::clear] *)
Definition clear (t : QuadTree) : QuadTree :=
  Leaf (qt_bounds t) (qt_level t) [].

(** The four children made by [QuadTree::subdivide], [children_[0]] to
    [children_[3]]. *)
Definition subdivide (b : Rect) (level : Z)
  : QuadTree * QuadTree * QuadTree * QuadTree :=
  let hw := (rw b * (1 # 2))%Q in
  let hh := (rh b * (1 # 2))%Q in
  let x := rx b in
  let y := ry b in
  (QuadTree_new (mkRect x y hw hh) (level + 1),
   QuadTree_new (mkRect (x + hw) y hw hh) (level + 1),
   QuadTree_new (mkRect x (y + hh) hw hh) (level + 1),
   QuadTree_new (mkRect (x + hw) (y + hh) hw hh) (level + 1)).

Definition child0 (b : Rect) (level : Z) : QuadTree := (subdivide b level).1.1.1.
Definition child1 (b : Rect) (level : Z) : QuadTree := (subdivide b level).1.1.2.
Definition child2 (b : Rect) (level : Z) : QuadTree := (subdivide b level).1.2.
Definition child3 (b : Rect) (level : Z) : QuadTree := (subdivide b level).2.

(** The test of [insert] that keeps the entry in the node itself. *)
Definition stores_locally (level : Z) (objs : list QTEntry) : bool :=
  (Z.of_nat (length objs) <? QUADTREE_MAX_OBJECTS)
  || (level >=? QUADTREE_MAX_LEVELS).

(** Number of nested [insert] calls a node can still cause: a leaf that is
    full subdivides into four fresh (empty) leaves, which store locally. *)
Fixpoint insert_depth (t : QuadTree) : nat :=
  match t with
  | Leaf _ l o => if stores_locally l o then 0 else 1
  | Quad _ _ _ c0 c1 c2 c3 =>
      S (Nat.max (Nat.max (insert_depth c0) (insert_depth c1))
                 (Nat.max (insert_depth c2) (insert_depth c3)))
  end%nat.

(** [QuadTree::insert] *)
Equations? insert (t : QuadTree) (e : QTEntry) : QuadTree
  by wf (insert_depth t) lt :=
insert (Leaf b l o) e with inspect (contains b (ex e) (ey e)) => {
  | exist _ false Hout := Leaf b l o;
  | exist _ true Hin with inspect (stores_locally l o) => {
    | exist _ true Hroom := Leaf b l (o ++ [e]);
    | exist _ false Hfull :=
        Quad b l o (insert (child0 b l) e) (insert (child1 b l) e)
                   (insert (child2 b l) e) (insert (child3 b l) e) } };
insert (Quad b l o c0 c1 c2 c3) e with inspect (contains b (ex e) (ey e)) => {
  | exist _ false Hout := Quad b l o c0 c1 c2 c3;
  | exist _ true Hin with inspect (stores_locally l o) => {
    | exist _ true Hroom := Quad b l (o ++ [e]) c0 c1 c2 c3;
    | exist _ false Hfull :=
        Quad b l o (insert c0 e) (insert c1 e) (insert c2 e) (insert c3 e) } }.
Proof.
  all: try (rewrite Hfull; cbn; lia).
  all: lia.
Qed.

(** [QuadTree::query]; [found] is the output vector the call appends to. *)
Fixpoint query (t : QuadTree) (range : Rect) (found : list QTEntry)
  : list QTEntry :=
  match t with
  | Leaf b _ o =>
      if negb (intersects b range) then found
      else found ++ List.filter (λ obj, contains range (ex obj) (ey obj)) o
  | Quad b _ o c0 c1 c2 c3 =>
      if negb (intersects b range) then found
      else
        let found :=
          found ++ List.filter (λ obj, contains range (ex obj) (ey obj)) o in
        query c3 range (query c2 range (query c1 range (query c0 range found)))
  end.

(** ** The platform: [std::sqrt], the binary32 encoding and [std::mt19937]

    These are not part of the repository and are taken as parameters.
    [uniform_real lo hi] and [uniform_int lo hi] stand for one draw of
    [std::uniform_real_distribution<float>(lo, hi)] and of
    [std::uniform_int_distribution<int>(lo, hi)] from the generator. *)

Class Libm := { fsqrt : Q → Q }.

Class Binary32 := { f32_bits : Q → Z }.

Class Mt19937 := {
  Rng : Type;
  uniform_real : Q → Q → Rng → Q * Rng;
  uniform_int : Z → Z → Rng → Z * Rng;
}.

(** ** [struct Vec2] *)

Record Vec2 := mkVec2 { Vec2_x : Q; Vec2_y : Q }.

Definition Vec2_add (a o : Vec2) : Vec2 :=
  mkVec2 (Vec2_x a + Vec2_x o) (Vec2_y a + Vec2_y o).
Definition Vec2_sub (a o : Vec2) : Vec2 :=
  mkVec2 (Vec2_x a - Vec2_x o) (Vec2_y a - Vec2_y o).
Definition Vec2_scale (a : Vec2) (s : Q) : Vec2 :=
  mkVec2 (Vec2_x a * s) (Vec2_y a * s).
Definition lengthSq (a : Vec2) : Q :=
  (Vec2_x a * Vec2_x a + Vec2_y a * Vec2_y a)%Q.

Section Vec2_sqrt.
Context `{libm : Libm}.

Definition length_ (a : Vec2) : Q := fsqrt (lengthSq a).

Definition normalized (a : Vec2) : Vec2 :=
  let l := length_ a in
  if flt l (1 # 10000) then mkVec2 0 0
  else mkVec2 (Vec2_x a / l) (Vec2_y a / l).

Definition clampLength (a : Vec2) (maxLen : Q) : Vec2 :=
  let lsq := lengthSq a in
  if fgt lsq (maxLen * maxLen) then
    let l := fsqrt lsq in
    mkVec2 (Vec2_x a / l * maxLen) (Vec2_y a / l * maxLen)
  else a.

End Vec2_sqrt.

(** ** Entities *)

Record Boid := mkBoid {
  Boid_id : Z;
  Boid_playerId : Z;
  Boid_pos : Vec2;
  Boid_vel : Vec2;
}.

Record Mutations := mkMutations {
  Mutations_speed : Q;
  Mutations_cohesion : Q;
  Mutations_aggression : Q;
  Mutations_collectRange : Q;
}.

Record Player := mkPlayer {
  Player_id : Z;
  Player_cursor : Vec2;
  Player_mutations : Mutations;
  Player_score : Z;
  Player_alive : bool;
  Player_boosting : bool;
  Player_boostFuel : Q;
  Player_shieldTicks : Z;
  Player_speedBurstTicks : Z;
  Player_slowTicks : Z;
}.

Record Resource := mkResource {
  Resource_id : Z;
  Resource_pos : Vec2;
  Resource_value : Z;
  Resource_type : Z;
  Resource_active : bool;
}.

Record Pickup := mkPickup {
  Pickup_id : Z;
  Pickup_pos : Vec2;
  Pickup_type : Z;
  Pickup_active : bool;
}.

(** Field assignments. *)

Definition Boid_with_pos (v : Vec2) (b : Boid) : Boid :=
  mkBoid (Boid_id b) (Boid_playerId b) v (Boid_vel b).
Definition Boid_with_vel (v : Vec2) (b : Boid) : Boid :=
  mkBoid (Boid_id b) (Boid_playerId b) (Boid_pos b) v.

Definition Player_with_mutations (m : Mutations) (p : Player) : Player :=
  mkPlayer (Player_id p) (Player_cursor p) m (Player_score p)
    (Player_alive p) (Player_boosting p) (Player_boostFuel p)
    (Player_shieldTicks p) (Player_speedBurstTicks p) (Player_slowTicks p).
Definition Player_with_score (n : Z) (p : Player) : Player :=
  mkPlayer (Player_id p) (Player_cursor p) (Player_mutations p) n
    (Player_alive p) (Player_boosting p) (Player_boostFuel p)
    (Player_shieldTicks p) (Player_speedBurstTicks p) (Player_slowTicks p).
Definition Player_with_alive (a : bool) (p : Player) : Player :=
  mkPlayer (Player_id p) (Player_cursor p) (Player_mutations p)
    (Player_score p) a (Player_boosting p) (Player_boostFuel p)
    (Player_shieldTicks p) (Player_speedBurstTicks p) (Player_slowTicks p).
Definition Player_with_boosting (a : bool) (p : Player) : Player :=
  mkPlayer (Player_id p) (Player_cursor p) (Player_mutations p)
    (Player_score p) (Player_alive p) a (Player_boostFuel p)
    (Player_shieldTicks p) (Player_speedBurstTicks p) (Player_slowTicks p).
Definition Player_with_boostFuel (f : Q) (p : Player) : Player :=
  mkPlayer (Player_id p) (Player_cursor p) (Player_mutations p)
    (Player_score p) (Player_alive p) (Player_boosting p) f
    (Player_shieldTicks p) (Player_speedBurstTicks p) (Player_slowTicks p).
Definition Player_with_shieldTicks (n : Z) (p : Player) : Player :=
  mkPlayer (Player_id p) (Player_cursor p) (Player_mutations p)
    (Player_score p) (Player_alive p) (Player_boosting p) (Player_boostFuel p)
    n (Player_speedBurstTicks p) (Player_slowTicks p).
Definition Player_with_speedBurstTicks (n : Z) (p : Player) : Player :=
  mkPlayer (Player_id p) (Player_cursor p) (Player_mutations p)
    (Player_score p) (Player_alive p) (Player_boosting p) (Player_boostFuel p)
    (Player_shieldTicks p) n (Player_slowTicks p).
Definition Player_with_slowTicks (n : Z) (p : Player) : Player :=
  mkPlayer (Player_id p) (Player_cursor p) (Player_mutations p)
    (Player_score p) (Player_alive p) (Player_boosting p) (Player_boostFuel p)
    (Player_shieldTicks p) (Player_speedBurstTicks p) n.

Definition Resource_with_active (a : bool) (r : Resource) : Resource :=
  mkResource (Resource_id r) (Resource_pos r) (Resource_value r)
    (Resource_type r) a.
Definition Pickup_with_active (a : bool) (k : Pickup) : Pickup :=
  mkPickup (Pickup_id k) (Pickup_pos k) (Pickup_type k) a.

(** The default member initialisers of [struct Player]; [id] and [cursor]
    are assigned by [addPlayer]. *)
Definition Player_default (pid : Z) (cursor : Vec2) : Player :=
  mkPlayer pid cursor (mkMutations 1 1 1 1) 0 true false 1 0 0 0.

(** [v[i]] on a [std::vector]: [None] stands for the out-of-range access. *)
Definition vec_at {A} (v : list A) (i : Z) : option A :=
  if i <? 0 then None else v !! Z.to_nat i.

(** [v.erase(v.begin() + i)] *)
Definition vec_erase {A} (v : list A) (i : Z) : list A :=
  delete (Z.to_nat i) v.

(** An embedded operation that returns [None] ran into undefined
    behaviour. *)
Definition undefined {A} (o : option A) : bool :=
  match o with None => true | Some _ => false end.

(** [std::max] on [float]. *)
Definition fmax (a b : Q) : Q := if flt a b then b else a.

(** [for (i = from; i < from + count; ++i) body], stopping at the first
    undefined step. *)
Fixpoint for_range {St} (body : nat → St → option St) (from count : nat)
  (s : St) : option St :=
  match count with
  | O => Some s
  | S c => s ← body from s; for_range body (S from) c s
  end.

(** [for (auto& a : v) body] where the body assigns to the element [a] and
    to the rest of the state, never to the vector [v] itself. *)
Fixpoint for_each_mut {St A} (body : St → A → option (St * A)) (s : St)
  (v : list A) : option (St * list A) :=
  match v with
  | [] => Some (s, [])
  | a :: v =>
      '(s, a) ← body s a;
      '(s, v) ← for_each_mut body s v;
      Some (s, a :: v)
  end.

(** ** [class GameEngine] *)

Section Engine.
Context `{libm : Libm} `{mt : Mt19937}.

Record GameEngine := mkEngine {
  players_ : gmap Z Player;
  boids_ : list Boid;
  resources_ : list Resource;
  pickups_ : list Pickup;
  quadTree_ : QuadTree;
  nextPlayerId_ : Z;
  nextBoidId_ : Z;
  nextResourceId_ : Z;
  nextPickupId_ : Z;
  resourceSpawnAccum_ : Q;
  pickupSpawnAccum_ : Q;
  rng_ : Rng;
}.

Definition with_players (v : gmap Z Player) (s : GameEngine) : GameEngine :=
  mkEngine v (boids_ s) (resources_ s) (pickups_ s) (quadTree_ s)
    (nextPlayerId_ s) (nextBoidId_ s) (nextResourceId_ s) (nextPickupId_ s)
    (resourceSpawnAccum_ s) (pickupSpawnAccum_ s) (rng_ s).
Definition with_boids (v : list Boid) (s : GameEngine) : GameEngine :=
  mkEngine (players_ s) v (resources_ s) (pickups_ s) (quadTree_ s)
    (nextPlayerId_ s) (nextBoidId_ s) (nextResourceId_ s) (nextPickupId_ s)
    (resourceSpawnAccum_ s) (pickupSpawnAccum_ s) (rng_ s).
Definition with_resources (v : list Resource) (s : GameEngine) : GameEngine :=
  mkEngine (players_ s) (boids_ s) v (pickups_ s) (quadTree_ s)
    (nextPlayerId_ s) (nextBoidId_ s) (nextResourceId_ s) (nextPickupId_ s)
    (resourceSpawnAccum_ s) (pickupSpawnAccum_ s) (rng_ s).
Definition with_pickups (v : list Pickup) (s : GameEngine) : GameEngine :=
  mkEngine (players_ s) (boids_ s) (resources_ s) v (quadTree_ s)
    (nextPlayerId_ s) (nextBoidId_ s) (nextResourceId_ s) (nextPickupId_ s)
    (resourceSpawnAccum_ s) (pickupSpawnAccum_ s) (rng_ s).
Definition with_quadTree (v : QuadTree) (s : GameEngine) : GameEngine :=
  mkEngine (players_ s) (boids_ s) (resources_ s) (pickups_ s) v
    (nextPlayerId_ s) (nextBoidId_ s) (nextResourceId_ s) (nextPickupId_ s)
    (resourceSpawnAccum_ s) (pickupSpawnAccum_ s) (rng_ s).
Definition with_nextPlayerId (v : Z) (s : GameEngine) : GameEngine :=
  mkEngine (players_ s) (boids_ s) (resources_ s) (pickups_ s) (quadTree_ s)
    v (nextBoidId_ s) (nextResourceId_ s) (nextPickupId_ s)
    (resourceSpawnAccum_ s) (pickupSpawnAccum_ s) (rng_ s).
Definition with_nextBoidId (v : Z) (s : GameEngine) : GameEngine :=
  mkEngine (players_ s) (boids_ s) (resources_ s) (pickups_ s) (quadTree_ s)
    (nextPlayerId_ s) v (nextResourceId_ s) (nextPickupId_ s)
    (resourceSpawnAccum_ s) (pickupSpawnAccum_ s) (rng_ s).
Definition with_nextResourceId (v : Z) (s : GameEngine) : GameEngine :=
  mkEngine (players_ s) (boids_ s) (resources_ s) (pickups_ s) (quadTree_ s)
    (nextPlayerId_ s) (nextBoidId_ s) v (nextPickupId_ s)
    (resourceSpawnAccum_ s) (pickupSpawnAccum_ s) (rng_ s).
Definition with_nextPickupId (v : Z) (s : GameEngine) : GameEngine :=
  mkEngine (players_ s) (boids_ s) (resources_ s) (pickups_ s) (quadTree_ s)
    (nextPlayerId_ s) (nextBoidId_ s) (nextResourceId_ s) v
    (resourceSpawnAccum_ s) (pickupSpawnAccum_ s) (rng_ s).
Definition with_resourceSpawnAccum (v : Q) (s : GameEngine) : GameEngine :=
  mkEngine (players_ s) (boids_ s) (resources_ s) (pickups_ s) (quadTree_ s)
    (nextPlayerId_ s) (nextBoidId_ s) (nextResourceId_ s) (nextPickupId_ s)
    v (pickupSpawnAccum_ s) (rng_ s).
Definition with_pickupSpawnAccum (v : Q) (s : GameEngine) : GameEngine :=
  mkEngine (players_ s) (boids_ s) (resources_ s) (pickups_ s) (quadTree_ s)
    (nextPlayerId_ s) (nextBoidId_ s) (nextResourceId_ s) (nextPickupId_ s)
    (resourceSpawnAccum_ s) v (rng_ s).
Definition with_rng (v : Rng) (s : GameEngine) : GameEngine :=
  mkEngine (players_ s) (boids_ s) (resources_ s) (pickups_ s) (quadTree_ s)
    (nextPlayerId_ s) (nextBoidId_ s) (nextResourceId_ s) (nextPickupId_ s)
    (resourceSpawnAccum_ s) (pickupSpawnAccum_ s) v.

(** [GameEngine::randomPosition] *)
Definition randomPosition (g : Rng) : Vec2 * Rng :=
  let '(x, g) := uniform_real 100 (MAP_WIDTH - 100) g in
  let '(y, g) := uniform_real 100 (MAP_HEIGHT - 100) g in
  (mkVec2 x y, g).

(** The loop of [GameEngine::spawnBoidsForPlayer]. *)
Fixpoint spawn_boids_loop (count : nat) (playerId : Z) (center : Vec2)
  (s : GameEngine) : GameEngine :=
  match count with
  | O => s
  | S n =>
      let bid := nextBoidId_ s in
      let '(dx, g) := uniform_real (-30) 30 (rng_ s) in
      let '(dy, g) := uniform_real (-30) 30 g in
      let '(vx, g) := uniform_real (-1) 1 g in
      let '(vy, g) := uniform_real (-1) 1 g in
      let b := mkBoid bid playerId
                 (mkVec2 (Vec2_x center + dx) (Vec2_y center + dy))
                 (mkVec2 vx vy) in
      spawn_boids_loop n playerId center
        (with_rng g (with_boids (boids_ s ++ [b])
           (with_nextBoidId (wrap32 (bid + 1)) s)))
  end.

(** [GameEngine::spawnBoidsForPlayer] *)
Definition spawnBoidsForPlayer (playerId : Z) (count : nat) (s : GameEngine)
  : GameEngine :=
  let '(center, g) := randomPosition (rng_ s) in
  spawn_boids_loop count playerId center (with_rng g s).

(** [GameEngine::addPlayer]: the new state and the returned id. *)
Definition addPlayer (s : GameEngine) : GameEngine * Z :=
  let pid := nextPlayerId_ s in
  let s := with_nextPlayerId (wrap32 (pid + 1)) s in
  let p := Player_default pid
             (mkVec2 (MAP_WIDTH * (1 # 2)) (MAP_HEIGHT * (1 # 2))) in
  let s := with_players (<[pid := p]> (players_ s)) s in
  (spawnBoidsForPlayer pid INITIAL_BOIDS s, pid).




(** Number of entries of a vector with [active] set. *)
Definition count_active {A} (active : A → bool) (v : list A) : Z :=
  Z.of_nat (length (List.filter active v)).

(** [GameEngine::spawnResources] *)
Definition spawnResources (s : GameEngine) : GameEngine :=
  let activeCount := count_active Resource_active (resources_ s) in
  if activeCount >=? MAX_RESOURCES then s
  else
    let rid := nextResourceId_ s in
    let s := with_nextResourceId (wrap32 (rid + 1)) s in
    let '(pos, g) := randomPosition (rng_ s) in
    let '(value, g) := uniform_int RESOURCE_VALUE_MIN RESOURCE_VALUE_MAX g in
    let '(type, g) := uniform_int 0 3 g in
    let r := mkResource rid pos value (wrap8 type) true in
    with_rng g (with_resources (resources_ s ++ [r]) s).

(** The insertions of [GameEngine::buildQuadTree], from index [i] on. *)
Fixpoint build_entries (i : Z) (boids : list Boid) (t : QuadTree) : QuadTree :=
  match boids with
  | [] => t
  | b :: rest =>
      let e := mkEntry i (Vec2_x (Boid_pos b)) (Vec2_y (Boid_pos b)) in
      build_entries (i + 1) rest (insert t e)
  end.

(** [GameEngine::buildQuadTree] *)
Definition buildQuadTree (s : GameEngine) : GameEngine :=
  with_quadTree (build_entries 0 (boids_ s) (clear (quadTree_ s))) s.

(** *** [GameEngine::applyBoidRules] *)

(** The accumulators of the neighbour loop. *)
Record Flock := mkFlock {
  separation : Vec2;
  alignment : Vec2;
  cohesionCenter : Vec2;
  alignCount : Z;
  cohesionCount : Z;
  closestEnemyDist : Q;
  closestEnemyIdx : Z;
}.

Definition Flock_init : Flock :=
  mkFlock (mkVec2 0 0) (mkVec2 0 0) (mkVec2 0 0) 0 0 1000000000 (-1).

(** One iteration of [for (auto& ne : nearby)] for the boid at index [i]. *)
Definition flock_neighbour (boids : list Boid) (i : Z) (boid : Boid)
  (mut : Mutations) (effectiveCohesionRadius : Q) (a : Flock) (ne : QTEntry)
  : option Flock :=
  if boidIndex ne =? i then Some a
  else
    other ← vec_at boids (boidIndex ne);
    let diff := Vec2_sub (Boid_pos boid) (Boid_pos other) in
    let distSq := lengthSq diff in
    let dist := fsqrt distSq in
    if Boid_playerId other =? Boid_playerId boid then
      let sep :=
        if flt dist SEPARATION_RADIUS && fgt dist (1 # 100)
        then Vec2_add (separation a) (Vec2_scale diff (1 / dist))
        else separation a in
      let '(ali, ac) :=
        if flt dist ALIGNMENT_RADIUS
        then (Vec2_add (alignment a) (Boid_vel other), alignCount a + 1)
        else (alignment a, alignCount a) in
      let '(coh, cc) :=
        if flt dist effectiveCohesionRadius
        then (Vec2_add (cohesionCenter a) (Boid_pos other), cohesionCount a + 1)
        else (cohesionCenter a, cohesionCount a) in
      Some (mkFlock sep ali coh ac cc (closestEnemyDist a) (closestEnemyIdx a))
    else
      let aggroRange := (BOID_BASE_AGGRESSION * Mutations_aggression mut)%Q in
      if flt dist aggroRange && flt dist (closestEnemyDist a)
      then Some (mkFlock (separation a) (alignment a) (cohesionCenter a)
                   (alignCount a) (cohesionCount a) dist (boidIndex ne))
      else Some a.

Fixpoint flock_scan (boids : list Boid) (i : Z) (boid : Boid)
  (mut : Mutations) (effectiveCohesionRadius : Q) (nearby : list QTEntry)
  (a : Flock) : option Flock :=
  match nearby with
  | [] => Some a
  | ne :: rest =>
      a ← flock_neighbour boids i boid mut effectiveCohesionRadius a ne;
      flock_scan boids i boid mut effectiveCohesionRadius rest a
  end.

(** The body of [for (auto& boid : boids_)] at index [i]; the vector is
    updated in place, so later boids read the moved earlier ones. *)
Definition boid_rules_body (players : gmap Z Player) (qt : QuadTree)
  (i : nat) (boids : list Boid) : option (list Boid) :=
  boid ← boids !! i;
  match players !! Boid_playerId boid with
  | None => Some boids
  | Some player =>
      let mut := Player_mutations player in
      let effectiveCohesionRadius :=
        (COHESION_RADIUS * Mutations_cohesion mut)%Q in
      let queryR :=
        fmax (fmax (fmax SEPARATION_RADIUS ALIGNMENT_RADIUS)
                effectiveCohesionRadius)
             (BOID_BASE_AGGRESSION * Mutations_aggression mut) in
      let queryRect :=
        mkRect (Vec2_x (Boid_pos boid) - queryR)
               (Vec2_y (Boid_pos boid) - queryR)
               (queryR * 2) (queryR * 2) in
      let nearby := query qt queryRect [] in
      a ← flock_scan boids (Z.of_nat i) boid mut effectiveCohesionRadius
            nearby Flock_init;
      let steer := mkVec2 0 0 in
      let steer := Vec2_add steer (Vec2_scale (separation a) SEPARATION_WEIGHT) in
      let steer :=
        if 0 <? alignCount a then
          let ali := Vec2_scale (alignment a) (1 / inject_Z (alignCount a)) in
          let alignSteer := clampLength (Vec2_sub ali (Boid_vel boid)) (1 # 2) in
          Vec2_add steer (Vec2_scale alignSteer ALIGNMENT_WEIGHT)
        else steer in
      let steer :=
        if 0 <? cohesionCount a then
          let center :=
            Vec2_scale (cohesionCenter a) (1 / inject_Z (cohesionCount a)) in
          let toCenter := clampLength (Vec2_sub center (Boid_pos boid)) (1 # 2) in
          Vec2_add steer
            (Vec2_scale toCenter (COHESION_WEIGHT * Mutations_cohesion mut))
        else steer in
      let toCursor := Vec2_sub (Player_cursor player) (Boid_pos boid) in
      let cursorDist := length_ toCursor in
      let steer :=
        if fgt cursorDist 5
        then Vec2_add steer (Vec2_scale (normalized toCursor) CURSOR_WEIGHT)
        else steer in
      steer ←
        (if closestEnemyIdx a >=? 0 then
           enemy ← vec_at boids (closestEnemyIdx a);
           let toEnemy := normalized (Vec2_sub (Boid_pos enemy) (Boid_pos boid)) in
           Some (Vec2_add steer
                   (Vec2_scale toEnemy ((3 # 2) * Mutations_aggression mut)))
         else Some steer);
      let vel := Vec2_add (Boid_vel boid) steer in
      let maxSpeed := (BOID_BASE_SPEED * Mutations_speed mut)%Q in
      let maxSpeed :=
        if Player_boosting player && fgt (Player_boostFuel player) 0
        then (maxSpeed * BOOST_SPEED_MULT)%Q else maxSpeed in
      let maxSpeed :=
        if 0 <? Player_speedBurstTicks player
        then (maxSpeed * SPEED_BURST_MULT)%Q else maxSpeed in
      let maxSpeed :=
        if 0 <? Player_slowTicks player
        then (maxSpeed * SLOW_MULT)%Q else maxSpeed in
      let vel := clampLength vel maxSpeed in
      let pos := Vec2_add (Boid_pos boid) vel in
      Some (<[i := Boid_with_pos pos (Boid_with_vel vel boid)]> boids)
  end.

Definition applyBoidRules (s : GameEngine) : option GameEngine :=
  boids ← for_range (boid_rules_body (players_ s) (quadTree_ s))
             0 (length (boids_ s)) (boids_ s);
  Some (with_boids boids s).

(** *** [GameEngine::collectResources] *)

(** Number of boids of a player, as the counting loops compute it. *)
Definition count_boids (pid : Z) (boids : list Boid) : Z :=
  Z.of_nat (length (List.filter (λ bb, Boid_playerId bb =? pid) boids)).

(** The [switch (res.type)] on the player's mutations. *)
Definition apply_mutation (type : Z) (boost : Q) (m : Mutations) : Mutations :=
  if type =? 0 then
    mkMutations (Mutations_speed m + boost) (Mutations_cohesion m)
      (Mutations_aggression m) (Mutations_collectRange m)
  else if type =? 1 then
    mkMutations (Mutations_speed m) (Mutations_cohesion m + boost)
      (Mutations_aggression m) (Mutations_collectRange m)
  else if type =? 2 then
    mkMutations (Mutations_speed m) (Mutations_cohesion m)
      (Mutations_aggression m + boost) (Mutations_collectRange m)
  else if type =? 3 then
    mkMutations (Mutations_speed m) (Mutations_cohesion m)
      (Mutations_aggression m) (Mutations_collectRange m + boost)
  else m.

(** The block that consumes [res] for boid [b], whose owner [player] was
    found under the key [b.playerId]. *)
Definition consume_resource (s : GameEngine) (res : Resource) (b : Boid)
  (player : Player) : GameEngine :=
  let player := Player_with_score (Player_score player + Resource_value res)
                  player in
  let boost := ((2 # 100) * inject_Z (Resource_value res))%Q in
  let player :=
    Player_with_mutations
      (apply_mutation (Resource_type res) boost (Player_mutations player))
      player in
  let s := with_players (<[Boid_playerId b := player]> (players_ s)) s in
  let boidCount := count_boids (Player_id player) (boids_ s) in
  if (boidCount <? MAX_BOIDS_PER_PLAYER) && (Z.rem (Player_score player) 3 =? 0)
  then
    let nb := mkBoid (nextBoidId_ s) (Player_id player) (Boid_pos b)
                (mkVec2 0 0) in
    with_boids (boids_ s ++ [nb]) (with_nextBoidId (wrap32 (nextBoidId_ s + 1)) s)
  else s.

(** [for (auto& ne : nearby)] of [collectResources]; stops at the first
    boid that consumes the resource. *)
Fixpoint collect_resource_scan (s : GameEngine) (res : Resource)
  (nearby : list QTEntry) : option (GameEngine * Resource) :=
  match nearby with
  | [] => Some (s, res)
  | ne :: rest =>
      b ← vec_at (boids_ s) (boidIndex ne);
      match players_ s !! Boid_playerId b with
      | None => collect_resource_scan s res rest
      | Some p =>
          let collectRange :=
            (BOID_BASE_COLLECT_RANGE
             * Mutations_collectRange (Player_mutations p))%Q in
          let diff := Vec2_sub (Boid_pos b) (Resource_pos res) in
          if flt (lengthSq diff) (collectRange * collectRange)
          then Some (consume_resource s res b p, Resource_with_active false res)
          else collect_resource_scan s res rest
      end
  end.

(** The rectangle queried around a resource. *)
Definition resource_queryRect (res : Resource) : Rect :=
  let maxRange := (BOID_BASE_COLLECT_RANGE * 3)%Q in
  mkRect (Vec2_x (Resource_pos res) - maxRange)
         (Vec2_y (Resource_pos res) - maxRange)
         (maxRange * 2) (maxRange * 2).

(** The body of [for (auto& res : resources_)]. *)
Definition collect_resource (s : GameEngine) (res : Resource)
  : option (GameEngine * Resource) :=
  if negb (Resource_active res) then Some (s, res)
  else
    let nearby := query (quadTree_ s) (resource_queryRect res) [] in
    collect_resource_scan s res nearby.

Definition collectResources (s : GameEngine) : option GameEngine :=
  '(s, rs) ← for_each_mut collect_resource s (resources_ s);
  Some (with_resources (List.filter Resource_active rs) s).

(** *** [GameEngine::handleCombat] *)

(** [boidCounts[k]] on the local [std::unordered_map<uint32_t, int>]: a
    missing key reads as the value-initialised [0]. *)
Definition counts_get (counts : gmap Z Z) (k : Z) : Z := default 0 (counts !! k).

(** [for (auto& b : boids_) boidCounts[b.playerId]++] *)
Definition count_per_player (boids : list Boid) : gmap Z Z :=
  foldl (λ counts b,
           <[Boid_playerId b := counts_get counts (Boid_playerId b) + 1]> counts)
        ∅ boids.

Definition has_shield (players : gmap Z Player) (pid : Z) : bool :=
  match players !! pid with
  | Some p => 0 <? Player_shieldTicks p
  | None => false
  end.

(** What one encounter between the scanning boid ("my") and a neighbour
    ("other") decides. *)
Inductive Verdict := RemoveMine | RemoveOther | NoRemoval.

Definition combat_verdict (myCount otherCount : Z) (myShield otherShield : bool)
  : Verdict :=
  if (myCount <? otherCount) && negb myShield then RemoveMine
  else if (otherCount <? myCount) && negb otherShield then RemoveOther
  else NoRemoval.

(** [for (auto& ne : nearby)] for the boid [me] at index [i]; the state is
    [toRemove] and [boidCounts]. *)
Fixpoint combat_scan (players : gmap Z Player) (boids : list Boid) (i : Z)
  (me : Boid) (nearby : list QTEntry) (st : list Z * gmap Z Z)
  : option (list Z * gmap Z Z) :=
  match nearby with
  | [] => Some st
  | ne :: rest =>
      if boidIndex ne =? i then combat_scan players boids i me rest st
      else
        other ← vec_at boids (boidIndex ne);
        if Boid_playerId other =? Boid_playerId me
        then combat_scan players boids i me rest st
        else
          let diff := Vec2_sub (Boid_pos me) (Boid_pos other) in
          let combatRadiusSq := (COMBAT_ABSORB_RADIUS * COMBAT_ABSORB_RADIUS)%Q in
          if flt (lengthSq diff) combatRadiusSq then
            let '(toRemove, counts) := st in
            let myCount := counts_get counts (Boid_playerId me) in
            let otherCount := counts_get counts (Boid_playerId other) in
            let myShield := has_shield players (Boid_playerId me) in
            let otherShield := has_shield players (Boid_playerId other) in
            match combat_verdict myCount otherCount myShield otherShield with
            | RemoveMine =>
                Some (toRemove ++ [i],
                      <[Boid_playerId me := myCount - 1]> counts)
            | RemoveOther =>
                combat_scan players boids i me rest
                  (toRemove ++ [boidIndex ne],
                   <[Boid_playerId other := otherCount - 1]> counts)
            | NoRemoval => combat_scan players boids i me rest st
            end
          else combat_scan players boids i me rest st
  end.

(** The body of [for (uint32_t i = 0; i < boids_.size(); ++i)]. *)
Definition combat_body (players : gmap Z Player) (qt : QuadTree)
  (boids : list Boid) (i : nat) (st : list Z * gmap Z Z)
  : option (list Z * gmap Z Z) :=
  me ← boids !! i;
  let queryRect :=
    mkRect (Vec2_x (Boid_pos me) - COMBAT_ABSORB_RADIUS)
           (Vec2_y (Boid_pos me) - COMBAT_ABSORB_RADIUS)
           (COMBAT_ABSORB_RADIUS * 2) (COMBAT_ABSORB_RADIUS * 2) in
  let nearby := query qt queryRect [] in
  combat_scan players boids (Z.of_nat i) me nearby st.

(** [std::unique] on a vector: drops an element equal to its predecessor. *)
Fixpoint unique (v : list Z) : list Z :=
  match v with
  | [] => []
  | a :: rest =>
      match rest with
      | [] => [a]
      | b :: _ => if a =? b then unique rest else a :: unique rest
      end
  end.

(** The marked indices after [std::sort] and [std::unique]. *)
Definition sort_unique (toRemove : list Z) : list Z :=
  unique (merge_sort Z.le toRemove).

(** The removal loop, from the last marked index to the first. *)
Definition remove_marked (toRemove : list Z) (boids : list Boid) : list Boid :=
  foldl (λ bs idx,
           if idx <? Z.of_nat (length bs) then vec_erase bs idx else bs)
        boids (reverse toRemove).

(** The indices marked by the scan of [handleCombat]. *)
Definition combat_marks (s : GameEngine) : option (list Z) :=
  st ← for_range (combat_body (players_ s) (quadTree_ s) (boids_ s))
         0 (length (boids_ s)) ([], count_per_player (boids_ s));
  Some st.1.

Definition handleCombat (s : GameEngine) : option GameEngine :=
  toRemove ← combat_marks s;
  Some (with_boids (remove_marked (sort_unique toRemove) (boids_ s)) s).

(** *** [GameEngine::clampPositions] *)

(** The four [if] statements applied to one boid, in order. *)
Definition clamp_boid (b : Boid) : Boid :=
  let b :=
    if flt (Vec2_x (Boid_pos b)) 0 then
      mkBoid (Boid_id b) (Boid_playerId b)
        (mkVec2 0 (Vec2_y (Boid_pos b)))
        (mkVec2 (Vec2_x (Boid_vel b) * -(1 # 2)) (Vec2_y (Boid_vel b)))
    else b in
  let b :=
    if fgt (Vec2_x (Boid_pos b)) MAP_WIDTH then
      mkBoid (Boid_id b) (Boid_playerId b)
        (mkVec2 MAP_WIDTH (Vec2_y (Boid_pos b)))
        (mkVec2 (Vec2_x (Boid_vel b) * -(1 # 2)) (Vec2_y (Boid_vel b)))
    else b in
  let b :=
    if flt (Vec2_y (Boid_pos b)) 0 then
      mkBoid (Boid_id b) (Boid_playerId b)
        (mkVec2 (Vec2_x (Boid_pos b)) 0)
        (mkVec2 (Vec2_x (Boid_vel b)) (Vec2_y (Boid_vel b) * -(1 # 2)))
    else b in
  let b :=
    if fgt (Vec2_y (Boid_pos b)) MAP_HEIGHT then
      mkBoid (Boid_id b) (Boid_playerId b)
        (mkVec2 (Vec2_x (Boid_pos b)) MAP_HEIGHT)
        (mkVec2 (Vec2_x (Boid_vel b)) (Vec2_y (Boid_vel b) * -(1 # 2)))
    else b in
  b.

Definition clampPositions (s : GameEngine) : GameEngine :=
  with_boids (map clamp_boid (boids_ s)) s.

(** *** [GameEngine::spawnPickups] *)

Definition spawnPickups (s : GameEngine) : GameEngine :=
  let activeCount := count_active Pickup_active (pickups_ s) in
  if activeCount >=? MAX_PICKUPS then s
  else
    let s := with_pickupSpawnAccum (pickupSpawnAccum_ s + 1) s in
    if flt (pickupSpawnAccum_ s) PICKUP_SPAWN_INTERVAL then s
    else
      let s := with_pickupSpawnAccum 0 s in
      let kid := nextPickupId_ s in
      let s := with_nextPickupId (wrap32 (kid + 1)) s in
      let '(pos, g) := randomPosition (rng_ s) in
      let '(type, g) := uniform_int 0 7 g in
      let p := mkPickup kid pos (wrap8 type) true in
      with_rng g (with_pickups (pickups_ s ++ [p]) s).

(** *** [GameEngine::collectPickups] *)

(** [case 1], the loop that pushes [toSpawn] boids next to boid [b].  In
    the code [b] is a reference into [boids_], bound before the loop, and
    every iteration reads [b.pos] through it.  A [push_back] moves the
    elements when the capacity is used up, and the reference dangles from
    then on; the capacity is the implementation's and no part of the state.
    The argument [b] is the boid the reference designates while no
    [push_back] has happened since it was bound, and [None] afterwards, so
    that the loop has a result only where the code has one whatever the
    capacity is: with [toSpawn >= 2] the second iteration reads [b.pos]
    after the first [push_back]. *)
Fixpoint mass_spawn_loop (toSpawn : nat) (pid : Z) (b : option Boid)
  (s : GameEngine) : option GameEngine :=
  match toSpawn with
  | O => Some s
  | S n =>
      let bid := nextBoidId_ s in
      b ← b;
      let '(dx, g) := uniform_real (-20) 20 (rng_ s) in
      let '(dy, g) := uniform_real (-20) 20 g in
      let nb := mkBoid bid pid
                  (mkVec2 (Vec2_x (Boid_pos b) + dx) (Vec2_y (Boid_pos b) + dy))
                  (mkVec2 0 0) in
      mass_spawn_loop n pid None
        (with_rng g (with_boids (boids_ s ++ [nb])
           (with_nextBoidId (wrap32 (bid + 1)) s)))
  end.

(** [case 5], the new velocity of one boid. *)
Definition scatter_boid (pid : Z) (center : Vec2) (bb : Boid) : Boid :=
  if negb (Boid_playerId bb =? pid) then bb
  else
    let dir := Vec2_sub (Boid_pos bb) center in
    let d := length_ dir in
    let dir := if flt d (1 # 100) then mkVec2 1 0 else normalized dir in
    Boid_with_vel (Vec2_scale dir SCATTER_FORCE) bb.

(** [case 7], the loop [for (bi = size - 1; bi >= 0 && killed < 4; --bi)];
    the first argument is [bi + 1]. *)
Fixpoint mine_loop (n : nat) (pid : Z) (killed : Z) (boids : list Boid)
  : option (list Boid) :=
  match n with
  | O => Some boids
  | S bi =>
      if killed <? MINE_KILL_COUNT then
        bb ← boids !! bi;
        if Boid_playerId bb =? pid
        then mine_loop bi pid (killed + 1) (delete bi boids)
        else mine_loop bi pid killed boids
      else Some boids
  end.

(** The [switch (pickup.type)] for the consuming boid [b], whose owner
    [player] was found under the key [b.playerId]. *)
Definition pickup_effect (s : GameEngine) (pickup : Pickup) (b : Boid)
  (player : Player) : option GameEngine :=
  let key := Boid_playerId b in
  let type := Pickup_type pickup in
  if type =? 0 then
    Some (with_players (<[key := Player_with_boostFuel 1 player]> (players_ s)) s)
  else if type =? 1 then
    let boidCount := count_boids (Player_id player) (boids_ s) in
    let toSpawn := Z.min 5 (MAX_BOIDS_PER_PLAYER - boidCount) in
    if 0 <? toSpawn
    then mass_spawn_loop (Z.to_nat toSpawn) (Player_id player) (Some b) s
    else Some s
  else if type =? 2 then
    Some (with_players
            (<[key := Player_with_shieldTicks SHIELD_DURATION player]>
               (players_ s)) s)
  else if type =? 3 then
    Some (with_players
            (<[key := Player_with_speedBurstTicks SPEED_BURST_DURATION player]>
               (players_ s)) s)
  else if type =? 4 then
    Some (with_players
            (<[key := Player_with_slowTicks SLOW_DURATION player]>
               (players_ s)) s)
  else if type =? 5 then
    Some (with_boids
            (map (scatter_boid (Player_id player) (Pickup_pos pickup)) (boids_ s))
            s)
  else if type =? 6 then
    Some (with_players
            (<[key := Player_with_boosting false
                        (Player_with_boostFuel 0 player)]> (players_ s)) s)
  else if type =? 7 then
    boids ← mine_loop (length (boids_ s)) (Player_id player) 0 (boids_ s);
    Some (with_boids boids s)
  else Some s.

(** [for (auto& ne : nearby)] of [collectPickups]. *)
Fixpoint collect_pickup_scan (s : GameEngine) (pickup : Pickup)
  (nearby : list QTEntry) : option (GameEngine * Pickup) :=
  match nearby with
  | [] => Some (s, pickup)
  | ne :: rest =>
      b ← vec_at (boids_ s) (boidIndex ne);
      let diff := Vec2_sub (Boid_pos b) (Pickup_pos pickup) in
      let radiusSq := (PICKUP_COLLECT_RADIUS * PICKUP_COLLECT_RADIUS)%Q in
      if fge (lengthSq diff) radiusSq then collect_pickup_scan s pickup rest
      else
        match players_ s !! Boid_playerId b with
        | None => collect_pickup_scan s pickup rest
        | Some player =>
            s ← pickup_effect s pickup b player;
            Some (s, Pickup_with_active false pickup)
        end
  end.

(** The rectangle queried around a pickup. *)
Definition pickup_queryRect (pickup : Pickup) : Rect :=
  mkRect (Vec2_x (Pickup_pos pickup) - PICKUP_COLLECT_RADIUS)
         (Vec2_y (Pickup_pos pickup) - PICKUP_COLLECT_RADIUS)
         (PICKUP_COLLECT_RADIUS * 2) (PICKUP_COLLECT_RADIUS * 2).

(** The body of [for (auto& pickup : pickups_)]. *)
Definition collect_pickup (s : GameEngine) (pickup : Pickup)
  : option (GameEngine * Pickup) :=
  if negb (Pickup_active pickup) then Some (s, pickup)
  else
    let nearby := query (quadTree_ s) (pickup_queryRect pickup) [] in
    collect_pickup_scan s pickup nearby.

Definition collectPickups (s : GameEngine) : option GameEngine :=
  '(s, ks) ← for_each_mut collect_pickup s (pickups_ s);
  Some (with_pickups (List.filter Pickup_active ks) s).

(** *** [GameEngine::tickPlayerEffects] *)

Definition tick_effects (player : Player) : Player :=
  let player :=
    if 0 <? Player_shieldTicks player
    then Player_with_shieldTicks (Player_shieldTicks player - 1) player
    else player in
  let player :=
    if 0 <? Player_speedBurstTicks player
    then Player_with_speedBurstTicks (Player_speedBurstTicks player - 1) player
    else player in
  let player :=
    if 0 <? Player_slowTicks player
    then Player_with_slowTicks (Player_slowTicks player - 1) player
    else player in
  player.

Definition tickPlayerEffects (s : GameEngine) : GameEngine :=
  with_players (tick_effects <$> players_ s) s.

(** *** [GameEngine::tick] *)

(** Step 0, the boost fuel of one player. *)
Definition update_boost (player : Player) : Player :=
  let player :=
    if Player_boosting player && fgt (Player_boostFuel player) 0 then
      let player :=
        Player_with_boostFuel (Player_boostFuel player - BOOST_DRAIN_RATE)
          player in
      if fle (Player_boostFuel player) 0
      then Player_with_boosting false (Player_with_boostFuel 0 player)
      else player
    else if negb (Player_boosting player) && flt (Player_boostFuel player) 1
    then
      let player :=
        Player_with_boostFuel (Player_boostFuel player + BOOST_RECHARGE_RATE)
          player in
      if fgt (Player_boostFuel player) 1
      then Player_with_boostFuel 1 player
      else player
    else player in
  if Player_boosting player && flt (Player_boostFuel player) BOOST_MIN_FUEL
  then Player_with_boosting false player
  else player.

(** Step 2, [while (resourceSpawnAccum_ >= 1.0f)]. *)
Equations? spawn_accrued (s : GameEngine) : GameEngine
  by wf (Z.to_nat (Qfloor (resourceSpawnAccum_ s))) lt :=
spawn_accrued s with inspect (fge (resourceSpawnAccum_ s) 1) => {
  | exist _ true Hge :=
      spawn_accrued
        (with_resourceSpawnAccum (resourceSpawnAccum_ (spawnResources s) - 1)
           (spawnResources s));
  | exist _ false Hlt := s }.
Proof.
  assert (Hacc : resourceSpawnAccum_ (spawnResources s) = resourceSpawnAccum_ s).
  { unfold spawnResources. destruct (_ >=? _); [done|].
    cbn. destruct (randomPosition _) as [pos g].
    destruct (uniform_int _ _ g) as [value g1].
    destruct (uniform_int _ _ g1) as [type g2]. done. }
  unfold with_resourceSpawnAccum; cbn [resourceSpawnAccum_].
  rewrite Hacc. set (a := resourceSpawnAccum_ s) in *.
  apply Qle_bool_iff in Hge.
  assert (Hfl : (Qfloor (a - 1) = Qfloor a - 1)%Z).
  { destruct a as [n d]. unfold Qfloor, Qminus, Qplus, Qopp. cbn.
    rewrite Pos.mul_1_r, Z.mul_1_r.
    change (Z.neg d) with (-1 * Z.pos d)%Z.
    rewrite Z.div_add by lia. lia. }
  change (Z.to_nat (Qfloor (a - 1)) < Z.to_nat (Qfloor a))%nat.
  rewrite Hfl.
  assert (1 <= Qfloor a)%Z.
  { change 1%Z with (Qfloor 1). by apply Qfloor_resp_le. }
  lia.
Qed.

(** Step 11, the liveness check of one player. *)
Definition check_dead (boids : list Boid) (pid : Z) (player : Player)
  : Player :=
  let count := count_boids pid boids in
  if (count =? 0) && Player_alive player
  then Player_with_alive false player
  else player.

Definition tick (s : GameEngine) : option GameEngine :=
  let s := with_players (update_boost <$> players_ s) s in
  let s := tickPlayerEffects s in
  let s :=
    with_resourceSpawnAccum (resourceSpawnAccum_ s + RESOURCE_SPAWN_RATE) s in
  let s := spawn_accrued s in
  let s := spawnPickups s in
  let s := buildQuadTree s in
  s ← applyBoidRules s;
  let s := clampPositions s in
  let s := buildQuadTree s in
  s ← collectResources s;
  s ← collectPickups s;
  s ← handleCombat s;
  Some (with_players
          (map_imap (λ pid player, Some (check_dead (boids_ s) pid player))
             (players_ s)) s).

(** *** [GameEngine::GameEngine] *)

(** [for (i = 0; i < MAX_RESOURCES / 2; ++i)] of the constructor. *)
Fixpoint prespawn (n : nat) (s : GameEngine) : GameEngine :=
  match n with
  | O => s
  | S n => prespawn n (with_resourceSpawnAccum 0 (spawnResources s))
  end.

(** The constructor; [g] is the generator seeded from
    [std::random_device]. *)
Definition GameEngine_new (g : Rng) : GameEngine :=
  let s := mkEngine ∅ [] [] []
             (QuadTree_new (mkRect 0 0 MAP_WIDTH MAP_HEIGHT) 0)
             1 1 1 1 0 0 g in
  prespawn (Z.to_nat (MAX_RESOURCES / 2)) s.

End Engine.

(** ** Binary serialisation *)

(** The output buffer [buf] of [serializeState] with the write pointer
    [ptr], kept as an offset into the buffer.  Bytes are integers in
    [0, 256). *)
Record Writer := mkWriter { buf : list Z; ptr : nat }.

(** The [n] low bytes of [v], least significant first: the object
    representation [memcpy] copies on the little-endian targets the format
    is defined for. *)
Fixpoint le_bytes (n : nat) (v : Z) : list Z :=
  match n with
  | O => []
  | S n => v mod 256 :: le_bytes n (v / 256)
  end.

(** [memcpy(ptr, &v, n); ptr += n].  A copy that would run past the end of
    the buffer is undefined behaviour. *)
Definition memcpy_advance (bytes : list Z) (w : Writer) : option Writer :=
  if (ptr w + length bytes <=? length (buf w))%nat then
    Some (mkWriter
            (take (ptr w) (buf w) ++ bytes
               ++ drop (ptr w + length bytes) (buf w))
            (ptr w + length bytes))
  else None.

(** The lambdas [writeU16], [writeU32], [writeF32], [writeU8], [writeI8]. *)
Definition writeU16 (v : Z) : Writer → option Writer :=
  memcpy_advance (le_bytes 2 v).
Definition writeU32 (v : Z) : Writer → option Writer :=
  memcpy_advance (le_bytes 4 v).
Definition writeF32 `{b32 : Binary32} (v : Q) : Writer → option Writer :=
  memcpy_advance (le_bytes 4 (f32_bits v)).
Definition writeU8 (v : Z) : Writer → option Writer :=
  memcpy_advance (le_bytes 1 v).
Definition writeI8 (v : Z) : Writer → option Writer :=
  memcpy_advance (le_bytes 1 (wrap8 v)).

(** Conversion of a [float] to an integer type: truncation toward zero. *)
Definition ftrunc (q : Q) : Z := Z.quot (Qnum q) (Z.pos (Qden q)).

(** The conversion is undefined when the truncated value is not a value of
    the integer type: [(int)v] and [(uint16_t)v]. *)
Definition float_to_int (v : Q) : option Z :=
  let z := ftrunc v in
  if (- 2 ^ 31 <=? z) && (z <? 2 ^ 31) then Some z else None.
Definition float_to_uint16 (v : Q) : option Z :=
  let z := ftrunc v in
  if (0 <=? z) && (z <? 2 ^ 16) then Some z else None.

(** The binary32 value nearest to a rational, ties to even: what a [float]
    operation returns when its exact result is [q].  The values are
    [2^(e-23)] apart for [2^e <= |q| < 2^(e+1)], and [2^-149] apart below
    [2^-126].  Beyond the largest finite value the operation returns an
    infinity; the value given here is then at least [2^127] in magnitude,
    which no conversion to an integer type accepts. *)
Definition floor_log2 (a : Q) : Z :=
  let e := Z.log2 (Qnum a) - Z.log2 (Zpos (Qden a)) in
  if Qle_bool (Qpower 2 e) a then e else e - 1.

Definition round_half_even (r : Q) : Z :=
  let f := Qfloor r in
  match Qcompare (r - inject_Z f) (1 # 2) with
  | Lt => f
  | Gt => f + 1
  | Eq => if Z.even f then f else f + 1
  end.

Definition binary32_round (q : Q) : Q :=
  if Qeq_bool q 0 then 0
  else
    let a := if flt q 0 then (- q)%Q else q in
    let e := Z.max (floor_log2 a) (-126) in
    let m := round_half_even (a / Qpower 2 (e - 23)) in
    let r := (inject_Z m * Qpower 2 (e - 23))%Q in
    if flt q 0 then (- r)%Q else r.

(** [a * b] on [float]. *)
Definition fmul (a b : Q) : Q := binary32_round (a * b).

(** [std::clamp] on [float] and on [int]. *)
Definition fclamp (v lo hi : Q) : Q :=
  if flt v lo then lo else if flt hi v then hi else v.
Definition clamp (v lo hi : Z) : Z :=
  if v <? lo then lo else if hi <? v then hi else v.

Definition UINT16_MAX : Z := 65535.

(** [for (auto& a : v) body] over the writer. *)
Fixpoint write_each {A} (body : A → Writer → option Writer) (v : list A)
  (w : Writer) : option Writer :=
  match v with
  | [] => Some w
  | a :: v => w ← body a w; write_each body v w
  end.

Section Serialize.
Context `{b32 : Binary32} `{mt : Mt19937}.

Definition b2z (b : bool) : Z := if b then 1 else 0.

(** The body of the loop over [players_]. *)
Definition write_player (e : Z * Player) (w : Writer) : option Writer :=
  let '(pid, player) := e in
  w ← writeU32 pid w;
  w ← writeU16 (wrap16 (Z.min (Player_score player) 65535)) w;
  w ← writeU8 (b2z (Player_alive player)) w;
  w ← writeU8 (b2z (Player_boosting player)) w;
  w ← writeF32 (Player_boostFuel player) w;
  w ← writeF32 (Mutations_speed (Player_mutations player)) w;
  w ← writeF32 (Mutations_cohesion (Player_mutations player)) w;
  w ← writeF32 (Mutations_aggression (Player_mutations player)) w;
  w ← writeF32 (Mutations_collectRange (Player_mutations player)) w;
  w ← writeU8 (wrap8 (Z.min (Player_shieldTicks player) 255)) w;
  w ← writeU8 (wrap8 (Z.min (Player_speedBurstTicks player) 255)) w;
  writeU8 (wrap8 (Z.min (Player_slowTicks player) 255)) w.

(** The body of the loop over [boids_]. *)
Definition write_boid (b : Boid) (w : Writer) : option Writer :=
  w ← writeU32 (Boid_playerId b) w;
  w ← writeU16
        (wrap16 (ftrunc (fclamp (Vec2_x (Boid_pos b)) 0 (inject_Z UINT16_MAX))))
        w;
  w ← writeU16
        (wrap16 (ftrunc (fclamp (Vec2_y (Boid_pos b)) 0 (inject_Z UINT16_MAX))))
        w;
  vx ← float_to_int (fmul (Vec2_x (Boid_vel b)) 10);
  vy ← float_to_int (fmul (Vec2_y (Boid_vel b)) 10);
  w ← writeI8 (clamp vx (-127) 127) w;
  writeI8 (clamp vy (-127) 127) w.

(** The body of the loop over [resources_]. *)
Definition write_resource (r : Resource) (w : Writer) : option Writer :=
  if negb (Resource_active r) then Some w
  else
    x ← float_to_uint16 (Vec2_x (Resource_pos r));
    w ← writeU16 x w;
    y ← float_to_uint16 (Vec2_y (Resource_pos r));
    w ← writeU16 y w;
    writeU8 (Resource_type r) w.

(** The body of the loop over [pickups_]. *)
Definition write_pickup (p : Pickup) (w : Writer) : option Writer :=
  if negb (Pickup_active p) then Some w
  else
    x ← float_to_uint16 (Vec2_x (Pickup_pos p));
    w ← writeU16 x w;
    y ← float_to_uint16 (Vec2_y (Pickup_pos p));
    w ← writeU16 y w;
    writeU8 (Pickup_type p) w.

(** The writes of [serializeState], header first.  The players are
    visited in the order of [map_to_list], which stands for the iteration
    order of the [std::unordered_map]. *)
Definition write_state (s : GameEngine) (w : Writer) : option Writer :=
  let activeResources := count_active Resource_active (resources_ s) in
  let activePickups := count_active Pickup_active (pickups_ s) in
  w ← writeU16 (wrap16 (ftrunc MAP_WIDTH)) w;
  w ← writeU16 (wrap16 (ftrunc MAP_HEIGHT)) w;
  w ← writeU16 (wrap16 (Z.of_nat (size (players_ s)))) w;
  w ← writeU16 (wrap16 (Z.of_nat (length (boids_ s)))) w;
  w ← writeU16 (wrap16 activeResources) w;
  w ← writeU16 (wrap16 activePickups) w;
  w ← write_each write_player (map_to_list (players_ s)) w;
  w ← write_each write_boid (boids_ s) w;
  w ← write_each write_resource (resources_ s) w;
  write_each write_pickup (pickups_ s) w.

(** [GameEngine::serializeState]: the buffer is allocated with
    [totalSize] zero bytes, filled from its start and returned. *)
Definition serializeState (s : GameEngine) : option (list Z) :=
  let headerSize := 12%nat in
  let playerSize := (4 + 2 + 1 + 1 + 4 + 4 * 4 + 3)%nat in
  let boidSize := (4 + 2 + 2 + 1 + 1)%nat in
  let resourceSize := (2 + 2 + 1)%nat in
  let pickupSize := (2 + 2 + 1)%nat in
  let activeResources := count_active Resource_active (resources_ s) in
  let activePickups := count_active Pickup_active (pickups_ s) in
  let totalSize :=
    (headerSize + size (players_ s) * playerSize
     + length (boids_ s) * boidSize
     + Z.to_nat activeResources * resourceSize
     + Z.to_nat activePickups * pickupSize)%nat in
  w ← write_state s (mkWriter (replicate totalSize 0) 0);
  Some (buf w).

End Serialize.

(** ** A concrete platform, to run the embedding on concrete inputs

    The square root is approximated from below on a grid of [2^-16].  The
    generator replays a tape of samples of the unit interval: a draw scales
    the next sample into the range of the distribution, and an exhausted
    tape yields the lower bound. *)

#[export] Instance grid_sqrt : Libm :=
  {| fsqrt q := Z.sqrt (Qfloor (q * inject_Z (4 ^ 16))) # 2 ^ 16 |}.

#[export] Instance tape : Mt19937 :=
  {| Rng := list Q;
     uniform_real lo hi g :=
       match g with
       | [] => (lo, [])
       | u :: g => ((lo + (hi - lo) * u)%Q, g)
       end;
     uniform_int lo hi g :=
       match g with
       | [] => (lo, [])
       | u :: g => (lo + Qfloor (u * inject_Z (hi - lo + 1)), g)
       end |}.

(** [n] samples of the unit interval, from a linear congruential sequence. *)
Fixpoint unit_samples (n : nat) (seed : Z) : list Q :=
  match n with
  | O => []
  | S n =>
      let seed := (1103515245 * seed + 12345) mod 2 ^ 31 in
      Qred (seed / 2 ^ 21 # 2 ^ 10) :: unit_samples n seed
  end.

(** ** The client's decoder: [parseState] of [public/app.js]

    A [DataView] read at an offset past the end of the buffer throws a
    [RangeError]; the embedded read returns [None].  The value of a
    binary32 bit pattern, which [getFloat32] returns, is a parameter like
    the bit pattern itself. *)

Class DataView := { float32_value : Z → Q }.

(** A read from the buffer at the current [offset], which it advances. *)
Definition Read (A : Type) : Type := list Z → nat → option (A * nat).

#[export] Instance read_ret : MRet Read := λ A a _ offset, Some (a, offset).

#[export] Instance read_bind : MBind Read := λ A B k r buffer offset,
  match r buffer offset with
  | Some (a, offset) => k a buffer offset
  | None => None
  end.

(** [view.getUint8], [getInt8], [getUint16], [getUint32] and [getFloat32],
    the last three little-endian. *)
Definition getUint8 (buffer : list Z) (offset : nat) : option Z :=
  buffer !! offset.
Definition getInt8 (buffer : list Z) (offset : nat) : option Z :=
  b ← buffer !! offset; Some (if b <? 128 then b else b - 256).
Definition getUint16 (buffer : list Z) (offset : nat) : option Z :=
  b0 ← buffer !! offset; b1 ← buffer !! (offset + 1)%nat;
  Some (b0 + 256 * b1).
Definition getUint32 (buffer : list Z) (offset : nat) : option Z :=
  b0 ← buffer !! offset; b1 ← buffer !! (offset + 1)%nat;
  b2 ← buffer !! (offset + 2)%nat; b3 ← buffer !! (offset + 3)%nat;
  Some (b0 + 256 * (b1 + 256 * (b2 + 256 * b3))).
Definition getFloat32 `{dv : DataView} (buffer : list Z) (offset : nat)
  : option Q :=
  bits ← getUint32 buffer offset; Some (float32_value bits).

(** The closures [readU16], [readU32], [readF32], [readU8], [readI8]. *)
Definition readU16 : Read Z :=
  λ buffer offset, v ← getUint16 buffer offset; Some (v, (offset + 2)%nat).
Definition readU32 : Read Z :=
  λ buffer offset, v ← getUint32 buffer offset; Some (v, (offset + 4)%nat).
Definition readF32 `{dv : DataView} : Read Q :=
  λ buffer offset, v ← getFloat32 buffer offset; Some (v, (offset + 4)%nat).
Definition readU8 : Read Z :=
  λ buffer offset, v ← getUint8 buffer offset; Some (v, (offset + 1)%nat).
Definition readI8 : Read Z :=
  λ buffer offset, v ← getInt8 buffer offset; Some (v, (offset + 1)%nat).

(** The objects pushed by the four loops. *)
Record PlayerView := mkPlayerView {
  PlayerView_id : Z;
  PlayerView_score : Z;
  PlayerView_alive : bool;
  PlayerView_boosting : bool;
  PlayerView_boostFuel : Q;
  PlayerView_speed : Q;
  PlayerView_cohesion : Q;
  PlayerView_aggression : Q;
  PlayerView_collectRange : Q;
  PlayerView_shieldTicks : Z;
  PlayerView_speedBurstTicks : Z;
  PlayerView_slowTicks : Z;
}.

Record BoidView := mkBoidView {
  BoidView_playerId : Z;
  BoidView_x : Z;
  BoidView_y : Z;
  BoidView_vx : Q;
  BoidView_vy : Q;
}.

Record ResourceView := mkResourceView {
  ResourceView_x : Z;
  ResourceView_y : Z;
  ResourceView_type : Z;
}.

Record PickupView := mkPickupView {
  PickupView_x : Z;
  PickupView_y : Z;
  PickupView_type : Z;
}.

(** The object [parseState] returns. *)
Record StateView := mkStateView {
  StateView_players : list PlayerView;
  StateView_boids : list BoidView;
  StateView_resources : list ResourceView;
  StateView_pickups : list PickupView;
}.

(** [for (let i = 0; i < n; i++) items.push(read())] *)
Fixpoint read_each {A} (read : Read A) (n : nat) : Read (list A) :=
  match n with
  | O => mret []
  | S n => a ← read; items ← read_each read n; mret (a :: items)
  end.

Section ParseState.
Context `{dv : DataView}.

Definition read_player : Read PlayerView :=
  id ← readU32; score ← readU16; alive ← readU8; boosting ← readU8;
  boostFuel ← readF32; speed ← readF32; cohesion ← readF32;
  aggression ← readF32; collectRange ← readF32;
  shieldTicks ← readU8; speedBurstTicks ← readU8; slowTicks ← readU8;
  mret (mkPlayerView id score (alive =? 1) (boosting =? 1) boostFuel
          speed cohesion aggression collectRange
          shieldTicks speedBurstTicks slowTicks).

Definition read_boid : Read BoidView :=
  playerId ← readU32; x ← readU16; y ← readU16;
  vx ← readI8; vy ← readI8;
  mret (mkBoidView playerId x y (inject_Z vx / 10) (inject_Z vy / 10)).

Definition read_resource : Read ResourceView :=
  x ← readU16; y ← readU16; type ← readU8;
  mret (mkResourceView x y type).

Definition read_pickup : Read PickupView :=
  x ← readU16; y ← readU16; type ← readU8;
  mret (mkPickupView x y type).

Definition read_state : Read StateView :=
  mw ← readU16; mh ← readU16;
  numPlayers ← readU16; numBoids ← readU16;
  numResources ← readU16; numPickups ← readU16;
  players ← read_each read_player (Z.to_nat numPlayers);
  boids ← read_each read_boid (Z.to_nat numBoids);
  resources ← read_each read_resource (Z.to_nat numResources);
  pickups ← read_each read_pickup (Z.to_nat numPickups);
  mret (mkStateView players boids resources pickups).

(** [parseState(buffer)]: the reads start at offset 0. *)
Definition parseState (buffer : list Z) : option StateView :=
  fst <$> read_state buffer 0%nat.

End ParseState.

(** ** IEEE 754 binary32 on the concrete platform

    The bit pattern [static_cast<float>] stores for a rational (rounded to
    the nearest value, ties to even; subnormals below 2^-126; the pattern
    of infinity beyond the largest finite value) and the value
    [DataView.getFloat32] gives back for a pattern with a finite value. *)

Definition binary32_bits (q : Q) : Z :=
  let sign := if flt q 0 then 2 ^ 31 else 0 in
  let a := if flt q 0 then (- q)%Q else q in
  if Qeq_bool a 0 then 0
  else
    let e := Z.max (floor_log2 a) (-126) in
    let m := round_half_even (a / Qpower 2 (e - 23)) in
    let e := if m =? 2 ^ 24 then e + 1 else e in
    let m := if m =? 2 ^ 24 then 2 ^ 23 else m in
    if 127 <? e then sign + 255 * 2 ^ 23
    else if m <? 2 ^ 23 then sign + m
    else sign + (e + 127) * 2 ^ 23 + (m - 2 ^ 23).

Definition binary32_value (bits : Z) : Q :=
  let sign := if Z.testbit bits 31 then -1 else 1 in
  let e := Z.land (Z.shiftr bits 23) 255 in
  let f := Z.land bits (2 ^ 23 - 1) in
  if e =? 0 then inject_Z (sign * f) * Qpower 2 (-149)
  else inject_Z (sign * (2 ^ 23 + f)) * Qpower 2 (e - 150).

#[export] Instance binary32 : Binary32 := {| f32_bits := binary32_bits |}.

#[export] Instance binary32_view : DataView :=
  {| float32_value := binary32_value |}.

(** * Definitions used to state the properties *)

(** ** Rectangles and the contents of the quadtree *)

(** The point lies in the half-open rectangle: what [Rect::contains]
    decides. *)
Definition inside (r : Rect) (px py : Q) : Prop :=
  (rx r <= px ∧ px < rx r + rw r ∧ ry r <= py ∧ py < ry r + rh r)%Q.

(** The quadrants of a rectangle. *)
Definition quadrant (k : nat) (b : Rect) : Rect :=
  qt_bounds (match k with
             | 0%nat => child0 b 0 | 1%nat => child1 b 0
             | 2%nat => child2 b 0 | _ => child3 b 0
             end).

(** [Rect::contains] on the point of an entry. *)
Definition entry_in (r : Rect) (e : QTEntry) : bool := contains r (ex e) (ey e).

(** Every entry held by the tree, node first, then the children in order. *)
Fixpoint qt_all (t : QuadTree) : list QTEntry :=
  match t with
  | Leaf _ _ o => o
  | Quad _ _ o c0 c1 c2 c3 =>
      o ++ qt_all c0 ++ qt_all c1 ++ qt_all c2 ++ qt_all c3
  end.

(** The shape [insert] maintains: a node's own entries lie in its bounds and
    the children of a divided node are its four quadrants. *)
Fixpoint qt_wf (t : QuadTree) : Prop :=
  match t with
  | Leaf b _ o => Forall (λ e, entry_in b e = true) o
  | Quad b _ o c0 c1 c2 c3 =>
      Forall (λ e, entry_in b e = true) o
      ∧ (qt_bounds c0 = quadrant 0 b ∧ qt_bounds c1 = quadrant 1 b
         ∧ qt_bounds c2 = quadrant 2 b ∧ qt_bounds c3 = quadrant 3 b)
      ∧ qt_wf c0 ∧ qt_wf c1 ∧ qt_wf c2 ∧ qt_wf c3
  end.

(** What one [insert] adds to the entries of a node with these bounds. *)
Definition added (b : Rect) (e : QTEntry) : list QTEntry :=
  if entry_in b e then [e] else [].

(** ** The clamp, on one axis *)

(** What the clamp does on one axis with upper edge [limit]. *)
Definition axis_clamped (limit p v p' v' : Q) : Prop :=
  (0 <= p' <= limit)%Q
  ∧ ((p < 0)%Q → p' = 0%Q ∧ v' = (v * -(1 # 2))%Q)
  ∧ ((limit < p)%Q → p' = limit ∧ v' = (v * -(1 # 2))%Q)
  ∧ ((0 <= p <= limit)%Q → p' = p ∧ v' = v).

(** ** The fields of the snapshot and writes into the buffer *)

(** Little-endian fields; a negative value is written in two's
    complement. *)
Definition u8 (v : Z) : list Z := [v mod 256].
Definition i8 (v : Z) : list Z := [v mod 256].
Definition u16 (v : Z) : list Z := [v mod 256; v / 256 mod 256].
Definition u32 (v : Z) : list Z :=
  [v mod 256; v / 256 mod 256; v / 256 / 256 mod 256;
   v / 256 / 256 / 256 mod 256].

(** [writes f bs]: started at the end of [pre] with room for [bs], [f]
    replaces the next [length bs] bytes by [bs] and stops after them. *)
Definition writes (f : Writer → option Writer) (bs : list Z) : Prop :=
  ∀ pre pad post, length pad = length bs →
    f (mkWriter (pre ++ pad ++ post) (length pre))
    = Some (mkWriter ((pre ++ bs) ++ post) (length (pre ++ bs))).

(** ** The entries of the boids and the shape of the quadtree *)


(** No node lies at a level beyond [QUADTREE_MAX_LEVELS]; a leaf at a
    level below it holds at most [QUADTREE_MAX_OBJECTS] entries; a divided
    node lies at a level below it, holds exactly [QUADTREE_MAX_OBJECTS]
    entries of its own (it keeps the entries it had when it was divided)
    and its children lie one level deeper. *)
Fixpoint qt_balanced (t : QuadTree) : Prop :=
  match t with
  | Leaf _ l o =>
      0 ≤ l ≤ QUADTREE_MAX_LEVELS
      ∧ (l < QUADTREE_MAX_LEVELS →
         Z.of_nat (length o) ≤ QUADTREE_MAX_OBJECTS)
  | Quad _ l o c0 c1 c2 c3 =>
      0 ≤ l < QUADTREE_MAX_LEVELS
      ∧ Z.of_nat (length o) = QUADTREE_MAX_OBJECTS
      ∧ (qt_level c0 = l + 1 ∧ qt_level c1 = l + 1
         ∧ qt_level c2 = l + 1 ∧ qt_level c3 = l + 1)
      ∧ qt_balanced c0 ∧ qt_balanced c1 ∧ qt_balanced c2 ∧ qt_balanced c3
  end.

(** The number of levels below a node. *)
Fixpoint qt_height (t : QuadTree) : Z :=
  match t with
  | Leaf _ _ _ => 0
  | Quad _ _ _ c0 c1 c2 c3 =>
      1 + Z.max (Z.max (qt_height c0) (qt_height c1))
                (Z.max (qt_height c2) (qt_height c3))
  end.

(** ** Reads from the buffer *)

(** [r], started at the first byte of [bs] anywhere in a buffer, returns
    [v] and stops right behind [bs]. *)
Definition reads {A} (r : Read A) (bs : list Z) (v : A) : Prop :=
  ∀ pre post,
    r (pre ++ bs ++ post) (length pre)
    = Some (v, (length pre + length bs)%nat).

(** A read that succeeds on a truncated buffer stays within it and gives
    the same on the whole buffer. *)
Definition prefix_stable {A} (r : Read A) : Prop :=
  ∀ buffer n offset v offset',
    r (take n buffer) offset = Some (v, offset') →
    r buffer offset = Some (v, offset')
    ∧ ((offset ≤ n)%nat → (offset' ≤ n)%nat).

(** ** Totals of scores and of resource values *)

(** The sum of the scores of the stored players. *)
Definition total_score (players : gmap Z Player) : Z :=
  map_fold (λ _ p acc, Player_score p + acc) 0 players.

(** The sum of the values of the active resources of a vector. *)
Definition total_value (resources : list Resource) : Z :=
  foldr (λ r acc, (if Resource_active r then Resource_value r else 0) + acc)
    0 resources.

Section Statements.
Context `{b32 : Binary32} `{dv : DataView} `{libm : Libm} `{mt : Mt19937}.



(** Every boid is owned by a stored player. *)
Definition owned (players : gmap Z Player) (boids : list Boid) : Prop :=
  Forall (λ pid, is_Some (players !! pid)) (Boid_playerId <$> boids).


(** A marked index designates a boid whose owner has no active shield. *)
Definition unshielded_mark (players : gmap Z Player) (boids : list Boid)
  (idx : Z) : Prop :=
  ∃ b, vec_at boids idx = Some b
       ∧ has_shield players (Boid_playerId b) = false.

(** The entry holds a valid index of the vector. *)
Definition entry_valid (boids : list Boid) (e : QTEntry) : Prop :=
  0 ≤ boidIndex e < Z.of_nat (length boids).

(** Every index held by the spatial index is a valid index of [boids_]. *)
Definition index_valid (s : GameEngine) : Prop :=
  Forall (entry_valid (boids_ s)) (qt_all (quadTree_ s)).

(** What the collection phases keep: the index object and the pickup
    vector are those of [s0], and the index stays valid. *)
Definition collecting (s0 s : GameEngine) : Prop :=
  quadTree_ s = quadTree_ s0 ∧ pickups_ s = pickups_ s0 ∧ index_valid s.

(** The counter rule as the specification words it: the counter goes up by
    one on every run of the step and is reset when it reaches the
    interval, cap or no cap. *)
Definition counter_rule_of_spec (s : GameEngine) : Prop :=
  let c := (pickupSpawnAccum_ s + 1)%Q in
  (pickupSpawnAccum_ (spawnPickups s)
   == (if flt c PICKUP_SPAWN_INTERVAL then c else 0))%Q.

(** A binary32 value, by its bit pattern. *)
Definition f32 (v : Q) : list Z := u32 (f32_bits v).

(** Header (12 B): u16 mapWidth, u16 mapHeight (4000 each), u16
    numPlayers, u16 numBoids, u16 numActiveResources, u16
    numActivePickups. *)
Definition snapshot_header (s : GameEngine) : list Z :=
  u16 4000 ++ u16 4000
  ++ u16 (Z.of_nat (size (players_ s)))
  ++ u16 (Z.of_nat (length (boids_ s)))
  ++ u16 (count_active Resource_active (resources_ s))
  ++ u16 (count_active Pickup_active (pickups_ s)).

(** Per player (31 B): u32 id, u16 score saturating at 65535, u8 alive,
    u8 boosting, f32 boostFuel, f32 x 4 mutation stats, three u8 timers
    saturating at 255. *)
Definition snapshot_player (e : Z * Player) : list Z :=
  let p := e.2 in
  u32 e.1
  ++ u16 (Z.min (Player_score p) 65535)
  ++ u8 (b2z (Player_alive p)) ++ u8 (b2z (Player_boosting p))
  ++ f32 (Player_boostFuel p)
  ++ f32 (Mutations_speed (Player_mutations p))
  ++ f32 (Mutations_cohesion (Player_mutations p))
  ++ f32 (Mutations_aggression (Player_mutations p))
  ++ f32 (Mutations_collectRange (Player_mutations p))
  ++ u8 (Z.min (Player_shieldTicks p) 255)
  ++ u8 (Z.min (Player_speedBurstTicks p) 255)
  ++ u8 (Z.min (Player_slowTicks p) 255).

(** Per boid (10 B): u32 playerId, u16 x, u16 y (position truncated to
    integer, clamped to the u16 range), i8 vx, i8 vy (velocity x 10, the
    product of the two binary32 values, truncated to an integer and
    clamped to [-127, 127]). *)
Definition snapshot_boid (b : Boid) : list Z :=
  u32 (Boid_playerId b)
  ++ u16 (clamp (ftrunc (Vec2_x (Boid_pos b))) 0 65535)
  ++ u16 (clamp (ftrunc (Vec2_y (Boid_pos b))) 0 65535)
  ++ i8 (clamp (ftrunc (fmul (Vec2_x (Boid_vel b)) 10)) (-127) 127)
  ++ i8 (clamp (ftrunc (fmul (Vec2_y (Boid_vel b)) 10)) (-127) 127).

(** Per active resource and per active pickup (5 B): u16 x, u16 y,
    u8 type. *)
Definition snapshot_resource (r : Resource) : list Z :=
  u16 (ftrunc (Vec2_x (Resource_pos r)))
  ++ u16 (ftrunc (Vec2_y (Resource_pos r))) ++ u8 (Resource_type r).
Definition snapshot_pickup (p : Pickup) : list Z :=
  u16 (ftrunc (Vec2_x (Pickup_pos p)))
  ++ u16 (ftrunc (Vec2_y (Pickup_pos p))) ++ u8 (Pickup_type p).

(** The snapshot: header, players, boids, active resources, active
    pickups. *)
Definition snapshot_layout (s : GameEngine) : list Z :=
  snapshot_header s
  ++ concat (map snapshot_player (map_to_list (players_ s)))
  ++ concat (map snapshot_boid (boids_ s))
  ++ concat (map snapshot_resource (List.filter Resource_active (resources_ s)))
  ++ concat (map snapshot_pickup (List.filter Pickup_active (pickups_ s))).

(** The conversions of [serializeState] that the code does not guard:
    [(int)(b.vel.x * 10.0f)] of every boid and [(uint16_t)r.pos.x] of every
    active resource and pickup.  Each is defined when the truncated value
    is a value of the integer type. *)
Definition int_range (v : Q) : Prop := - 2 ^ 31 ≤ ftrunc v < 2 ^ 31.
Definition uint16_range (v : Q) : Prop := 0 ≤ ftrunc v < 2 ^ 16.

Definition boid_converts (b : Boid) : Prop :=
  int_range (fmul (Vec2_x (Boid_vel b)) 10)
  ∧ int_range (fmul (Vec2_y (Boid_vel b)) 10).
Definition resource_converts (r : Resource) : Prop :=
  Resource_active r = true →
  uint16_range (Vec2_x (Resource_pos r))
  ∧ uint16_range (Vec2_y (Resource_pos r)).
Definition pickup_converts (p : Pickup) : Prop :=
  Pickup_active p = true →
  uint16_range (Vec2_x (Pickup_pos p)) ∧ uint16_range (Vec2_y (Pickup_pos p)).

Definition conversions_defined (s : GameEngine) : Prop :=
  Forall boid_converts (boids_ s)
  ∧ Forall resource_converts (resources_ s)
  ∧ Forall pickup_converts (pickups_ s).


















(** The state of the scan of [handleCombat] while the swarm of [pid] is
    safe: no marked index designates a boid of [pid], the count of [pid]
    is still [n], and the count of every other owner of a boid is
    below [n]. *)
Definition swarm_safe (boids : list Boid) (pid n : Z)
  (st : list Z * gmap Z Z) : Prop :=
  Forall (λ idx, ∃ b, vec_at boids idx = Some b
                      ∧ (Boid_playerId b =? pid) = false) st.1
  ∧ counts_get st.2 pid = n
  ∧ ∀ b, b ∈ boids → Boid_playerId b ≠ pid →
         counts_get st.2 (Boid_playerId b) < n.

(** What the client gets for a [float] field: the value of the bit
    pattern that the engine wrote. *)
Definition float32_sent (v : Q) : Q := float32_value (wrap32 (f32_bits v)).

(** A player, a boid, a resource and a pickup as the snapshot shows
    them. *)
Definition player_view (e : Z * Player) : PlayerView :=
  let p := e.2 in
  mkPlayerView (wrap32 e.1) (wrap16 (Z.min (Player_score p) 65535))
    (Player_alive p) (Player_boosting p)
    (float32_sent (Player_boostFuel p))
    (float32_sent (Mutations_speed (Player_mutations p)))
    (float32_sent (Mutations_cohesion (Player_mutations p)))
    (float32_sent (Mutations_aggression (Player_mutations p)))
    (float32_sent (Mutations_collectRange (Player_mutations p)))
    (wrap8 (Z.min (Player_shieldTicks p) 255))
    (wrap8 (Z.min (Player_speedBurstTicks p) 255))
    (wrap8 (Z.min (Player_slowTicks p) 255)).

Definition boid_view (b : Boid) : BoidView :=
  mkBoidView (wrap32 (Boid_playerId b))
    (clamp (ftrunc (Vec2_x (Boid_pos b))) 0 65535)
    (clamp (ftrunc (Vec2_y (Boid_pos b))) 0 65535)
    (inject_Z (clamp (ftrunc (fmul (Vec2_x (Boid_vel b)) 10)) (-127) 127) / 10)
    (inject_Z (clamp (ftrunc (fmul (Vec2_y (Boid_vel b)) 10)) (-127) 127) / 10).

Definition resource_view (r : Resource) : ResourceView :=
  mkResourceView (wrap16 (ftrunc (Vec2_x (Resource_pos r))))
    (wrap16 (ftrunc (Vec2_y (Resource_pos r)))) (wrap8 (Resource_type r)).

Definition pickup_view (p : Pickup) : PickupView :=
  mkPickupView (wrap16 (ftrunc (Vec2_x (Pickup_pos p))))
    (wrap16 (ftrunc (Vec2_y (Pickup_pos p)))) (wrap8 (Pickup_type p)).

(** The engine state as the snapshot shows it: the players in the order
    of the iteration, the boids, the active resources and the active
    pickups. *)
Definition state_view (s : GameEngine) : StateView :=
  mkStateView (player_view <$> map_to_list (players_ s))
    (boid_view <$> boids_ s)
    (resource_view <$> List.filter Resource_active (resources_ s))
    (pickup_view <$> List.filter Pickup_active (pickups_ s)).

(** What step 5 does to one boid: it keeps its id and its owner; the boid
    of a stored player is moved by its new velocity, the boid of an
    unknown player is left as it is. *)
Definition moved (players : gmap Z Player) (b b' : Boid) : Prop :=
  Boid_id b' = Boid_id b ∧ Boid_playerId b' = Boid_playerId b
  ∧ match players !! Boid_playerId b with
    | Some _ => Boid_pos b' = Vec2_add (Boid_pos b) (Boid_vel b')
    | None => b' = b
    end.

End Statements.

(** ** Concrete engine states *)

(** The shield scenario: player 1 has an active shield and one boid,
    player 2 has no shield and ten boids, all within the absorb radius of
    the lone boid; the index is freshly built. *)
Definition lone_player : Player :=
  Player_with_shieldTicks 30 (Player_default 1 (mkVec2 2000 2000)).
Definition swarm_player : Player := Player_default 2 (mkVec2 2000 2000).

Definition lone_boid : Boid := mkBoid 1 1 (mkVec2 1000 1000) (mkVec2 0 0).
Definition swarm_boids : list Boid :=
  map (λ k, mkBoid (2 + k) 2 (mkVec2 (inject_Z (1001 + k)) 1000) (mkVec2 0 0))
      [0; 1; 2; 3; 4; 5; 6; 7; 8; 9].

Definition shield_scenario : GameEngine (mt := tape) :=
  buildQuadTree
    (mkEngine (<[1 := lone_player]> (<[2 := swarm_player]> ∅))
       (lone_boid :: swarm_boids) [] []
       (QuadTree_new (mkRect 0 0 MAP_WIDTH MAP_HEIGHT) 0)
       3 12 1 1 0 0 []).

(** A freshly constructed engine on the concrete platform. *)
Definition fresh_engine : GameEngine :=
  GameEngine_new (unit_samples 1000 42 : @Rng tape).

(** Its state after one tick. *)
Definition ticked_engine : GameEngine :=
  match tick fresh_engine with Some s => s | None => fresh_engine end.

(** Then a player joins. *)
Definition one_player_engine : GameEngine := (addPlayer ticked_engine).1.


(** An engine state with no player, given pickups and a given value of the
    pickup counter. *)
Definition engine_with_pickups (pickups : list Pickup) (accum : Q)
  : GameEngine (mt := tape) :=
  mkEngine ∅ [] [] pickups (QuadTree_new (mkRect 0 0 MAP_WIDTH MAP_HEIGHT) 0)
    1 1 1 (wrap32 (1 + Z.of_nat (length pickups))) 0 accum [].

(** Twenty active pickups. *)
Definition twenty_pickups : list Pickup :=
  map (λ k, mkPickup k (mkVec2 (inject_Z (100 * k)) 100) 2 true)
      [1; 2; 3; 4; 5; 6; 7; 8; 9; 10; 11; 12; 13; 14; 15; 16; 17; 18; 19; 20].

(** The cap is reached and the counter stands at 0, where the spawn of
    the twentieth pickup left it. *)
Definition capped_engine : GameEngine := engine_with_pickups twenty_pickups 0.

(** No pickup is active and the counter stands at 59. *)
Definition due_engine : GameEngine := engine_with_pickups [] 59.

(** A boid that left the map through the left edge, moving up and left. *)
Definition stray_engine : GameEngine (mt := tape) :=
  mkEngine (<[1 := Player_default 1 (mkVec2 2000 2000)]> ∅)
    [mkBoid 1 1 (mkVec2 (-(3 # 2)) 100) (mkVec2 (-3) 1)] [] []
    (QuadTree_new (mkRect 0 0 MAP_WIDTH MAP_HEIGHT) 0) 2 2 1 1 0 0 [].

(** A mine at (470, 500) and a shield pickup at (1010, 500). *)
Definition mine_pickup : Pickup := mkPickup 1 (mkVec2 470 500) 7 true.
Definition shield_pickup : Pickup := mkPickup 2 (mkVec2 1010 500) 2 true.

(** Two players at rest, four boids each: player 1 at (480, 500), where
    its cursor is, next to a mine; player 2 at (1000, 500), where its
    cursor is, next to a shield pickup.  The mine is stored first. *)
Definition mine_engine : GameEngine (mt := tape) :=
  mkEngine
    (<[1 := Player_default 1 (mkVec2 480 500)]>
       (<[2 := Player_default 2 (mkVec2 1000 500)]> ∅))
    (map (λ k, mkBoid k 1 (mkVec2 480 500) (mkVec2 0 0)) [1; 2; 3; 4]
     ++ map (λ k, mkBoid k 2 (mkVec2 1000 500) (mkVec2 0 0)) [5; 6; 7; 8])
    [] [mine_pickup; shield_pickup]
    (QuadTree_new (mkRect 0 0 MAP_WIDTH MAP_HEIGHT) 0)
    3 9 1 3 0 0 [].

(** The state in which the pickup phase of this tick starts: the index
    was rebuilt after movement and no resource was collected. *)
Definition mine_engine_indexed : GameEngine := buildQuadTree mine_engine.

(** The state after the body of the pickup loop has handled the mine. *)
Definition after_mine : GameEngine :=
  match collect_pickup mine_engine_indexed mine_pickup with
  | Some (s, _) => s
  | None => mine_engine_indexed
  end.

(** A resource of value 1 and type 0 at (500, 500). *)
Definition near_resource : Resource := mkResource 1 (mkVec2 500 500) 1 0 true.

(** One player whose collect-range multiplier has grown to 3.02, with one
    boid at rest 120.5 units to the right of a resource. *)
Definition far_collector : GameEngine (mt := tape) :=
  mkEngine
    (<[1 := Player_with_score 101
              (Player_with_mutations (mkMutations 1 1 1 (151 # 50))
                 (Player_default 1 (mkVec2 (1241 # 2) 500)))]> ∅)
    [mkBoid 1 1 (mkVec2 (1241 # 2) 500) (mkVec2 0 0)]
    [near_resource] []
    (QuadTree_new (mkRect 0 0 MAP_WIDTH MAP_HEIGHT) 0)
    2 2 2 1 0 0 [].

(** The multiplier is not capped: a player that keeps collecting resources
    of type 3 passes 3.  [feed] puts a resource of value 1 and type 3 on
    the first boid, rebuilds the index and runs the collection phase. *)
Definition feed (s : GameEngine (mt := tape)) : GameEngine :=
  match boids_ s with
  | b :: _ =>
      let r := mkResource (nextResourceId_ s) (Boid_pos b) 1 3 true in
      let s := with_nextResourceId (wrap32 (nextResourceId_ s + 1))
                 (with_resources (resources_ s ++ [r]) s) in
      default s (collectResources (buildQuadTree s))
  | [] => s
  end.

(** One player with default stats and one boid. *)
Definition one_boid_engine : GameEngine (mt := tape) :=
  mkEngine (<[1 := Player_default 1 (mkVec2 500 500)]> ∅)
    [mkBoid 1 1 (mkVec2 500 500) (mkVec2 0 0)] [] []
    (QuadTree_new (mkRect 0 0 MAP_WIDTH MAP_HEIGHT) 0)
    2 2 1 1 0 0 [].

(** The binary32 values nearest to 0.7 and -2.3. *)
Definition drifting_boid : Boid :=
  mkBoid 1 1 (mkVec2 500 (1001 # 2))
    (mkVec2 (11744051 # 16777216) (- (9646899 # 4194304))).

(** One player with this boid, a resource and a pickup. *)
Definition drifting_engine : GameEngine (mt := tape) :=
  mkEngine (<[1 := Player_default 1 (mkVec2 500 500)]> ∅) [drifting_boid]
    [mkResource 1 (mkVec2 100 200) 1 0 true]
    [mkPickup 1 (mkVec2 300 400) 2 true]
    (QuadTree_new (mkRect 0 0 MAP_WIDTH MAP_HEIGHT) 0)
    2 2 2 2 0 0 [].




(** One player whose cursor is at (600, 500), with one boid at rest at
    (500, 500); the index is built. *)
Definition chasing_engine : GameEngine (mt := tape) :=
  buildQuadTree
    (mkEngine (<[1 := Player_default 1 (mkVec2 600 500)]> ∅)
       [mkBoid 1 1 (mkVec2 500 500) (mkVec2 0 0)] [] []
       (QuadTree_new (mkRect 0 0 MAP_WIDTH MAP_HEIGHT) 0)
       2 2 1 1 0 0 []).

Definition chased_engine : GameEngine :=
  default chasing_engine (applyBoidRules chasing_engine).

Definition chasing_boid : Boid := mkBoid 1 1 (mkVec2 500 500) (mkVec2 0 0).

Definition chased_boid : Boid :=
  default chasing_boid (boids_ chased_engine !! 0%nat).

(** The engine of one boid with a resource of value 5 on the boid and a
    resource of value 3 far from it; the index is built. *)
Definition feeding_engine : GameEngine (mt := tape) :=
  buildQuadTree
    (with_resources
       [mkResource 1 (mkVec2 500 500) 5 0 true;
        mkResource 2 (mkVec2 3000 3000) 3 1 true] one_boid_engine).

Definition fed_engine : GameEngine :=
  default feeding_engine (collectResources feeding_engine).

(** The snapshot of the engine of one boid. *)
Definition one_boid_snapshot : list Z :=
  default [] (serializeState one_boid_engine).

(** * Properties *)

(** ** Comparisons *)

Lemma fle_true a b : fle a b = true ↔ (a <= b)%Q.
Proof. apply Qle_bool_iff. Qed.

Lemma flt_true a b : flt a b = true ↔ (a < b)%Q.
Proof.
  unfold flt. rewrite negb_true_iff, <- not_true_iff_false, Qle_bool_iff.
  split; [apply Qnot_le_lt | apply Qlt_not_le].
Qed.

Lemma fle_false a b : fle a b = false ↔ (b < a)%Q.
Proof.
  rewrite <- not_true_iff_false, fle_true.
  split; [apply Qnot_le_lt | apply Qlt_not_le].
Qed.

Lemma flt_false a b : flt a b = false ↔ (b <= a)%Q.
Proof.
  rewrite <- not_true_iff_false, flt_true.
  split; [apply Qnot_lt_le | apply Qle_not_lt].
Qed.

Lemma fge_true a b : fge a b = true ↔ (b <= a)%Q.
Proof. apply fle_true. Qed.
Lemma fge_false a b : fge a b = false ↔ (a < b)%Q.
Proof. apply fle_false. Qed.
Lemma fgt_true a b : fgt a b = true ↔ (b < a)%Q.
Proof. apply flt_true. Qed.
Lemma fgt_false a b : fgt a b = false ↔ (a <= b)%Q.
Proof. apply flt_false. Qed.

(** Case split on one comparison, leaving its meaning as a hypothesis. *)
Ltac fcase c :=
  let E := fresh "E" in
  destruct c eqn:E;
  [ first [ apply fgt_true in E | apply fge_true in E
          | apply flt_true in E | apply fle_true in E ]
  | first [ apply fgt_false in E | apply fge_false in E
          | apply flt_false in E | apply fle_false in E ] ].

(** ** Rectangles *)

Lemma contains_true r px py : contains r px py = true ↔ inside r px py.
Proof.
  unfold contains, inside.
  rewrite !andb_true_iff, !fge_true, !flt_true. tauto.
Qed.

Lemma contains_false r px py : contains r px py = false ↔ ¬ inside r px py.
Proof. rewrite <- not_true_iff_false, contains_true. tauto. Qed.

(** A point that lies in two rectangles makes them intersect. *)
Lemma inside_intersects r o px py :
  inside r px py → inside o px py → intersects r o = true.
Proof.
  unfold inside, intersects. intros (?&?&?&?) (?&?&?&?).
  rewrite negb_true_iff, !orb_false_iff, !fgt_false, !flt_false.
  repeat split; lra.
Qed.

Lemma child_bounds b l :
  qt_bounds (child0 b l) = quadrant 0 b ∧ qt_bounds (child1 b l) = quadrant 1 b
  ∧ qt_bounds (child2 b l) = quadrant 2 b ∧ qt_bounds (child3 b l) = quadrant 3 b.
Proof. done. Qed.

Lemma quadrant_inside k b px py :
  inside (quadrant k b) px py → inside b px py.
Proof.
  destruct b as [x y w h].
  destruct k as [|[|[|k]]]; unfold inside; cbn; intros (?&?&?&?);
    repeat split; lra.
Qed.

(** A point of a rectangle lies in exactly one quadrant. *)
Lemma quadrant_partition b px py :
  inside b px py →
  ∃ k, (k < 4)%nat ∧ inside (quadrant k b) px py
       ∧ ∀ j, (j < 4)%nat → inside (quadrant j b) px py → j = k.
Proof.
  destruct b as [x y w h]. unfold inside; cbn. intros (Hx1&Hx2&Hy1&Hy2).
  destruct (Qlt_le_dec px (x + w * (1 # 2))) as [Hx|Hx];
    destruct (Qlt_le_dec py (y + h * (1 # 2))) as [Hy|Hy].
  - exists 0%nat. split; [lia|]. split; [cbn; repeat split; lra|].
    intros [|[|[|[|j]]]] Hj; cbn; intros (?&?&?&?); try lia; lra.
  - exists 2%nat. split; [lia|]. split; [cbn; repeat split; lra|].
    intros [|[|[|[|j]]]] Hj; cbn; intros (?&?&?&?); try lia; lra.
  - exists 1%nat. split; [lia|]. split; [cbn; repeat split; lra|].
    intros [|[|[|[|j]]]] Hj; cbn; intros (?&?&?&?); try lia; lra.
  - exists 3%nat. split; [lia|]. split; [cbn; repeat split; lra|].
    intros [|[|[|[|j]]]] Hj; cbn; intros (?&?&?&?); try lia; lra.
Qed.

(** ** The quadtree *)

(** The defining equations of [insert], in the form of the source. *)
Lemma insert_Leaf b l o e :
  insert (Leaf b l o) e =
  if negb (entry_in b e) then Leaf b l o
  else if stores_locally l o then Leaf b l (o ++ [e])
  else Quad b l o (insert (child0 b l) e) (insert (child1 b l) e)
                  (insert (child2 b l) e) (insert (child3 b l) e).
Proof.
  simp insert.
  generalize (inspect (contains b (ex e) (ey e))). intros [c Hc].
  assert (Hc1 : entry_in b e = c) by exact Hc. rewrite Hc1. clear Hc1.
  destruct c; simp insert; [|done].
  generalize (inspect (stores_locally l o)). intros [c Hc'].
  assert (Hc2 : stores_locally l o = c) by exact Hc'.
  destruct c; simp insert; rewrite Hc2; done.
Qed.

Lemma insert_Quad b l o c0 c1 c2 c3 e :
  insert (Quad b l o c0 c1 c2 c3) e =
  if negb (entry_in b e) then Quad b l o c0 c1 c2 c3
  else if stores_locally l o then Quad b l (o ++ [e]) c0 c1 c2 c3
  else Quad b l o (insert c0 e) (insert c1 e) (insert c2 e) (insert c3 e).
Proof.
  simp insert.
  generalize (inspect (contains b (ex e) (ey e))). intros [c Hc].
  assert (Hc1 : entry_in b e = c) by exact Hc. rewrite Hc1. clear Hc1.
  destruct c; simp insert; [|done].
  generalize (inspect (stores_locally l o)). intros [c Hc'].
  assert (Hc2 : stores_locally l o = c) by exact Hc'.
  destruct c; simp insert; rewrite Hc2; done.
Qed.

Lemma insert_bounds t e : qt_bounds (insert t e) = qt_bounds t.
Proof.
  destruct t; [rewrite insert_Leaf | rewrite insert_Quad];
    destruct (negb _); [done| |done|]; destruct (stores_locally _ _); done.
Qed.

Lemma insert_empty_leaf b l e :
  insert (Leaf b l []) e = Leaf b l (added b e).
Proof.
  rewrite insert_Leaf. unfold added. destruct (entry_in b e); done.
Qed.

Lemma added_Forall b e : Forall (λ e0, entry_in b e0 = true) (added b e).
Proof.
  unfold added. destruct (entry_in b e) eqn:Hin; by repeat constructor.
Qed.

Lemma added_quadrants b e :
  entry_in b e = true →
  added (quadrant 0 b) e ++ added (quadrant 1 b) e
    ++ added (quadrant 2 b) e ++ added (quadrant 3 b) e = [e].
Proof.
  intros Hin. apply contains_true in Hin.
  destruct (quadrant_partition _ _ _ Hin) as (k & Hk & Hq & Huniq).
  assert (Hj : ∀ j, (j < 4)%nat →
                 entry_in (quadrant j b) e = bool_decide (j = k)).
  { intros j Hj. case_bool_decide as Hjk.
    - subst j. by apply contains_true.
    - apply contains_false. intros Hc. by apply Huniq in Hc. }
  unfold added. rewrite !Hj by lia.
  destruct k as [|[|[|[|k]]]]; try lia; done.
Qed.

Lemma List_filter_Permutation {A} (f : A → bool) (l l' : list A) :
  l ≡ₚ l' → List.filter f l ≡ₚ List.filter f l'.
Proof.
  induction 1 as [|x l l' _ IH|x y l|l l' l'' _ IH1 _ IH2]; cbn.
  - done.
  - destruct (f x); by rewrite IH.
  - destruct (f x), (f y); try done. apply perm_swap.
  - by etrans.
Qed.

Lemma List_filter_all {A} (f : A → bool) (l : list A) :
  Forall (λ a, f a = true) l → List.filter f l = l.
Proof. induction 1 as [|a l Ha _ IH]; cbn; [done|]. by rewrite Ha, IH. Qed.

Lemma List_filter_elem_of {A} (f : A → bool) (l : list A) a :
  a ∈ List.filter f l ↔ a ∈ l ∧ f a = true.
Proof. rewrite !list_elem_of_In. apply filter_In. Qed.

Lemma List_filter_NoDup {A} (f : A → bool) (l : list A) :
  NoDup l → NoDup (List.filter f l).
Proof.
  induction 1 as [|a l Ha _ IH]; cbn; [constructor|].
  destruct (f a); [|done]. constructor; [|done].
  rewrite List_filter_elem_of. tauto.
Qed.

Lemma insert_wf t e : qt_wf t → qt_wf (insert t e).
Proof.
  induction t as [b l o|b l o c0 IH0 c1 IH1 c2 IH2 c3 IH3]; cbn [qt_wf].
  - intros Ho. rewrite insert_Leaf.
    destruct (entry_in b e) eqn:Hin; cbn [negb]; [|done].
    destruct (stores_locally l o).
    + cbn. apply Forall_app. split; [done|]. by constructor.
    + unfold child0, child1, child2, child3, subdivide, QuadTree_new. cbn -[insert].
      rewrite !insert_empty_leaf. cbn.
      repeat split; try done; apply added_Forall.
  - intros (Ho & (Hb0 & Hb1 & Hb2 & Hb3) & Hw0 & Hw1 & Hw2 & Hw3).
    rewrite insert_Quad.
    destruct (entry_in b e) eqn:Hin; cbn [negb]; [|done].
    destruct (stores_locally l o); cbn [qt_wf].
    + split; [|done]. apply Forall_app. split; [done|]. by constructor.
    + rewrite !insert_bounds. auto 10.
Qed.

Lemma insert_all t e :
  qt_wf t → qt_all (insert t e) ≡ₚ qt_all t ++ added (qt_bounds t) e.
Proof.
  induction t as [b l o|b l o c0 IH0 c1 IH1 c2 IH2 c3 IH3]; cbn [qt_wf qt_bounds].
  - intros _. rewrite insert_Leaf. unfold added at 1.
    destruct (entry_in b e) eqn:Hin; cbn [negb]; [|by rewrite app_nil_r].
    destruct (stores_locally l o); [done|].
    unfold child0, child1, child2, child3, subdivide, QuadTree_new.
    cbn -[insert]. rewrite !insert_empty_leaf. cbn [qt_all].
    pose proof (added_quadrants b e Hin) as Hq. unfold quadrant in Hq.
    cbn in Hq. by rewrite Hq.
  - intros (Ho & (Hb0 & Hb1 & Hb2 & Hb3) & Hw0 & Hw1 & Hw2 & Hw3).
    rewrite insert_Quad. unfold added at 1.
    destruct (entry_in b e) eqn:Hin; cbn [negb]; [|by rewrite app_nil_r].
    destruct (stores_locally l o); cbn [qt_all].
    + solve_Permutation.
    + rewrite IH0, IH1, IH2, IH3 by done.
      rewrite Hb0, Hb1, Hb2, Hb3.
      rewrite <- (added_quadrants b e Hin). solve_Permutation.
Qed.

(** Everything a well-shaped tree holds lies in its bounds. *)
Lemma qt_all_inside t :
  qt_wf t → Forall (λ e, entry_in (qt_bounds t) e = true) (qt_all t).
Proof.
  induction t as [b l o|b l o c0 IH0 c1 IH1 c2 IH2 c3 IH3]; cbn [qt_wf qt_bounds qt_all].
  - done.
  - intros (Ho & (Hb0 & Hb1 & Hb2 & Hb3) & Hw0 & Hw1 & Hw2 & Hw3).
    specialize (IH0 Hw0). specialize (IH1 Hw1).
    specialize (IH2 Hw2). specialize (IH3 Hw3).
    rewrite Hb0 in IH0. rewrite Hb1 in IH1. rewrite Hb2 in IH2. rewrite Hb3 in IH3.
    repeat (apply Forall_app; split); [done|..];
      (eapply Forall_impl; [eassumption|]);
      intros e He; apply contains_true; apply contains_true in He;
      by eapply quadrant_inside.
Qed.

Lemma filter_outside b range l :
  Forall (λ e, entry_in b e = true) l → intersects b range = false →
  List.filter (entry_in range) l = [].
Proof.
  intros Hl Hno. induction Hl as [|e l He _ IH]; cbn; [done|].
  destruct (entry_in range e) eqn:Hr; [|done].
  apply contains_true in He, Hr.
  by rewrite (inside_intersects _ _ _ _ He Hr) in Hno.
Qed.

(** [query] appends exactly the stored entries that lie in the range. *)
Lemma query_filter t range :
  qt_wf t → ∀ found,
  query t range found = found ++ List.filter (entry_in range) (qt_all t).
Proof.
  intros Hwf. pose proof (qt_all_inside t Hwf) as Hall. revert Hwf Hall.
  induction t as [b l o|b l o c0 IH0 c1 IH1 c2 IH2 c3 IH3];
    cbn [qt_wf qt_bounds]; intros Hwf Hall found; cbn [query].
  - destruct (intersects b range) eqn:Hi; cbn [negb]; [done|].
    by rewrite (filter_outside _ _ _ Hall Hi), app_nil_r.
  - destruct (intersects b range) eqn:Hi; cbn [negb].
    + destruct Hwf as (Ho & (Hb0 & Hb1 & Hb2 & Hb3) & Hw0 & Hw1 & Hw2 & Hw3).
      rewrite IH3, IH2, IH1, IH0 by auto using qt_all_inside.
      cbn [qt_all]. rewrite !List.filter_app, <- !app_assoc. done.
    + by rewrite (filter_outside _ _ _ Hall Hi), app_nil_r.
Qed.

(** A run of insertions keeps the shape and adds the entries that lie in
    the bounds of the tree. *)
Lemma fold_insert_all es t :
  qt_wf t →
  qt_wf (fold_left insert es t)
  ∧ qt_bounds (fold_left insert es t) = qt_bounds t
  ∧ qt_all (fold_left insert es t)
      ≡ₚ qt_all t ++ List.filter (entry_in (qt_bounds t)) es.
Proof.
  revert t. induction es as [|e es IH]; intros t Hwf; cbn [fold_left].
  - cbn. by rewrite app_nil_r.
  - destruct (IH (insert t e) (insert_wf _ _ Hwf)) as (Hw & Hb & Hp).
    split; [done|]. rewrite Hb, insert_bounds. split; [done|].
    rewrite Hp, insert_bounds, insert_all by done. cbn [List.filter].
    unfold added. destruct (entry_in (qt_bounds t) e); cbn.
    + by rewrite <- app_assoc.
    + by rewrite app_nil_r.
Qed.

Lemma clear_wf t : qt_wf (clear t).
Proof. by constructor. Qed.

(** C2. For entries whose points lie in the root bounds, inserted in any
    order into the cleared quadtree, [query] returns exactly the entries
    whose point satisfies the half-open containment test of the range:
    the result is a permutation of the matching entries (so each matching
    entry occurs as often as it was inserted, once for a set), it has no
    other element, and it is duplicate-free when the entries are. *)
Theorem C2_query_returns_exactly_contained (root : QuadTree)
  (es : list QTEntry) (range : Rect) :
  Forall (λ e, contains (qt_bounds root) (ex e) (ey e) = true) es →
  let found := query (fold_left insert es (clear root)) range [] in
  found ≡ₚ List.filter (λ e, contains range (ex e) (ey e)) es
  ∧ (∀ e, e ∈ found ↔ e ∈ es ∧ contains range (ex e) (ey e) = true)
  ∧ (NoDup es → NoDup found).
Proof.
  intros Hes found.
  destruct (fold_insert_all es (clear root) (clear_wf root)) as (Hw & Hb & Hp).
  assert (Hperm : found ≡ₚ List.filter (entry_in range) es).
  { unfold found. rewrite (query_filter _ range Hw []). cbn [app].
    apply List_filter_Permutation. rewrite Hp. cbn.
    by rewrite List_filter_all. }
  split; [exact Hperm|]. split.
  - intros e. rewrite Hperm. apply (List_filter_elem_of (entry_in range)).
  - intros Hnd. rewrite Hperm. by apply List_filter_NoDup.
Qed.

Lemma C2_witness :
  let es := [mkEntry 0 10 10; mkEntry 1 3000 10; mkEntry 2 1990 1990] in
  let found :=
    query (fold_left insert es
             (clear (QuadTree_new (mkRect 0 0 MAP_WIDTH MAP_HEIGHT) 0)))
      (mkRect 0 0 2000 2000) [] in
  found ≡ₚ List.filter (λ e, contains (mkRect 0 0 2000 2000) (ex e) (ey e)) es
  ∧ (∀ e, e ∈ found ↔ e ∈ es
          ∧ contains (mkRect 0 0 2000 2000) (ex e) (ey e) = true)
  ∧ (NoDup es → NoDup found).
Proof.
  apply (C2_query_returns_exactly_contained
           (QuadTree_new (mkRect 0 0 MAP_WIDTH MAP_HEIGHT) 0)).
  repeat constructor.
Defined.

(** ** Loops *)



Section Invariants.
Context `{libm : Libm} `{mt : Mt19937}.

(** ** The invariant *)





Lemma owned_filter players boids (f : Boid → bool) :
  owned players boids → owned players (List.filter f boids).
Proof.
  unfold owned. rewrite !Forall_fmap. rewrite !Forall_forall.
  intros Hb b Hin. apply Hb. apply list_elem_of_In.
  apply list_elem_of_In, filter_In in Hin. tauto.
Qed.

(** ** Lifecycle and input API *)






(** ** Phases of [tick] that leave players and boids alone *)

Lemma spawnResources_frame s :
  players_ (spawnResources s) = players_ s
  ∧ boids_ (spawnResources s) = boids_ s
  ∧ pickups_ (spawnResources s) = pickups_ s
  ∧ pickupSpawnAccum_ (spawnResources s) = pickupSpawnAccum_ s
  ∧ resourceSpawnAccum_ (spawnResources s) = resourceSpawnAccum_ s.
Proof.
  unfold spawnResources. destruct (_ >=? _); [done|]. cbn.
  destruct (randomPosition _) as [pos g].
  destruct (uniform_int _ _ g) as [value g1].
  destruct (uniform_int _ _ g1) as [type g2]. done.
Qed.

Lemma spawn_accrued_frame s :
  players_ (spawn_accrued s) = players_ s
  ∧ boids_ (spawn_accrued s) = boids_ s
  ∧ pickups_ (spawn_accrued s) = pickups_ s
  ∧ pickupSpawnAccum_ (spawn_accrued s) = pickupSpawnAccum_ s.
Proof.
  funelim (spawn_accrued s); [|done].
  match goal with IH : _ ∧ _ |- _ => destruct IH as (-> & -> & -> & ->) end.
  cbn. destruct (spawnResources_frame s) as (-> & -> & -> & -> & _). done.
Qed.


(** ** Steps 0, 1 and 11: the loops over [players_] *)








(** ** Step 5: flocking keeps every boid's owner *)





(** ** Step 8: resource collection *)

Lemma apply_mutation_cases type boost m :
  apply_mutation type boost m = m
  ∨ (type = 0 ∧ apply_mutation type boost m =
       mkMutations (Mutations_speed m + boost) (Mutations_cohesion m)
         (Mutations_aggression m) (Mutations_collectRange m))
  ∨ (type = 1 ∧ apply_mutation type boost m =
       mkMutations (Mutations_speed m) (Mutations_cohesion m + boost)
         (Mutations_aggression m) (Mutations_collectRange m))
  ∨ (type = 2 ∧ apply_mutation type boost m =
       mkMutations (Mutations_speed m) (Mutations_cohesion m)
         (Mutations_aggression m + boost) (Mutations_collectRange m))
  ∨ (type = 3 ∧ apply_mutation type boost m =
       mkMutations (Mutations_speed m) (Mutations_cohesion m)
         (Mutations_aggression m) (Mutations_collectRange m + boost)).
Proof.
  unfold apply_mutation.
  repeat match goal with
         | |- context [?a =? ?b] => destruct (Z.eqb_spec a b)
         end; subst; auto 10.
Qed.




(** ** Step 9: pickup collection *)







(** ** Step 10: combat only removes boids *)



(** ** The whole tick and every reachable state *)


Lemma prespawn_frame n s :
  players_ (prespawn n s) = players_ s ∧ boids_ (prespawn n s) = boids_ s.
Proof.
  revert s. induction n as [|n IH]; intros s; cbn; [done|].
  destruct (IH (with_resourceSpawnAccum 0 (spawnResources s))) as [-> ->].
  cbn. destruct (spawnResources_frame s) as (-> & -> & _). done.
Qed.



End Invariants.

(** ** Query results come from the tree *)

Lemma query_Forall (P : QTEntry → Prop) t range found :
  Forall P found → Forall P (qt_all t) → Forall P (query t range found).
Proof.
  revert found.
  induction t as [b l o|b l o c0 IH0 c1 IH1 c2 IH2 c3 IH3];
    intros found Hf Ht; cbn [query qt_all] in *.
  - destruct (negb _); [done|]. apply Forall_app. split; [done|].
    rewrite Forall_forall in *. intros e He. apply Ht.
    apply list_elem_of_In, filter_In in He. apply list_elem_of_In. tauto.
  - destruct (negb _); [done|].
    rewrite !Forall_app in Ht. destruct Ht as (Ho & H0 & H1 & H2 & H3).
    apply IH3, H3. apply IH2, H2. apply IH1, H1. apply IH0, H0.
    apply Forall_app. split; [done|].
    rewrite Forall_forall in *. intros e He. apply Ho.
    apply list_elem_of_In, filter_In in He. apply list_elem_of_In. tauto.
Qed.

(** ** Total loops *)

Lemma for_range_total {St} (P : St → Prop) (body : nat → St → option St)
  (from count : nat) (s : St) :
  (∀ i s, (from ≤ i < from + count)%nat → P s →
          ∃ s', body i s = Some s' ∧ P s') →
  P s → ∃ s', for_range body from count s = Some s' ∧ P s'.
Proof.
  revert from s. induction count as [|c IH]; intros from s Hbody Hs; cbn.
  - eauto.
  - destruct (Hbody from s) as (s1 & -> & Hs1); [lia|done|]. cbn.
    apply IH; [|done]. intros i s2 Hi. apply Hbody. lia.
Qed.

(** ** Sorting and deduplicating the marked indices *)

Lemma unique_subset v x : x ∈ unique v → x ∈ v.
Proof.
  induction v as [|a [|b rest] IH]; cbn [unique]; [done..|].
  destruct (a =? b).
  - intros Hx. right. by apply IH.
  - rewrite !elem_of_cons. intros [->|Hx]; [by left|].
    right. apply elem_of_cons. by apply IH.
Qed.

Lemma unique_head_le v a x :
  StronglySorted Z.le (a :: v) → x ∈ unique (a :: v) → a ≤ x.
Proof.
  intros Hs Hx. apply unique_subset in Hx.
  apply StronglySorted_inv in Hs as [_ Hall].
  apply elem_of_cons in Hx as [->|Hx]; [lia|].
  rewrite Forall_forall in Hall. by apply Hall.
Qed.

Lemma unique_sorted v : StronglySorted Z.le v → StronglySorted Z.lt (unique v).
Proof.
  induction v as [|a [|b rest] IH]; cbn [unique]; intros Hs.
  - constructor.
  - by repeat constructor.
  - pose proof Hs as Hs0.
    apply StronglySorted_inv in Hs as [Hs Hall].
    destruct (Z.eqb_spec a b) as [->|Hne]; [by apply IH|].
    constructor; [by apply IH|].
    apply Forall_forall. intros x Hx.
    pose proof (unique_head_le _ _ _ Hs Hx).
    apply Forall_inv in Hall. lia.
Qed.

Lemma sort_unique_sorted v : StronglySorted Z.lt (sort_unique v).
Proof. apply unique_sorted, StronglySorted_merge_sort; apply _. Qed.

Lemma sort_unique_subset v x : x ∈ sort_unique v → x ∈ v.
Proof.
  intros Hx. apply unique_subset in Hx. by rewrite merge_sort_Permutation in Hx.
Qed.

(** ** Removing the marked indices, last first *)

Lemma remove_marked_cons x marks (boids : list Boid) :
  remove_marked (x :: marks) boids =
  let bs := remove_marked marks boids in
  if x <? Z.of_nat (length bs) then vec_erase bs x else bs.
Proof. unfold remove_marked. by rewrite reverse_cons, foldl_app. Qed.

(** Positions below every marked index are not touched. *)
Lemma remove_marked_prefix marks boids (j : nat) :
  Forall (λ idx, Z.of_nat j < idx) marks →
  remove_marked marks boids !! j = boids !! j.
Proof.
  induction marks as [|x marks IH]; intros Hall; [done|].
  apply Forall_cons in Hall as [Hx Hall].
  rewrite remove_marked_cons. cbn zeta.
  destruct (_ <? _); [|by apply IH].
  unfold vec_erase. rewrite list_lookup_delete_lt by lia. by apply IH.
Qed.

Lemma filter_delete {A} (f : A → bool) (l : list A) i a :
  l !! i = Some a → f a = false →
  List.filter f (delete i l) = List.filter f l.
Proof.
  revert i. induction l as [|b l IH]; intros [|i] Hi Ha; try done.
  - cbn in Hi. injection Hi as ->. cbn. by rewrite Ha.
  - change (delete (S i) (b :: l)) with (b :: delete i l).
    cbn [List.filter]. by rewrite (IH i Hi Ha).
Qed.

(** Removing indices whose boids fail [f] keeps the boids that pass it. *)
Lemma remove_marked_filter (f : Boid → bool) marks boids :
  StronglySorted Z.lt marks →
  Forall (λ idx, ∃ b, vec_at boids idx = Some b ∧ f b = false) marks →
  List.filter f (remove_marked marks boids) = List.filter f boids.
Proof.
  induction marks as [|x marks IH]; intros Hs Hall; [done|].
  apply StronglySorted_inv in Hs as [Hs Hlt].
  apply Forall_cons in Hall as [(b & Hb & Hfb) Hall].
  rewrite remove_marked_cons. cbn zeta.
  destruct (_ <? _); [|by apply IH].
  unfold vec_at in Hb. destruct (x <? 0) eqn:Hneg; [done|].
  apply Z.ltb_ge in Hneg.
  unfold vec_erase. rewrite (filter_delete f _ _ b); [by apply IH| |done].
  rewrite remove_marked_prefix; [done|].
  eapply Forall_impl; [exact Hlt|]. intros y Hy. cbn in Hy. lia.
Qed.

Section Combat_resolution.
Context `{libm : Libm} `{mt : Mt19937}.

(** ** The scan of [handleCombat] *)

Lemma combat_verdict_mine myCount otherCount myShield otherShield :
  combat_verdict myCount otherCount myShield otherShield = RemoveMine →
  myCount < otherCount ∧ myShield = false.
Proof.
  unfold combat_verdict.
  destruct (myCount <? otherCount) eqn:E1, myShield; cbn;
    try (destruct (_ && _); discriminate).
  intros _. apply Z.ltb_lt in E1. done.
Qed.

Lemma combat_verdict_other myCount otherCount myShield otherShield :
  combat_verdict myCount otherCount myShield otherShield = RemoveOther →
  otherCount < myCount ∧ otherShield = false.
Proof.
  unfold combat_verdict. destruct (_ && _); [done|].
  destruct (otherCount <? myCount) eqn:E1, otherShield; cbn; try done.
  intros _. apply Z.ltb_lt in E1. done.
Qed.


Lemma vec_at_valid {A} (v : list A) i :
  0 ≤ i < Z.of_nat (length v) → ∃ a, vec_at v i = Some a.
Proof.
  intros Hi. unfold vec_at. destruct (i <? 0) eqn:E; [lia|].
  apply lookup_lt_is_Some. lia.
Qed.

Lemma combat_scan_total players boids i me nearby st :
  vec_at boids i = Some me →
  Forall (entry_valid boids) nearby →
  Forall (unshielded_mark players boids) st.1 →
  ∃ st', combat_scan players boids i me nearby st = Some st'
         ∧ Forall (unshielded_mark players boids) st'.1.
Proof.
  intros Hme. revert st.
  induction nearby as [|ne rest IH]; intros st Hval Hst; cbn; [eauto|].
  apply Forall_cons in Hval as [Hne Hval].
  destruct (boidIndex ne =? i); [by apply IH|].
  destruct (vec_at_valid boids _ Hne) as [other Hother]. rewrite Hother. cbn.
  destruct (_ =? _); [by apply IH|].
  destruct (flt _ _); [|by apply IH].
  destruct st as [toRemove counts].
  destruct (combat_verdict _ _ _ _) eqn:Hv.
  - apply combat_verdict_mine in Hv as [_ Hsh].
    eexists. split; [done|]. cbn. apply Forall_app. split; [done|].
    repeat constructor. by exists me.
  - apply combat_verdict_other in Hv as [_ Hsh].
    apply IH; [done|]. cbn. apply Forall_app. split; [done|].
    repeat constructor. by exists other.
  - by apply IH.
Qed.

Lemma combat_marks_total s :
  Forall (entry_valid (boids_ s)) (qt_all (quadTree_ s)) →
  ∃ marks, combat_marks s = Some marks
           ∧ Forall (unshielded_mark (players_ s) (boids_ s)) marks.
Proof.
  intros Hval. unfold combat_marks.
  destruct (for_range_total
              (λ st, Forall (unshielded_mark (players_ s) (boids_ s)) st.1)
              (combat_body (players_ s) (quadTree_ s) (boids_ s))
              0 (length (boids_ s)) ([], count_per_player (boids_ s)))
    as (st & -> & Hst); [|by constructor|by exists st.1].
  intros i st Hi Hst. unfold combat_body.
  destruct (lookup_lt_is_Some_2 (boids_ s) i) as [me Hme]; [lia|].
  rewrite Hme. cbn. apply combat_scan_total; [|by apply query_Forall|done].
  unfold vec_at. destruct (Z.of_nat i <? 0) eqn:E; [lia|].
  by rewrite Nat2Z.id.
Qed.


End Combat_resolution.

(** ** The shield scenario: one shielded boid next to ten unshielded ones *)


(** In the scenario every encounter is between a swarm of ten and the lone
    shielded boid, and combat removes nothing. *)
Example shield_scenario_keeps_all :
  boids_ <$> handleCombat shield_scenario = Some (lone_boid :: swarm_boids).
Proof. vm_compute. reflexivity. Qed.

(** ** The index right after a build *)

Lemma insert_Forall (P : QTEntry → Prop) t e :
  qt_wf t → Forall P (qt_all t) → P e → Forall P (qt_all (insert t e)).
Proof.
  intros Hwf Ht He. rewrite (insert_all t e Hwf).
  apply Forall_app. split; [done|].
  unfold added. destruct (entry_in _ _); by repeat constructor.
Qed.

Lemma build_entries_valid boids i t n :
  qt_wf t → 0 ≤ i → i + Z.of_nat (length boids) ≤ n →
  Forall (λ e, 0 ≤ boidIndex e < n) (qt_all t) →
  Forall (λ e, 0 ≤ boidIndex e < n) (qt_all (build_entries i boids t)).
Proof.
  revert i t. induction boids as [|b boids IH]; intros i t Hwf Hi Hn Ht; cbn.
  - done.
  - cbn in Hn. apply IH; [by apply insert_wf|lia|lia|].
    apply insert_Forall; [done|done|]. cbn. lia.
Qed.

Section Totality.
Context `{libm : Libm} `{mt : Mt19937}.

Lemma buildQuadTree_index_valid s : index_valid (buildQuadTree s).
Proof.
  unfold index_valid, buildQuadTree. cbn.
  apply build_entries_valid; [apply clear_wf|lia|lia|constructor].
Qed.

Lemma entry_valid_mono boids boids' e :
  (length boids ≤ length boids')%nat →
  entry_valid boids e → entry_valid boids' e.
Proof. unfold entry_valid. lia. Qed.

Lemma index_valid_mono s s' :
  quadTree_ s' = quadTree_ s → (length (boids_ s) ≤ length (boids_ s'))%nat →
  index_valid s → index_valid s'.
Proof.
  unfold index_valid. intros -> Hlen Hs.
  eapply Forall_impl; [exact Hs|]. intros e. by apply entry_valid_mono.
Qed.

(** ** Step 5 *)

Lemma flock_scan_total boids i boid mut r nearby a :
  Forall (entry_valid boids) nearby →
  closestEnemyIdx a = -1 ∨ 0 ≤ closestEnemyIdx a < Z.of_nat (length boids) →
  ∃ a', flock_scan boids i boid mut r nearby a = Some a'
        ∧ (closestEnemyIdx a' = -1
           ∨ 0 ≤ closestEnemyIdx a' < Z.of_nat (length boids)).
Proof.
  revert a. induction nearby as [|ne rest IH]; intros a Hval Ha; cbn; [eauto|].
  apply Forall_cons in Hval as [Hne Hval].
  unfold flock_neighbour.
  destruct (boidIndex ne =? i); cbn; [by apply IH|].
  destruct (vec_at_valid boids _ Hne) as [other ->]. cbn.
  destruct (_ =? _).
  - destruct (if flt _ ALIGNMENT_RADIUS then _ else _) as [ali ac].
    destruct (if flt _ r then _ else _) as [coh cc]. cbn. by apply IH.
  - destruct (_ && _); cbn; apply IH; try done. right. apply Hne.
Qed.

Lemma boid_rules_body_total players qt i boids :
  (i < length boids)%nat →
  Forall (entry_valid boids) (qt_all qt) →
  ∃ boids', boid_rules_body players qt i boids = Some boids'
            ∧ length boids' = length boids.
Proof.
  intros Hi Hval. unfold boid_rules_body.
  destruct (lookup_lt_is_Some_2 boids i Hi) as [boid ->]. cbn.
  destruct (players !! Boid_playerId boid) as [player|]; [|eauto].
  match goal with
  | |- context [flock_scan boids ?j boid ?m ?r ?nb Flock_init] =>
      destruct (flock_scan_total boids j boid m r nb Flock_init)
        as (a & -> & Ha); [by apply query_Forall|by left|]
  end.
  cbn. destruct (Z.geb_spec (closestEnemyIdx a) 0) as [Hge|Hlt].
  - destruct Ha as [Ha|Ha]; [lia|].
    destruct (vec_at_valid boids _ Ha) as [enemy ->]. cbn.
    eexists. split; [done|]. by rewrite length_insert.
  - cbn. eexists. split; [done|]. by rewrite length_insert.
Qed.

Lemma applyBoidRules_total s :
  index_valid s →
  ∃ s', applyBoidRules s = Some s'
        ∧ quadTree_ s' = quadTree_ s ∧ pickups_ s' = pickups_ s
        ∧ length (boids_ s') = length (boids_ s).
Proof.
  intros Hval. unfold applyBoidRules.
  destruct (for_range_total
              (λ bs, length bs = length (boids_ s))
              (boid_rules_body (players_ s) (quadTree_ s))
              0 (length (boids_ s)) (boids_ s))
    as (boids & -> & Hlen); [|done|cbn; eauto].
  intros i bs Hi Hbs.
  destruct (boid_rules_body_total (players_ s) (quadTree_ s) i bs)
    as (bs' & -> & Hlen'); [lia| |].
  - eapply Forall_impl; [exact Hval|]. intros e.
    apply entry_valid_mono. lia.
  - eexists. split; [done|]. lia.
Qed.

(** ** Steps 8 and 9 *)

Lemma for_each_mut_total {St A} (P : St → Prop) (Q : A → Prop)
  (body : St → A → option (St * A)) (v : list A) (s : St) :
  (∀ s a, P s → Q a → ∃ s' a', body s a = Some (s', a') ∧ P s') →
  P s → Forall Q v →
  ∃ s' v', for_each_mut body s v = Some (s', v') ∧ P s'.
Proof.
  intros Hbody. revert s. induction v as [|a v IH]; intros s Hs Hv; cbn.
  - eauto.
  - apply Forall_cons in Hv as [Ha Hv].
    destruct (Hbody s a Hs Ha) as (s1 & a1 & -> & Hs1). cbn.
    destruct (IH s1 Hs1 Hv) as (s2 & v2 & -> & Hs2). cbn. eauto.
Qed.

Lemma consume_resource_collecting s0 s res b p :
  collecting s0 s → collecting s0 (consume_resource s res b p).
Proof.
  intros (Hq & Hk & Hval). unfold consume_resource.
  destruct (_ && _); cbn.
  - split; [done|]. split; [done|].
    eapply index_valid_mono; [| |exact Hval]; cbn; [done|].
    rewrite length_app. lia.
  - split; [done|]. split; [done|]. exact Hval.
Qed.

Lemma collect_resource_scan_total s0 nearby s res :
  collecting s0 s → Forall (entry_valid (boids_ s)) nearby →
  ∃ s' res', collect_resource_scan s res nearby = Some (s', res')
             ∧ collecting s0 s'.
Proof.
  intros Hs Hval. induction Hval as [|ne rest Hne _ IH]; cbn; [eauto|].
  destruct (vec_at_valid (boids_ s) _ Hne) as [b ->]. cbn.
  destruct (players_ s !! Boid_playerId b) as [p|]; [|done].
  destruct (flt _ _); [|done].
  eexists _, _. split; [done|]. by apply consume_resource_collecting.
Qed.

Lemma collectResources_total s :
  index_valid s →
  ∃ s', collectResources s = Some s' ∧ collecting s s'.
Proof.
  intros Hval. unfold collectResources.
  destruct (for_each_mut_total (collecting s) (λ _, True) collect_resource
              (resources_ s) s) as (s1 & rs & -> & Hs1).
  - intros s2 res Hs2 _. unfold collect_resource.
    destruct (negb _); [eauto|].
    apply collect_resource_scan_total; [done|].
    destruct Hs2 as (_ & _ & Hv). by apply query_Forall.
  - done.
  - by apply Forall_true.
  - cbn. eexists. split; [done|]. exact Hs1.
Qed.

(** Every effect but the mass spawn and the mine has a result and keeps
    the index valid. *)
Lemma pickup_effect_total s0 s pickup b p :
  collecting s0 s → Pickup_type pickup ≠ 1 → Pickup_type pickup ≠ 7 →
  ∃ s', pickup_effect s pickup b p = Some s' ∧ collecting s0 s'.
Proof.
  intros Hs Hty1 Hty7. pose proof Hs as (Hq & Hk & Hval). unfold pickup_effect.
  repeat match goal with
         | |- context [Pickup_type pickup =? ?n] =>
             destruct (Z.eqb_spec (Pickup_type pickup) n)
         end; try done; try (eexists; split; [done|]; by repeat split).
  eexists. split; [done|]. split; [done|]. split; [done|].
  eapply index_valid_mono; [| |exact Hval]; cbn; [done|].
  by rewrite length_map.
Qed.

Lemma collect_pickup_scan_total s0 nearby s pickup :
  collecting s0 s → Pickup_type pickup ≠ 1 → Pickup_type pickup ≠ 7 →
  Forall (entry_valid (boids_ s)) nearby →
  ∃ s' pickup', collect_pickup_scan s pickup nearby = Some (s', pickup')
                ∧ collecting s0 s'.
Proof.
  intros Hs Hty1 Hty7 Hval.
  induction Hval as [|ne rest Hne _ IH]; cbn; [eauto|].
  destruct (vec_at_valid (boids_ s) _ Hne) as [b ->]. cbn.
  destruct (fge _ _); [done|].
  destruct (players_ s !! Boid_playerId b) as [p|]; [|done].
  destruct (pickup_effect_total s0 s pickup b p Hs Hty1 Hty7)
    as (s1 & -> & Hs1).
  cbn. eauto.
Qed.

Lemma collectPickups_total s :
  index_valid s →
  Forall (λ k, Pickup_type k ≠ 1 ∧ Pickup_type k ≠ 7) (pickups_ s) →
  ∃ s', collectPickups s = Some s' ∧ index_valid s'.
Proof.
  intros Hval Hty. unfold collectPickups.
  destruct (for_each_mut_total (collecting s)
              (λ k, Pickup_type k ≠ 1 ∧ Pickup_type k ≠ 7)
              collect_pickup (pickups_ s) s) as (s1 & ks & -> & Hs1).
  - intros s2 k Hs2 [Hk1 Hk7]. unfold collect_pickup.
    destruct (negb _); [eauto|].
    apply collect_pickup_scan_total; [done|done|done|].
    destruct Hs2 as (_ & _ & Hv). by apply query_Forall.
  - done.
  - done.
  - cbn. eexists. split; [done|]. by destruct Hs1 as (_ & _ & Hv).
Qed.

(** ** The whole tick *)

Lemma spawnPickups_not_due s :
  (pickupSpawnAccum_ s + 1 < PICKUP_SPAWN_INTERVAL)%Q →
  pickups_ (spawnPickups s) = pickups_ s.
Proof.
  intros Hacc. unfold spawnPickups. destruct (_ >=? _); [done|].
  cbn [pickupSpawnAccum_ with_pickupSpawnAccum].
  fcase (flt (pickupSpawnAccum_ s + 1) PICKUP_SPAWN_INTERVAL); [done|lra].
Qed.

(** A tick that starts with no mass spawn (type 1) and no mine (type 7)
    among the pickups, and in which no pickup is spawned, has a defined
    result: the index is valid in every phase that reads it, and no phase
    reads a boid through a reference after a [push_back]. *)
Theorem tick_defined_without_spawn_and_mine (s : GameEngine) :
  Forall (λ k, Pickup_type k ≠ 1 ∧ Pickup_type k ≠ 7) (pickups_ s) →
  (pickupSpawnAccum_ s + 1 < PICKUP_SPAWN_INTERVAL)%Q →
  ∃ s', tick s = Some s'.
Proof.
  intros Hty Hacc. unfold tick.
  set (s0 := spawn_accrued _).
  assert (Hk0 : pickups_ s0 = pickups_ s
                ∧ pickupSpawnAccum_ s0 = pickupSpawnAccum_ s).
  { subst s0.
    match goal with |- context [spawn_accrued ?x] =>
      destruct (spawn_accrued_frame x) as (_ & _ & -> & ->) end. done. }
  destruct Hk0 as [Hk0 Ha0].
  assert (Hk1 : pickups_ (spawnPickups s0) = pickups_ s).
  { rewrite spawnPickups_not_due; [done|]. by rewrite Ha0. }
  clearbody s0. set (s1 := spawnPickups s0) in *. clearbody s1.
  destruct (applyBoidRules_total (buildQuadTree s1)
              (buildQuadTree_index_valid s1)) as (s2 & -> & _ & Hk2 & _).
  cbn -[buildQuadTree clampPositions collectResources collectPickups
        handleCombat].
  destruct (collectResources_total (buildQuadTree (clampPositions s2))
              (buildQuadTree_index_valid _)) as (s3 & -> & _ & Hk3 & Hv3).
  cbn -[collectPickups handleCombat].
  destruct (collectPickups_total s3 Hv3) as (s4 & -> & Hv4).
  { rewrite Hk3. cbn. rewrite Hk2. cbn. by rewrite Hk1. }
  cbn -[handleCombat].
  destruct (combat_marks_total s4 Hv4) as (marks & Hm & _).
  unfold handleCombat. rewrite Hm. cbn. eauto.
Qed.

End Totality.

(** The tick after a player joined the ticked engine has a defined
    result. *)
Lemma tick_defined_witness : ∃ s', tick one_player_engine = Some s'.
Proof.
  apply tick_defined_without_spawn_and_mine; vm_compute;
    [constructor|reflexivity].
Defined.

(** ** Concrete engine states *)



Section Claims_invariants.
Context `{libm : Libm} `{mt : Mt19937}.




End Claims_invariants.




(** ** The pickup spawn step *)

Section Pickup_counter.
Context `{libm : Libm} `{mt : Mt19937}.

(** C3, as the code has it.  With fewer than [MAX_PICKUPS] active pickups
    the counter goes up by one, and on reaching [PICKUP_SPAWN_INTERVAL] it
    is reset to zero and one active pickup is appended.  With the cap
    reached the step returns at once: the state, counter included, is
    unchanged.  In both cases a counter below the interval stays below
    it. *)
Theorem C3_pickup_counter_below_cap (s : GameEngine) :
  let n := count_active Pickup_active (pickups_ s) in
  let c := (pickupSpawnAccum_ s + 1)%Q in
  (MAX_PICKUPS ≤ n → spawnPickups s = s)
  ∧ (n < MAX_PICKUPS → (c < PICKUP_SPAWN_INTERVAL)%Q →
     pickupSpawnAccum_ (spawnPickups s) = c
     ∧ pickups_ (spawnPickups s) = pickups_ s)
  ∧ (n < MAX_PICKUPS → (PICKUP_SPAWN_INTERVAL <= c)%Q →
     pickupSpawnAccum_ (spawnPickups s) = 0%Q
     ∧ ∃ p, pickups_ (spawnPickups s) = pickups_ s ++ [p]
            ∧ Pickup_active p = true)
  ∧ ((pickupSpawnAccum_ s < PICKUP_SPAWN_INTERVAL)%Q →
     (pickupSpawnAccum_ (spawnPickups s) < PICKUP_SPAWN_INTERVAL)%Q).
Proof.
  intros n c. unfold spawnPickups. fold n.
  destruct (Z.geb_spec n MAX_PICKUPS) as [Hcap|Hcap].
  - split; [done|]. split; [lia|]. split; [lia|]. done.
  - cbn [pickupSpawnAccum_ with_pickupSpawnAccum]. fold c.
    split; [lia|]. fcase (flt c PICKUP_SPAWN_INTERVAL).
    + split; [done|]. split; [intros _ Hc; exfalso; lra|]. done.
    + cbn. destruct (randomPosition _) as [pos g].
      destruct (uniform_int _ _ g) as [type g1]. cbn.
      split; [intros _ Hc; exfalso; lra|].
      split; [eauto|]. intros _. unfold PICKUP_SPAWN_INTERVAL. lra.
Qed.

End Pickup_counter.

(** With twenty active pickups the counter is not incremented: it stays
    at 0, where the rule of the specification gives 1. *)
Lemma C3_counterexample : ¬ counter_rule_of_spec capped_engine.
Proof. vm_compute. discriminate. Qed.

Lemma C3_witness :
  spawnPickups capped_engine = capped_engine
  ∧ pickupSpawnAccum_ (spawnPickups due_engine) = 0%Q
  ∧ (pickupSpawnAccum_ (spawnPickups capped_engine) < PICKUP_SPAWN_INTERVAL)%Q.
Proof.
  destruct (C3_pickup_counter_below_cap capped_engine)
    as (Hcap & _ & _ & Hlt).
  destruct (C3_pickup_counter_below_cap due_engine) as (_ & _ & Hdue & _).
  split; [apply Hcap; vm_compute; discriminate|].
  split; [apply Hdue; vm_compute; [reflexivity|discriminate]|].
  apply Hlt. vm_compute. reflexivity.
Defined.

(** ** The bounds clamp *)

Lemma clamp_boid_axes b :
  axis_clamped MAP_WIDTH (Vec2_x (Boid_pos b)) (Vec2_x (Boid_vel b))
    (Vec2_x (Boid_pos (clamp_boid b))) (Vec2_x (Boid_vel (clamp_boid b)))
  ∧ axis_clamped MAP_HEIGHT (Vec2_y (Boid_pos b)) (Vec2_y (Boid_vel b))
      (Vec2_y (Boid_pos (clamp_boid b))) (Vec2_y (Boid_vel (clamp_boid b)))
  ∧ Boid_id (clamp_boid b) = Boid_id b
  ∧ Boid_playerId (clamp_boid b) = Boid_playerId b.
Proof.
  destruct b as [id pid [x y] [vx vy]]. unfold clamp_boid, axis_clamped.
  cbn -[flt fgt].
  repeat match goal with
         | |- context [if ?c then _ else _] => fcase c; cbn -[flt fgt] in *
         end;
    unfold MAP_WIDTH, MAP_HEIGHT in *;
    repeat split; intros; try done; try lra; exfalso; lra.
Qed.

Section Clamp.
Context `{libm : Libm} `{mt : Mt19937}.

(** C7. The clamp step keeps every boid at its index and, for the boid
    [b] it finds there, leaves a boid [b'] with the same id and owner
    whose position lies in [0, MAP_WIDTH] x [0, MAP_HEIGHT]; on an axis
    where [b] was beyond an edge the position is the edge and the velocity
    component is multiplied by -1/2; on an axis where [b] was within the
    edges position and velocity component are those of [b]. *)
Theorem C7_clamp_positions (s : GameEngine) (i : nat) (b : Boid) :
  boids_ s !! i = Some b →
  length (boids_ (clampPositions s)) = length (boids_ s)
  ∧ ∃ b', boids_ (clampPositions s) !! i = Some b'
      ∧ axis_clamped MAP_WIDTH (Vec2_x (Boid_pos b)) (Vec2_x (Boid_vel b))
          (Vec2_x (Boid_pos b')) (Vec2_x (Boid_vel b'))
      ∧ axis_clamped MAP_HEIGHT (Vec2_y (Boid_pos b)) (Vec2_y (Boid_vel b))
          (Vec2_y (Boid_pos b')) (Vec2_y (Boid_vel b'))
      ∧ Boid_id b' = Boid_id b ∧ Boid_playerId b' = Boid_playerId b.
Proof.
  intros Hb. cbn. split; [by rewrite length_map|].
  exists (clamp_boid b). split; [|apply clamp_boid_axes].
  change (map clamp_boid (boids_ s)) with (clamp_boid <$> boids_ s).
  by rewrite list_lookup_fmap, Hb.
Qed.

End Clamp.

Lemma C7_witness :
  length (boids_ (clampPositions stray_engine)) = length (boids_ stray_engine)
  ∧ ∃ b', boids_ (clampPositions stray_engine) !! 0%nat = Some b'
      ∧ axis_clamped MAP_WIDTH (-(3 # 2)) (-3)
          (Vec2_x (Boid_pos b')) (Vec2_x (Boid_vel b'))
      ∧ axis_clamped MAP_HEIGHT 100 1
          (Vec2_y (Boid_pos b')) (Vec2_y (Boid_vel b'))
      ∧ Boid_id b' = 1 ∧ Boid_playerId b' = 1.
Proof.
  apply (C7_clamp_positions stray_engine 0
           (mkBoid 1 1 (mkVec2 (-(3 # 2)) 100) (mkVec2 (-3) 1))).
  reflexivity.
Defined.

(** ** A mine followed by a second pickup *)

(** C1, on the code.  The mine removes the four boids of player 1, which
    sit at indices 0 to 3, so four boids are left and index 0, under
    which the index filed the boid with id 1, now names the boid with
    id 5; the index is not rebuilt and still holds the entries 4 to 7 for
    the boids of player 2; the query for the next pickup of the same loop
    returns them, and the first one is read out of range.  The whole
    [tick] is undefined from this state. *)
Theorem C1_stale_index_after_mine :
  undefined (collect_pickup mine_engine_indexed mine_pickup) = false
  ∧ length (boids_ mine_engine_indexed) = 8%nat
  ∧ length (boids_ after_mine) = 4%nat
  ∧ Boid_id <$> vec_at (boids_ mine_engine_indexed) 0 = Some 1
  ∧ Boid_id <$> vec_at (boids_ after_mine) 0 = Some 5
  ∧ quadTree_ after_mine = quadTree_ mine_engine_indexed
  ∧ boidIndex <$> query (quadTree_ after_mine) (pickup_queryRect shield_pickup) []
    = [4; 5; 6; 7]
  ∧ vec_at (boids_ after_mine) 4 = None
  ∧ undefined (collect_pickup after_mine shield_pickup) = true
  ∧ undefined (collectPickups mine_engine_indexed) = true
  ∧ undefined (tick mine_engine) = true.
Proof. vm_compute. repeat split; reflexivity. Qed.

(** A rebuilt index would have served the second pickup. *)
Example rebuilt_index_is_valid :
  boidIndex <$> query (quadTree_ (buildQuadTree after_mine))
                  (pickup_queryRect shield_pickup) []
  = [0; 1; 2; 3]
  ∧ snd <$> collect_pickup (buildQuadTree after_mine) shield_pickup
    = Some (Pickup_with_active false shield_pickup).
Proof. vm_compute. split; reflexivity. Qed.

(** ** A collect range beyond the queried square *)

(** C4, on the code.  The boid is within its owner's collect range of the
    resource (120.5 < 40 * 3.02 = 120.8), but its point is outside the
    square of half-width 120 that [collectResources] queries, so the query
    has no candidate and the tick leaves the resource uncollected. *)
Theorem C4_query_misses_boid_in_collect_range :
  let b := mkBoid 1 1 (mkVec2 (1241 # 2) 500) (mkVec2 0 0) in
  let collectRange := (BOID_BASE_COLLECT_RANGE * (151 # 50))%Q in
  flt (lengthSq (Vec2_sub (Boid_pos b) (Resource_pos near_resource)))
      (collectRange * collectRange) = true
  ∧ contains (resource_queryRect near_resource)
      (Vec2_x (Boid_pos b)) (Vec2_y (Boid_pos b)) = false
  ∧ query (quadTree_ (buildQuadTree far_collector))
      (resource_queryRect near_resource) [] = []
  ∧ resources_ <$> collectResources (buildQuadTree far_collector)
    = Some [near_resource]
  ∧ resources_ <$> tick far_collector = Some [near_resource].
Proof. vm_compute. repeat split; reflexivity. Qed.

Example collectRange_passes_three :
  (λ p, Qred (Mutations_collectRange (Player_mutations p)))
    <$> players_ (Nat.iter 101 feed one_boid_engine) !! 1
  = Some (151 # 50).
Proof. vm_compute. reflexivity. Qed.

(** ** Writing into the buffer *)

Lemma writes_memcpy bytes : writes (memcpy_advance bytes) bytes.
Proof.
  intros pre pad post Hlen. unfold memcpy_advance. cbn [buf ptr].
  destruct (Nat.leb_spec (length pre + length bytes)
              (length (pre ++ pad ++ post))) as [_|Hlt].
  - f_equal. f_equal; [|by rewrite length_app].
    rewrite take_app_length, drop_app_add, <- Hlen, drop_app_length.
    by rewrite <- app_assoc.
  - rewrite !length_app in Hlt. lia.
Qed.

Lemma writes_skip : writes Some [].
Proof.
  intros pre pad post Hlen. destruct pad; [|done].
  by rewrite !app_nil_r.
Qed.

Lemma writes_bind f g bs1 bs2 :
  writes f bs1 → writes g bs2 → writes (λ w, w ← f w; g w) (bs1 ++ bs2).
Proof.
  intros Hf Hg pre pad post Hlen. rewrite length_app in Hlen.
  replace (pre ++ pad ++ post)
    with (pre ++ take (length bs1) pad ++ (drop (length bs1) pad ++ post))
    by (by rewrite (app_assoc (take _ _)), take_drop).
  rewrite Hf by (rewrite length_take; lia). cbn.
  rewrite Hg by (rewrite length_drop; lia).
  by rewrite (app_assoc pre bs1 bs2).
Qed.

Lemma writes_ext f g bs : (∀ w, f w = g w) → writes g bs → writes f bs.
Proof. intros Hfg Hg pre pad post Hlen. rewrite Hfg. by apply Hg. Qed.

Lemma writes_each {A} (P : A → Prop) (body : A → Writer → option Writer)
  (enc : A → list Z) (v : list A) :
  (∀ a, P a → writes (body a) (enc a)) → Forall P v →
  writes (write_each body v) (concat (map enc v)).
Proof.
  intros Hbody Hv. induction Hv as [|a v Ha _ IH]; cbn [write_each map concat].
  - apply writes_skip.
  - apply writes_bind; [by apply Hbody|done].
Qed.

(** A loop that has a result had one in each of its iterations. *)
Lemma write_each_defined {A} (body : A → Writer → option Writer) (v : list A)
  (w w' : Writer) :
  write_each body v w = Some w' → Forall (λ a, ∃ w1, is_Some (body a w1)) v.
Proof.
  revert w. induction v as [|a v IH]; intros w; cbn [write_each];
    [constructor|].
  destruct (body a w) as [w1|] eqn:E; cbn; [|done].
  intros Hrest. constructor; [by exists w; rewrite E|by eapply IH].
Qed.

(** ** Conversions *)

Lemma float_to_int_Some v z : float_to_int v = Some z ↔ int_range v ∧ z = ftrunc v.
Proof.
  unfold float_to_int, int_range.
  destruct (Z.leb_spec (- 2 ^ 31) (ftrunc v)), (Z.ltb_spec (ftrunc v) (2 ^ 31));
    cbn; split; try (intros [= <-]; split; [lia|done]); try done;
    intros [Hr ->]; first [done|lia].
Qed.

Lemma float_to_uint16_Some v z :
  float_to_uint16 v = Some z ↔ uint16_range v ∧ z = ftrunc v.
Proof.
  unfold float_to_uint16, uint16_range.
  destruct (Z.leb_spec 0 (ftrunc v)), (Z.ltb_spec (ftrunc v) (2 ^ 16));
    cbn; split; try (intros [= <-]; split; [lia|done]); try done;
    intros [Hr ->]; first [done|lia].
Qed.

(** ** Fields *)

Lemma u16_wrap16 v : u16 (wrap16 v) = u16 v.
Proof.
  unfold u16, wrap16. change (2 ^ 16) with (256 * 256).
  rewrite Z.rem_mul_r by lia.
  assert (0 ≤ v mod 256 < 256) by (apply Z.mod_pos_bound; lia).
  assert (0 ≤ v / 256 mod 256 < 256) by (apply Z.mod_pos_bound; lia).
  f_equal; [|f_equal].
  - rewrite (Z.mul_comm 256), Z.mod_add by lia. apply Z.mod_mod. lia.
  - rewrite (Z.mul_comm 256), Z.div_add by lia.
    rewrite (Z.div_small (v mod 256)) by lia. rewrite Z.add_0_l.
    apply Z.mod_mod. lia.
Qed.

Lemma u8_wrap8 v : u8 (wrap8 v) = u8 v.
Proof. unfold u8, wrap8. f_equal. apply Z.mod_mod. lia. Qed.

Lemma writes_U8 v : writes (writeU8 v) (u8 v).
Proof. apply writes_memcpy. Qed.
Lemma writes_I8 v : writes (writeI8 v) (i8 v).
Proof.
  unfold writeI8. replace (i8 v) with (le_bytes 1 (wrap8 v));
    [apply writes_memcpy|apply u8_wrap8].
Qed.
Lemma writes_U16 v : writes (writeU16 v) (u16 v).
Proof. apply writes_memcpy. Qed.
Lemma writes_U32 v : writes (writeU32 v) (u32 v).
Proof. apply writes_memcpy. Qed.
Lemma writes_F32 `{b32 : Binary32} v : writes (writeF32 v) (f32 v).
Proof. apply writes_memcpy. Qed.

Lemma writes_U16_wrap v : writes (writeU16 (wrap16 v)) (u16 v).
Proof.
  replace (u16 v) with (le_bytes 2 (wrap16 v));
    [apply writes_memcpy|apply u16_wrap16].
Qed.
Lemma writes_U8_wrap v : writes (writeU8 (wrap8 v)) (u8 v).
Proof.
  replace (u8 v) with (le_bytes 1 (wrap8 v));
    [apply writes_memcpy|apply u8_wrap8].
Qed.

(** Truncation toward zero. *)

Lemma ftrunc_nonneg q : (0 <= q)%Q → ftrunc q = Qfloor q ∧ 0 ≤ ftrunc q.
Proof.
  destruct q as [n d]. unfold Qle, ftrunc, Qfloor. cbn. intros Hn.
  rewrite Z.mul_1_r in Hn.
  rewrite Z.quot_div_nonneg by lia. split; [done|].
  apply Z.div_pos; lia.
Qed.

Lemma ftrunc_nonpos q : (q <= 0)%Q → ftrunc q ≤ 0.
Proof.
  destruct q as [n d]. unfold Qle, ftrunc. cbn. intros Hn.
  rewrite Z.mul_1_r in Hn.
  rewrite <- (Z.opp_involutive n), Z.quot_opp_l by lia.
  assert (0 ≤ Z.quot (- n) (Z.pos d)) by (apply Z.quot_pos; lia). lia.
Qed.

Lemma ftrunc_inject_Z z : ftrunc (inject_Z z) = z.
Proof. unfold ftrunc. cbn. apply Z.quot_1_r. Qed.

(** Clamping the position before the conversion, as the code does, and
    clamping the truncated position, as the format says, agree. *)
Lemma ftrunc_fclamp x :
  ftrunc (fclamp x 0 (inject_Z UINT16_MAX)) = clamp (ftrunc x) 0 65535.
Proof.
  unfold fclamp, clamp, UINT16_MAX.
  fcase (flt x 0).
  - pose proof (ftrunc_nonpos x ltac:(lra)) as Hle.
    change (ftrunc 0) with 0.
    destruct (Z.ltb_spec (ftrunc x) 0); [done|].
    destruct (Z.ltb_spec 65535 (ftrunc x)); lia.
  - destruct (ftrunc_nonneg x E) as [Hfl Hge].
    destruct (Z.ltb_spec (ftrunc x) 0); [lia|].
    fcase (flt (inject_Z 65535) x).
    + rewrite ftrunc_inject_Z.
      assert (65535 ≤ ftrunc x).
      { rewrite Hfl. change 65535 with (Qfloor (inject_Z 65535)).
        apply Qfloor_resp_le. lra. }
      destruct (Z.ltb_spec 65535 (ftrunc x)); lia.
    + assert (ftrunc x ≤ 65535).
      { rewrite Hfl. change 65535 with (Qfloor (inject_Z 65535)).
        by apply Qfloor_resp_le. }
      destruct (Z.ltb_spec 65535 (ftrunc x)); lia.
Qed.

Section Snapshot_correct.
Context `{b32 : Binary32} `{libm : Libm} `{mt : Mt19937}.

(** ** Records *)

Lemma writes_player e : writes (write_player e) (snapshot_player e).
Proof.
  destruct e as [pid p]. unfold write_player, snapshot_player. cbn [fst snd].
  repeat (apply writes_bind;
          [first [apply writes_U32 | apply writes_U16_wrap | apply writes_U8
                 | apply writes_F32 | apply writes_U8_wrap]|]).
  apply writes_U8_wrap.
Qed.

Lemma writes_boid b :
  boid_converts b → writes (write_boid b) (snapshot_boid b).
Proof.
  intros [Hx Hy]. unfold snapshot_boid. rewrite <- !ftrunc_fclamp.
  eapply writes_ext.
  { intros w. unfold write_boid.
    rewrite (proj2 (float_to_int_Some _ _) (conj Hx eq_refl)).
    rewrite (proj2 (float_to_int_Some _ _) (conj Hy eq_refl)).
    cbn [mbind option_bind]. reflexivity. }
  repeat (apply writes_bind;
          [first [apply writes_U32 | apply writes_U16_wrap | apply writes_I8]|]).
  apply writes_I8.
Qed.

Lemma writes_resource r :
  resource_converts r →
  writes (write_resource r)
    (if Resource_active r then snapshot_resource r else []).
Proof.
  unfold resource_converts, write_resource, snapshot_resource.
  destruct (Resource_active r); cbn [negb]; [|intros _; apply writes_skip].
  intros Hr. destruct (Hr eq_refl) as [Hx Hy].
  rewrite (proj2 (float_to_uint16_Some _ _) (conj Hx eq_refl)).
  rewrite (proj2 (float_to_uint16_Some _ _) (conj Hy eq_refl)).
  cbn [mbind option_bind].
  repeat (apply writes_bind; [apply writes_U16|]). apply writes_U8.
Qed.

Lemma writes_pickup p :
  pickup_converts p →
  writes (write_pickup p) (if Pickup_active p then snapshot_pickup p else []).
Proof.
  unfold pickup_converts, write_pickup, snapshot_pickup.
  destruct (Pickup_active p); cbn [negb]; [|intros _; apply writes_skip].
  intros Hp. destruct (Hp eq_refl) as [Hx Hy].
  rewrite (proj2 (float_to_uint16_Some _ _) (conj Hx eq_refl)).
  rewrite (proj2 (float_to_uint16_Some _ _) (conj Hy eq_refl)).
  cbn [mbind option_bind].
  repeat (apply writes_bind; [apply writes_U16|]). apply writes_U8.
Qed.

(** An iteration with a result has converted its values. *)
Lemma write_boid_defined b w : is_Some (write_boid b w) → boid_converts b.
Proof.
  unfold write_boid. intros [w' Hw].
  do 3 (apply bind_Some in Hw as (? & _ & Hw)).
  apply bind_Some in Hw as (vx & Ex & Hw).
  apply bind_Some in Hw as (vy & Ey & Hw).
  apply float_to_int_Some in Ex as [Hx _].
  apply float_to_int_Some in Ey as [Hy _]. by split.
Qed.

Lemma write_resource_defined r w :
  is_Some (write_resource r w) → resource_converts r.
Proof.
  unfold write_resource, resource_converts. intros [w' Hw] Hact.
  rewrite Hact in Hw. cbn [negb] in Hw.
  destruct (float_to_uint16 (Vec2_x (Resource_pos r))) as [x|] eqn:Ex;
    cbn in Hw; [|done].
  apply bind_Some in Hw as (? & _ & Hw).
  destruct (float_to_uint16 (Vec2_y (Resource_pos r))) as [y|] eqn:Ey;
    cbn in Hw; [|done].
  apply float_to_uint16_Some in Ex as [Hx _].
  apply float_to_uint16_Some in Ey as [Hy _]. by split.
Qed.

Lemma write_pickup_defined p w :
  is_Some (write_pickup p w) → pickup_converts p.
Proof.
  unfold write_pickup, pickup_converts. intros [w' Hw] Hact.
  rewrite Hact in Hw. cbn [negb] in Hw.
  destruct (float_to_uint16 (Vec2_x (Pickup_pos p))) as [x|] eqn:Ex;
    cbn in Hw; [|done].
  apply bind_Some in Hw as (? & _ & Hw).
  destruct (float_to_uint16 (Vec2_y (Pickup_pos p))) as [y|] eqn:Ey;
    cbn in Hw; [|done].
  apply float_to_uint16_Some in Ex as [Hx _].
  apply float_to_uint16_Some in Ey as [Hy _]. by split.
Qed.

Lemma concat_map_active {A} (active : A → bool) (enc : A → list Z) v :
  concat (map (λ a, if active a then enc a else []) v)
  = concat (map enc (List.filter active v)).
Proof.
  induction v as [|a v IH]; cbn; [done|].
  destruct (active a); cbn; by rewrite IH.
Qed.

Lemma length_concat_map {A} (enc : A → list Z) (k : nat) v :
  (∀ a, length (enc a) = k) →
  length (concat (map enc v)) = (length v * k)%nat.
Proof.
  intros Hk. induction v as [|a v IH]; cbn; [done|].
  rewrite length_app, Hk, IH. lia.
Qed.

Lemma count_active_length {A} (active : A → bool) v :
  Z.to_nat (count_active active v) = length (List.filter active v).
Proof. unfold count_active. apply Nat2Z.id. Qed.

Lemma snapshot_layout_length s :
  length (snapshot_layout s)
  = (12 + size (players_ s) * 31 + length (boids_ s) * 10
     + Z.to_nat (count_active Resource_active (resources_ s)) * 5
     + Z.to_nat (count_active Pickup_active (pickups_ s)) * 5)%nat.
Proof.
  unfold snapshot_layout. rewrite !length_app.
  rewrite (length_concat_map snapshot_player 31) by done.
  rewrite (length_concat_map snapshot_boid 10) by done.
  rewrite (length_concat_map snapshot_resource 5) by done.
  rewrite (length_concat_map snapshot_pickup 5) by done.
  rewrite !count_active_length, length_map_to_list. cbn. lia.
Qed.




Lemma write_state_layout s :
  conversions_defined s → writes (write_state s) (snapshot_layout s).
Proof.
  intros (Hb & Hr & Hk).
  unfold write_state, snapshot_layout, snapshot_header.
  rewrite <- !(concat_map_active _ _ _).
  rewrite <- !app_assoc.
  repeat (apply writes_bind; [apply writes_U16_wrap|]).
  apply writes_bind;
    [apply (writes_each (λ _, True)); [intros e _; apply writes_player|]|].
  { by apply Forall_true. }
  apply writes_bind; [by apply (writes_each boid_converts), Hb; apply writes_boid|].
  apply writes_bind;
    [by apply (writes_each resource_converts), Hr; apply writes_resource|].
  by apply (writes_each pickup_converts), Hk; apply writes_pickup.
Qed.

Lemma serializeState_snapshot s :
  conversions_defined s → serializeState s = Some (snapshot_layout s).
Proof.
  intros Hconv. unfold serializeState.
  set (total := (12 + _ + _ + _ + _)%nat).
  pose proof (write_state_layout s Hconv) as Hw.
  specialize (Hw [] (replicate total 0) []).
  rewrite app_nil_r in Hw. cbn [app length] in Hw.
  rewrite Hw; [cbn; by rewrite app_nil_r|].
  rewrite length_replicate, snapshot_layout_length. subst total. lia.
Qed.

(** [serializeState] has a result only when every conversion is
    defined. *)
Lemma serializeState_defined s buffer :
  serializeState s = Some buffer → conversions_defined s.
Proof.
  unfold serializeState. set (total := (12 + _ + _ + _ + _)%nat).
  intros Hser. apply bind_Some in Hser as (w & Hw & _).
  unfold write_state in Hw.
  do 7 (apply bind_Some in Hw as (? & _ & Hw)).
  apply bind_Some in Hw as (? & Hboids & Hw).
  apply bind_Some in Hw as (? & Hres & Hpick).
  apply write_each_defined in Hboids, Hres, Hpick.
  split; [|split]; (eapply Forall_impl; [eassumption|]); cbn;
    intros a [w1 Ha]; eauto using write_boid_defined,
      write_resource_defined, write_pickup_defined.
Qed.


End Snapshot_correct.

(** ** A boid with the velocity (0.7f, -2.3f) *)

Lemma drifting_engine_converts : conversions_defined drifting_engine.
Proof.
  split; [|split]; (constructor; [|constructor]).
  - split; vm_compute; split; first [discriminate|reflexivity].
  - intros _. split; vm_compute; split; first [discriminate|reflexivity].
  - intros _. split; vm_compute; split; first [discriminate|reflexivity].
Qed.

(** The products 0.7f * 10.0f and -2.3f * 10.0f are rounded to 7 and -23
    before the conversion: the velocity bytes are 7 and 233 = 256 - 23. *)
Example snapshot_rounds_the_velocity :
  snapshot_boid drifting_boid = [1; 0; 0; 0; 244; 1; 244; 1; 7; 233]
  ∧ ftrunc ((11744051 # 16777216) * 10) = 6
  ∧ ftrunc (- (9646899 # 4194304) * 10) = -22.
Proof. vm_compute. repeat split; reflexivity. Qed.


(** * The elementary steps of a tick *)

(** ** Loops over a vector whose elements are only deactivated *)



Lemma filter_active_Forall {A} (active : A → bool) (v : list A) :
  Forall (λ a, active a = true) (List.filter active v).
Proof.
  apply Forall_forall. intros a Ha.
  apply list_elem_of_In, filter_In in Ha. tauto.
Qed.

Lemma sublist_delete {A} (l : list A) i : delete i l `sublist_of` l.
Proof.
  revert i. induction l as [|a l IH]; intros [|i]; cbn; try done.
  - by apply sublist_cons.
  - by apply sublist_skip.
Qed.

Section Preservation.
Context `{libm : Libm} `{mt : Mt19937}.

Lemma vec_at_elem_of {A} (v : list A) i a : vec_at v i = Some a → a ∈ v.
Proof.
  unfold vec_at. destruct (i <? 0); [done|]. apply list_elem_of_lookup_2.
Qed.

(** ** Steps 4 and 7 *)

Lemma insert_level t e : qt_level (insert t e) = qt_level t.
Proof.
  destruct t; [rewrite insert_Leaf | rewrite insert_Quad];
    destruct (negb _); [done| |done|]; destruct (stores_locally _ _); done.
Qed.



(** ** Steps 5 and 6 *)



(** ** Step 8 *)





(** ** Step 9 *)




(** ** Step 10 *)

Lemma remove_marked_sublist marks boids :
  remove_marked marks boids `sublist_of` boids.
Proof.
  unfold remove_marked. generalize (reverse marks). intros l. revert boids.
  induction l as [|idx l IH]; intros boids; cbn; [done|].
  etrans; [apply IH|]. destruct (_ <? _); [apply sublist_delete|done].
Qed.


(** ** The whole tick *)


(** ** The invariant of the reachable states, step by step *)







End Preservation.

(** * Invariants of the timers, the caps and the accumulators *)

Section Pointwise.
Context `{libm : Libm} `{mt : Mt19937}.


Lemma GameEngine_new_players g : players_ (GameEngine_new g) = ∅.
Proof.
  unfold GameEngine_new.
  set (s := mkEngine _ _ _ _ _ _ _ _ _ _ _ _).
  by destruct (prespawn_frame (Z.to_nat (MAX_RESOURCES / 2)) s) as [-> _].
Qed.

Lemma GameEngine_new_boids g : boids_ (GameEngine_new g) = [].
Proof.
  unfold GameEngine_new.
  set (s := mkEngine _ _ _ _ _ _ _ _ _ _ _ _).
  by destruct (prespawn_frame (Z.to_nat (MAX_RESOURCES / 2)) s) as [_ ->].
Qed.










End Pointwise.

Section Entity_caps.
Context `{libm : Libm} `{mt : Mt19937}.

Lemma count_active_all {A} (active : A → bool) (v : list A) :
  Forall (λ a, active a = true) v →
  count_active active v = Z.of_nat (length v).
Proof.
  intros Hv. unfold count_active. f_equal.
  induction Hv as [|a v Ha _ IH]; cbn; [done|]. rewrite Ha. cbn. by rewrite IH.
Qed.

Lemma Forall_sublist {A} (P : A → Prop) (l l' : list A) :
  l' `sublist_of` l → Forall P l → Forall P l'.
Proof.
  rewrite !Forall_forall. intros Hsub Hl a Ha.
  apply Hl. by eapply elem_of_sublist.
Qed.



(** ** Resources *)

(** What one call of [spawnResources] does to the resource vector. *)
Lemma spawnResources_resources s :
  (count_active Resource_active (resources_ s) >= MAX_RESOURCES
   ∧ spawnResources s = s)
  ∨ (count_active Resource_active (resources_ s) < MAX_RESOURCES
     ∧ ∃ r, resources_ (spawnResources s) = resources_ s ++ [r]
            ∧ Resource_active r = true ∧ Resource_id r = nextResourceId_ s
            ∧ nextResourceId_ (spawnResources s)
              = wrap32 (nextResourceId_ s + 1)).
Proof.
  unfold spawnResources.
  destruct (Z.geb_spec (count_active Resource_active (resources_ s))
              MAX_RESOURCES) as [Hge|Hlt]; [left; split; [lia|done]|].
  right. split; [lia|]. cbn.
  destruct (randomPosition _) as [pos g].
  destruct (uniform_int _ _ g) as [value g1].
  destruct (uniform_int _ _ g1) as [type g2]. cbn. eauto.
Qed.




Lemma prespawn_resources n s :
  Forall (λ r, Resource_active r = true) (resources_ s) →
  Z.of_nat (length (resources_ s)) + Z.of_nat n ≤ MAX_RESOURCES →
  0 ≤ nextResourceId_ s → nextResourceId_ s + Z.of_nat n < 2 ^ 32 →
  let s' := prespawn n s in
  Forall (λ r, Resource_active r = true) (resources_ s')
  ∧ Resource_id <$> resources_ s'
    = (Resource_id <$> resources_ s) ++ seqZ (nextResourceId_ s) (Z.of_nat n)
  ∧ nextResourceId_ s' = nextResourceId_ s + Z.of_nat n
  ∧ pickups_ s' = pickups_ s
  ∧ pickupSpawnAccum_ s' = pickupSpawnAccum_ s
  ∧ (resourceSpawnAccum_ s' = resourceSpawnAccum_ s
     ∨ resourceSpawnAccum_ s' = 0%Q)
  ∧ nextPlayerId_ s' = nextPlayerId_ s
  ∧ nextBoidId_ s' = nextBoidId_ s
  ∧ nextPickupId_ s' = nextPickupId_ s.
Proof.
  revert s. induction n as [|n IH]; intros s Hact Hlen Hid0 Hid; cbn zeta.
  - cbn. rewrite app_nil_r. repeat split; auto; lia.
  - cbn [prespawn].
    destruct (spawnResources_resources s)
      as [[Hge _]|(Hlt & r & Hres & Hr & Hrid & Hnext)].
    { rewrite (count_active_all _ _ Hact) in Hge. lia. }
    set (s1 := with_resourceSpawnAccum 0 (spawnResources s)).
    assert (Hwrap : wrap32 (nextResourceId_ s + 1) = nextResourceId_ s + 1).
    { unfold wrap32. apply Z.mod_small. lia. }
    destruct (IH s1) as (Hact' & Hids' & Hnext' & Hk' & Hpacc' & Hracc'
                         & Hnp' & Hnb' & Hnk').
    + subst s1. cbn. rewrite Hres. apply Forall_app. by repeat constructor.
    + subst s1. cbn. rewrite Hres, length_app. cbn. lia.
    + subst s1. cbn. rewrite Hnext, Hwrap. lia.
    + subst s1. cbn. rewrite Hnext, Hwrap. lia.
    + destruct (spawnResources_frame s) as (_ & _ & Hk & Hpacc & _).
      assert (Hrest : nextPlayerId_ (spawnResources s) = nextPlayerId_ s
                      ∧ nextBoidId_ (spawnResources s) = nextBoidId_ s
                      ∧ nextPickupId_ (spawnResources s) = nextPickupId_ s).
      { unfold spawnResources. destruct (_ >=? _); [done|]. cbn.
        destruct (randomPosition _) as [pos g].
        destruct (uniform_int _ _ g) as [value g1].
        by destruct (uniform_int _ _ g1) as [type g2]. }
      destruct Hrest as (Hnp & Hnb & Hnk).
      subst s1. cbn in *.
      rewrite Hids', Hnext', Hk', Hpacc', Hnp', Hnb', Hnk', Hres, Hnext, Hwrap.
      rewrite fmap_app, <- app_assoc. cbn. rewrite Hrid.
      replace (Z.of_nat (S n)) with (Z.succ (Z.of_nat n)) by lia.
      rewrite (seqZ_cons (nextResourceId_ s) (Z.succ (Z.of_nat n))) by lia.
      rewrite Z.pred_succ.
      replace (Z.succ (nextResourceId_ s)) with (nextResourceId_ s + 1) by lia.
      split; [done|]. split; [done|]. split; [lia|].
      split; [done|]. split; [done|].
      split; [|done]. destruct Hracc' as [Hr'|Hr']; rewrite Hr'; auto.
Qed.

Lemma GameEngine_new_state (g : Rng) :
  let s := GameEngine_new g in
  Resource_id <$> resources_ s = seqZ 1 150
  ∧ Forall (λ r, Resource_active r = true) (resources_ s)
  ∧ players_ s = ∅ ∧ boids_ s = [] ∧ pickups_ s = []
  ∧ resourceSpawnAccum_ s = 0%Q ∧ pickupSpawnAccum_ s = 0%Q
  ∧ nextPlayerId_ s = 1 ∧ nextBoidId_ s = 1 ∧ nextResourceId_ s = 151
  ∧ nextPickupId_ s = 1.
Proof.
  cbn zeta. rewrite GameEngine_new_players, GameEngine_new_boids.
  unfold GameEngine_new.
  set (s0 := mkEngine _ _ _ _ _ _ _ _ _ _ _ _).
  destruct (prespawn_resources (Z.to_nat (MAX_RESOURCES / 2)) s0)
    as (Hact & Hids & Hnext & Hk & Hpacc & Hracc & Hnp & Hnb & Hnk);
    [constructor|done|done|done|].
  rewrite Hids, Hnext, Hk, Hpacc, Hnp, Hnb, Hnk.
  repeat split; try done; by destruct Hracc as [Hr'|Hr']; rewrite Hr'.
Qed.

(** A freshly constructed engine holds [MAX_RESOURCES / 2] = 150 active
    resources with the ids 1 to 150, and nothing else: no player, no boid,
    no pickup, both accumulators at zero, and the next player, boid and
    pickup ids at 1. *)
Theorem GameEngine_new_prespawns_resources (g : Rng) :
  let s := GameEngine_new g in
  Resource_id <$> resources_ s = seqZ 1 150
  ∧ Forall (λ r, Resource_active r = true) (resources_ s)
  ∧ players_ s = ∅ ∧ boids_ s = [] ∧ pickups_ s = []
  ∧ resourceSpawnAccum_ s = 0%Q ∧ pickupSpawnAccum_ s = 0%Q
  ∧ nextPlayerId_ s = 1 ∧ nextBoidId_ s = 1 ∧ nextResourceId_ s = 151
  ∧ nextPickupId_ s = 1.
Proof. apply GameEngine_new_state. Qed.


End Entity_caps.

Section Pickup_caps.
Context `{libm : Libm} `{mt : Mt19937}.



End Pickup_caps.

Section Tick_players.
Context `{libm : Libm} `{mt : Mt19937}.











End Tick_players.

(** * Players and the boids they own *)

(** ** Counting the boids of a player *)

Lemma count_boids_nonneg pid boids : 0 ≤ count_boids pid boids.
Proof. unfold count_boids. lia. Qed.

Lemma count_boids_app pid boids boids' :
  count_boids pid (boids ++ boids')
  = count_boids pid boids + count_boids pid boids'.
Proof. unfold count_boids. rewrite List.filter_app, length_app. lia. Qed.

Lemma count_boids_cons pid b boids :
  count_boids pid (b :: boids)
  = (if Boid_playerId b =? pid then 1 else 0) + count_boids pid boids.
Proof.
  unfold count_boids. cbn. destruct (_ =? _); cbn [length]; lia.
Qed.





Lemma count_boids_elem_of pid b boids :
  b ∈ boids → Boid_playerId b = pid → 0 < count_boids pid boids.
Proof.
  intros Hb Hpid. induction Hb as [b boids|b b' boids _ IH].
  - rewrite count_boids_cons, Hpid, Z.eqb_refl.
    pose proof (count_boids_nonneg pid boids). lia.
  - rewrite count_boids_cons. specialize (IH Hpid). destruct (_ =? _); lia.
Qed.

Lemma count_boids_zero pid boids :
  count_boids pid boids = 0 → Forall (λ b, Boid_playerId b ≠ pid) boids.
Proof.
  intros Hz. apply Forall_forall. intros b Hb Hpid.
  pose proof (count_boids_elem_of pid b boids Hb Hpid). lia.
Qed.


Section Ownership.
Context `{libm : Libm} `{mt : Mt19937}.


(** ** A player is alive exactly when it owns a boid *)










End Ownership.

Section Fresh_ids.
Context `{libm : Libm} `{mt : Mt19937}.














End Fresh_ids.

(** * The shape of the quadtree and the index of the boids *)

Lemma qt_balanced_height t :
  qt_balanced t → 0 ≤ qt_height t ≤ QUADTREE_MAX_LEVELS - qt_level t.
Proof.
  induction t as [b l o|b l o c0 IH0 c1 IH1 c2 IH2 c3 IH3];
    cbn [qt_balanced qt_height qt_level].
  - lia.
  - intros (Hl & _ & (H0 & H1 & H2 & H3) & Hb0 & Hb1 & Hb2 & Hb3).
    specialize (IH0 Hb0). specialize (IH1 Hb1).
    specialize (IH2 Hb2). specialize (IH3 Hb3). lia.
Qed.

Lemma insert_balanced t e : qt_balanced t → qt_balanced (insert t e).
Proof.
  induction t as [b l o|b l o c0 IH0 c1 IH1 c2 IH2 c3 IH3];
    cbn [qt_balanced].
  - intros [Hl Ho]. rewrite insert_Leaf.
    destruct (entry_in b e) eqn:Hin; cbn [negb]; [|done].
    unfold stores_locally.
    destruct (Z.ltb_spec (Z.of_nat (length o)) QUADTREE_MAX_OBJECTS)
      as [Hroom|Hfull]; cbn [orb].
    + cbn. split; [done|]. intros _. rewrite length_app. cbn. lia.
    + destruct (Z.geb_spec l QUADTREE_MAX_LEVELS) as [Hdeep|Hshallow].
      * cbn. split; [done|]. lia.
      * unfold child0, child1, child2, child3, subdivide, QuadTree_new.
        cbn -[insert]. rewrite !insert_empty_leaf. cbn.
        unfold QUADTREE_MAX_LEVELS, QUADTREE_MAX_OBJECTS in *.
        assert (∀ r, Z.of_nat (length (added r e)) ≤ 8) as Hadd.
        { intros r. unfold added. destruct (entry_in r e); cbn; lia. }
        specialize (Ho ltac:(lia)).
        repeat split; try lia; intros _; apply Hadd.
  - intros (Hl & Ho & (H0 & H1 & H2 & H3) & Hb0 & Hb1 & Hb2 & Hb3).
    rewrite insert_Quad.
    destruct (entry_in b e) eqn:Hin; cbn [negb]; [|done].
    unfold stores_locally.
    destruct (Z.ltb_spec (Z.of_nat (length o)) QUADTREE_MAX_OBJECTS)
      as [Hroom|Hfull]; [lia|]. cbn [orb].
    destruct (Z.geb_spec l QUADTREE_MAX_LEVELS) as [Hdeep|Hshallow]; [lia|].
    cbn [qt_balanced]. rewrite !insert_level. auto 10.
Qed.

Lemma fold_insert_balanced es t :
  qt_balanced t → qt_balanced (fold_left insert es t).
Proof.
  revert t. induction es as [|e es IH]; intros t Ht; cbn; [done|].
  by apply IH, insert_balanced.
Qed.

Lemma fold_insert_level es t : qt_level (fold_left insert es t) = qt_level t.
Proof.
  revert t. induction es as [|e es IH]; intros t; cbn; [done|].
  by rewrite IH, insert_level.
Qed.

(** Whatever is inserted into a cleared tree whose root lies at a level
    in [0, QUADTREE_MAX_LEVELS] (the engine's root lies at level 0), no
    node ends up at a level beyond [QUADTREE_MAX_LEVELS] = 6, so the tree
    has at most that many levels below the root; a leaf at a level below
    the maximum holds at most [QUADTREE_MAX_OBJECTS] = 8 entries, and a
    divided node keeps exactly 8 entries of its own: [insert] files the
    later entries in its children and does not move the 8 it holds. *)
Theorem insert_keeps_quadtree_balanced (root : QuadTree) (es : list QTEntry) :
  0 ≤ qt_level root ≤ QUADTREE_MAX_LEVELS →
  let t := fold_left insert es (clear root) in
  qt_balanced t ∧ 0 ≤ qt_height t ≤ QUADTREE_MAX_LEVELS - qt_level root.
Proof.
  intros Hroot. cbn zeta.
  assert (Hb : qt_balanced (fold_left insert es (clear root))).
  { apply fold_insert_balanced. cbn. split; [done|].
    unfold QUADTREE_MAX_OBJECTS. lia. }
  split; [done|]. pose proof (qt_balanced_height _ Hb) as Hh.
  by rewrite fold_insert_level in Hh.
Qed.

Lemma insert_keeps_quadtree_balanced_witness :
  let root := QuadTree_new (mkRect 0 0 MAP_WIDTH MAP_HEIGHT) 0 in
  let es := map (λ i, mkEntry i 1 1) (seqZ 0 20) in
  let t := fold_left insert es (clear root) in
  qt_balanced t ∧ 0 ≤ qt_height t ≤ QUADTREE_MAX_LEVELS - qt_level root.
Proof.
  apply (insert_keeps_quadtree_balanced
           (QuadTree_new (mkRect 0 0 MAP_WIDTH MAP_HEIGHT) 0)).
  vm_compute. split; discriminate.
Defined.

(** ** The index after [buildQuadTree] *)




Section Index.
Context `{libm : Libm} `{mt : Mt19937}.











End Index.

(** * Combat between swarms of different sizes *)

Lemma counts_get_insert counts k v j :
  counts_get (<[k := v]> counts) j = if decide (j = k) then v else counts_get counts j.
Proof.
  unfold counts_get. destruct (decide (j = k)) as [->|Hne].
  - by rewrite lookup_insert_eq.
  - by rewrite lookup_insert_ne.
Qed.

(** [boidCounts] after the counting loop holds the number of boids of
    every player. *)
Lemma count_per_player_get boids k :
  counts_get (count_per_player boids) k = count_boids k boids.
Proof.
  unfold count_per_player.
  assert (Hgen : ∀ counts,
             counts_get
               (foldl (λ counts b,
                         <[Boid_playerId b
                           := counts_get counts (Boid_playerId b) + 1]> counts)
                  counts boids) k
             = counts_get counts k + count_boids k boids).
  { induction boids as [|b boids IH]; intros counts; cbn.
    - unfold count_boids. cbn. lia.
    - rewrite IH, counts_get_insert, count_boids_cons.
      destruct (decide (k = Boid_playerId b)) as [->|Hne].
      + rewrite Z.eqb_refl. lia.
      + destruct (Z.eqb_spec (Boid_playerId b) k); [congruence|lia]. }
  rewrite Hgen. unfold counts_get. rewrite lookup_empty. cbn. lia.
Qed.

Section Largest_swarm.
Context `{libm : Libm} `{mt : Mt19937}.

Lemma swarm_safe_mark boids pid n toRemove counts idx b :
  swarm_safe boids pid n (toRemove, counts) →
  vec_at boids idx = Some b → Boid_playerId b ≠ pid →
  swarm_safe boids pid n
    (toRemove ++ [idx],
     <[Boid_playerId b := counts_get counts (Boid_playerId b) - 1]> counts).
Proof.
  intros (Hmarks & Hn & Hlt) Hb Hne. split; [|split]; cbn in *.
  - apply Forall_app. split; [done|]. repeat constructor. exists b.
    split; [done|]. by apply Z.eqb_neq.
  - rewrite counts_get_insert. by destruct (decide (pid = Boid_playerId b)).
  - intros b' Hb' Hne'. rewrite counts_get_insert.
    specialize (Hlt b' Hb' Hne').
    destruct (decide (Boid_playerId b' = Boid_playerId b)) as [Heq|]; [|done].
    rewrite <- Heq. lia.
Qed.

Lemma combat_scan_safe players boids pid n i me nearby st :
  vec_at boids i = Some me →
  Forall (entry_valid boids) nearby →
  swarm_safe boids pid n st →
  ∃ st', combat_scan players boids i me nearby st = Some st'
         ∧ swarm_safe boids pid n st'.
Proof.
  intros Hme. revert st.
  induction nearby as [|ne rest IH]; intros st Hval Hst; cbn; [eauto|].
  apply Forall_cons in Hval as [Hne Hval].
  destruct (boidIndex ne =? i); [by apply IH|].
  destruct (vec_at_valid boids _ Hne) as [other Hother]. rewrite Hother. cbn.
  destruct (Z.eqb_spec (Boid_playerId other) (Boid_playerId me)) as [|Hdiff];
    [by apply IH|].
  destruct (flt _ _); [|by apply IH].
  destruct st as [toRemove counts].
  pose proof Hst as (_ & Hn & Hlt). cbn in Hn, Hlt.
  pose proof (vec_at_elem_of _ _ _ Hme) as Hme_in.
  pose proof (vec_at_elem_of _ _ _ Hother) as Hother_in.
  destruct (combat_verdict _ _ _ _) eqn:Hv.
  - apply combat_verdict_mine in Hv as [Hcmp _].
    eexists. split; [done|]. apply swarm_safe_mark; [done|done|].
    intros Heq. rewrite Heq, Hn in Hcmp.
    assert (Boid_playerId other ≠ pid) as Ho by congruence.
    specialize (Hlt other Hother_in Ho). lia.
  - apply combat_verdict_other in Hv as [Hcmp _].
    apply IH; [done|]. apply swarm_safe_mark; [done|done|].
    intros Heq. rewrite Heq, Hn in Hcmp.
    assert (Boid_playerId me ≠ pid) as Ho by congruence.
    specialize (Hlt me Hme_in Ho). lia.
  - by apply IH.
Qed.

(** When every index held by the spatial index is valid and every boid
    of another player belongs to a swarm strictly smaller than that of
    [pid], [handleCombat] removes no boid of [pid]: the comparison of the
    counts never goes against the largest swarm, also after the counts of
    the others have been decremented.  What it removes, it only removes:
    the boids left are a sublist of the boids before, and the players are
    not changed. *)
Theorem largest_swarm_survives_combat (s : GameEngine) (pid : Z) :
  Forall (λ e, 0 ≤ boidIndex e < Z.of_nat (length (boids_ s)))
    (qt_all (quadTree_ s)) →
  Forall (λ b, Boid_playerId b ≠ pid →
               count_boids (Boid_playerId b) (boids_ s)
               < count_boids pid (boids_ s)) (boids_ s) →
  ∃ s', handleCombat s = Some s'
    ∧ List.filter (λ b, Boid_playerId b =? pid) (boids_ s')
      = List.filter (λ b, Boid_playerId b =? pid) (boids_ s)
    ∧ boids_ s' `sublist_of` boids_ s
    ∧ players_ s' = players_ s.
Proof.
  intros Hval Hlargest.
  assert (Hmarks : ∃ st,
             for_range (combat_body (players_ s) (quadTree_ s) (boids_ s))
               0 (length (boids_ s)) ([], count_per_player (boids_ s))
             = Some st
             ∧ swarm_safe (boids_ s) pid (count_boids pid (boids_ s)) st).
  { apply (for_range_total
             (swarm_safe (boids_ s) pid (count_boids pid (boids_ s)))).
    - intros i st Hi Hst. unfold combat_body.
      destruct (lookup_lt_is_Some_2 (boids_ s) i) as [me Hme]; [lia|].
      rewrite Hme. cbn.
      apply (combat_scan_safe _ _ pid (count_boids pid (boids_ s)));
        [|by apply query_Forall|done].
      unfold vec_at. destruct (Z.of_nat i <? 0) eqn:E; [lia|].
      by rewrite Nat2Z.id.
    - split; [constructor|]. cbn. split; [apply count_per_player_get|].
      intros b Hb Hne. rewrite count_per_player_get.
      rewrite Forall_forall in Hlargest. by apply Hlargest. }
  destruct Hmarks as (st & Hst & Hsafe & _).
  unfold handleCombat, combat_marks. rewrite Hst. cbn.
  eexists. split; [done|]. cbn. split; [|split; [|done]].
  - apply remove_marked_filter; [apply sort_unique_sorted|].
    apply Forall_forall. intros idx Hidx. apply sort_unique_subset in Hidx.
    rewrite Forall_forall in Hsafe. apply (Hsafe idx Hidx).
  - apply remove_marked_sublist.
Qed.

End Largest_swarm.

(** In the shield scenario the swarm of player 2 has ten boids and player
    1 has one. *)
Lemma largest_swarm_survives_combat_witness :
  ∃ s', handleCombat shield_scenario = Some s'
    ∧ List.filter (λ b, Boid_playerId b =? 2) (boids_ s')
      = List.filter (λ b, Boid_playerId b =? 2) (boids_ shield_scenario)
    ∧ boids_ s' `sublist_of` boids_ shield_scenario
    ∧ players_ s' = players_ shield_scenario.
Proof.
  apply (largest_swarm_survives_combat shield_scenario 2).
  - vm_compute. repeat constructor; discriminate.
  - vm_compute. repeat constructor; intros; try done.
Defined.

(** * The client decodes what the engine serialises *)

(** ** Reads from the middle of a buffer *)

Lemma lookup_middle (pre bs post : list Z) (i : nat) :
  (i < length bs)%nat → (pre ++ bs ++ post) !! (length pre + i)%nat = bs !! i.
Proof.
  intros Hi. rewrite lookup_app_r by lia.
  replace (length pre + i - length pre)%nat with i by lia.
  by rewrite lookup_app_l.
Qed.

Lemma reads_ret {A} (a : A) : reads (mret a) [] a.
Proof. intros pre post. cbn. by rewrite Nat.add_0_r. Qed.

Lemma reads_bind {A B} (r : Read A) (k : A → Read B) bs1 bs2 v w :
  reads r bs1 v → reads (k v) bs2 w → reads (a ← r; k a) (bs1 ++ bs2) w.
Proof.
  intros Hr Hk pre post. unfold mbind, read_bind.
  rewrite <- app_assoc, Hr.
  specialize (Hk (pre ++ bs1) post).
  rewrite <- app_assoc, length_app in Hk. rewrite Hk, length_app.
  f_equal. f_equal. lia.
Qed.

Lemma reads_each {A B} (r : Read B) (enc : A → list Z) (view : A → B)
  (v : list A) :
  (∀ a, reads r (enc a) (view a)) →
  reads (read_each r (length v)) (concat (map enc v)) (view <$> v).
Proof.
  intros Hr. induction v as [|a v IH]; cbn [length read_each map concat fmap].
  - apply reads_ret.
  - eapply reads_bind; [apply Hr|].
    rewrite <- (app_nil_r (concat (map enc v))).
    eapply reads_bind; [exact IH|apply reads_ret].
Qed.

Lemma reads_U8 v : reads readU8 (u8 v) (wrap8 v).
Proof.
  intros pre post. unfold readU8, getUint8, u8.
  rewrite <- (Nat.add_0_r (length pre)) at 1.
  rewrite lookup_middle by (cbn; lia). cbn.
  rewrite ?Nat.add_0_r. done.
Qed.

Lemma reads_I8 v : -128 ≤ v < 128 → reads readI8 (i8 v) v.
Proof.
  intros Hv pre post. unfold readI8, getInt8, i8.
  rewrite <- (Nat.add_0_r (length pre)) at 1.
  rewrite lookup_middle by (cbn; lia). cbn. rewrite ?Nat.add_0_r.
  assert (Hneg : v < 0 → v mod 256 = v + 256).
  { intros Hv0. symmetry. apply (Z.mod_unique v 256 (-1) (v + 256)); lia. }
  assert (Hpos : 0 ≤ v → v mod 256 = v).
  { intros Hv0. apply Z.mod_small. lia. }
  destruct (Z.le_gt_cases 0 v) as [Hv0|Hv0].
  - rewrite (Hpos Hv0). destruct (Z.ltb_spec v 128); [done|lia].
  - rewrite (Hneg Hv0). destruct (Z.ltb_spec (v + 256) 128); [lia|].
    do 2 f_equal. lia.
Qed.

Lemma le16_value v : v mod 256 + 256 * (v / 256 mod 256) = wrap16 v.
Proof.
  unfold wrap16. change (2 ^ 16) with (256 * 256).
  rewrite Z.rem_mul_r by lia. done.
Qed.

Lemma le32_value v :
  v mod 256
  + 256 * (v / 256 mod 256
           + 256 * (v / 256 / 256 mod 256 + 256 * (v / 256 / 256 / 256 mod 256)))
  = wrap32 v.
Proof.
  unfold wrap32. change (2 ^ 32) with (256 * (256 * (256 * 256))).
  rewrite (Z.rem_mul_r v 256) by lia.
  rewrite (Z.rem_mul_r (v / 256) 256) by lia.
  rewrite (Z.rem_mul_r (v / 256 / 256) 256) by lia. done.
Qed.

Lemma reads_U16 v : reads readU16 (u16 v) (wrap16 v).
Proof.
  intros pre post. unfold readU16, getUint16, u16.
  rewrite <- (Nat.add_0_r (length pre)) at 1.
  rewrite !lookup_middle by (cbn; lia). cbn.
  rewrite ?Nat.add_0_r, le16_value. done.
Qed.

Lemma reads_U32 v : reads readU32 (u32 v) (wrap32 v).
Proof.
  intros pre post. unfold readU32, getUint32, u32.
  rewrite <- (Nat.add_0_r (length pre)) at 1.
  rewrite !lookup_middle by (cbn; lia). cbn.
  rewrite ?Nat.add_0_r, le32_value. done.
Qed.

Section Round_trip.
Context `{b32 : Binary32} `{dv : DataView} `{mt : Mt19937}.

Lemma reads_F32 v : reads readF32 (f32 v) (float32_sent v).
Proof.
  intros pre post. unfold readF32, getFloat32, f32.
  pose proof (reads_U32 (f32_bits v) pre post) as Hr.
  unfold readU32 in Hr.
  destruct (getUint32 _ _) as [bits|]; cbn in *; [|done].
  injection Hr as ->. done.
Qed.

Lemma b2z_decoded b : (wrap8 (b2z b) =? 1) = b.
Proof. by destruct b. Qed.

Lemma clamp_range v lo hi : lo ≤ hi → lo ≤ clamp v lo hi ≤ hi.
Proof.
  intros Hle. unfold clamp.
  destruct (Z.ltb_spec v lo); [lia|]. destruct (Z.ltb_spec hi v); lia.
Qed.

Lemma reads_player e : reads read_player (snapshot_player e) (player_view e).
Proof.
  unfold read_player, snapshot_player, player_view.
  eapply reads_bind; [apply reads_U32|].
  eapply reads_bind; [apply reads_U16|].
  eapply reads_bind; [apply reads_U8|].
  eapply reads_bind; [apply reads_U8|].
  do 5 (eapply reads_bind; [apply reads_F32|]).
  eapply reads_bind; [apply reads_U8|].
  eapply reads_bind; [apply reads_U8|].
  rewrite <- (app_nil_r (u8 _)).
  eapply reads_bind; [apply reads_U8|].
  rewrite !b2z_decoded. apply reads_ret.
Qed.

Lemma reads_boid b : reads read_boid (snapshot_boid b) (boid_view b).
Proof.
  unfold read_boid, snapshot_boid, boid_view.
  eapply reads_bind; [apply reads_U32|].
  eapply reads_bind; [apply reads_U16|].
  eapply reads_bind; [apply reads_U16|].
  eapply reads_bind;
    [apply reads_I8; pose proof (clamp_range
       (ftrunc (fmul (Vec2_x (Boid_vel b)) 10)) (-127) 127); lia|].
  rewrite <- (app_nil_r (i8 _)).
  eapply reads_bind;
    [apply reads_I8; pose proof (clamp_range
       (ftrunc (fmul (Vec2_y (Boid_vel b)) 10)) (-127) 127); lia|].
  assert (Hw : ∀ v, wrap16 (clamp v 0 65535) = clamp v 0 65535).
  { intros v. unfold wrap16. apply Z.mod_small.
    pose proof (clamp_range v 0 65535). lia. }
  rewrite !Hw. apply reads_ret.
Qed.

Lemma reads_resource r :
  reads read_resource (snapshot_resource r) (resource_view r).
Proof.
  unfold read_resource, snapshot_resource, resource_view.
  eapply reads_bind; [apply reads_U16|].
  eapply reads_bind; [apply reads_U16|].
  rewrite <- (app_nil_r (u8 _)).
  eapply reads_bind; [apply reads_U8|]. apply reads_ret.
Qed.

Lemma reads_pickup p : reads read_pickup (snapshot_pickup p) (pickup_view p).
Proof.
  unfold read_pickup, snapshot_pickup, pickup_view.
  eapply reads_bind; [apply reads_U16|].
  eapply reads_bind; [apply reads_U16|].
  rewrite <- (app_nil_r (u8 _)).
  eapply reads_bind; [apply reads_U8|]. apply reads_ret.
Qed.

Lemma count_read n : n < 65536 → Z.to_nat (wrap16 (Z.of_nat (Z.to_nat n))) = Z.to_nat n.
Proof.
  intros Hn. unfold wrap16. rewrite Z.mod_small by lia. lia.
Qed.

Lemma reads_state s :
  Z.of_nat (size (players_ s)) < 65536 →
  Z.of_nat (length (boids_ s)) < 65536 →
  count_active Resource_active (resources_ s) < 65536 →
  count_active Pickup_active (pickups_ s) < 65536 →
  reads read_state (snapshot_layout s) (state_view s).
Proof.
  intros Hp Hb Hr Hk.
  unfold read_state, snapshot_layout, snapshot_header, state_view.
  rewrite <- !app_assoc.
  do 6 (eapply reads_bind; [apply reads_U16|]).
  assert (Hnp : Z.to_nat (wrap16 (Z.of_nat (size (players_ s))))
                = length (map_to_list (players_ s))).
  { rewrite length_map_to_list. unfold wrap16.
    rewrite Z.mod_small by lia. lia. }
  assert (Hnb : Z.to_nat (wrap16 (Z.of_nat (length (boids_ s))))
                = length (boids_ s)).
  { unfold wrap16. rewrite Z.mod_small by lia. lia. }
  assert (Hnr : Z.to_nat (wrap16 (count_active Resource_active (resources_ s)))
                = length (List.filter Resource_active (resources_ s))).
  { unfold wrap16, count_active in *. rewrite Z.mod_small by lia. lia. }
  assert (Hnk : Z.to_nat (wrap16 (count_active Pickup_active (pickups_ s)))
                = length (List.filter Pickup_active (pickups_ s))).
  { unfold wrap16, count_active in *. rewrite Z.mod_small by lia. lia. }
  rewrite Hnp, Hnb, Hnr, Hnk.
  eapply reads_bind; [apply reads_each, reads_player|].
  eapply reads_bind; [apply reads_each, reads_boid|].
  eapply reads_bind; [apply reads_each, reads_resource|].
  rewrite <- (app_nil_r (concat _)).
  eapply reads_bind; [apply reads_each, reads_pickup|].
  apply reads_ret.
Qed.

(** When every conversion of [serializeState] is defined and the state
    holds fewer than 65536 players, boids, active resources and active
    pickups, so that the four u16 counts of the header are exact, the
    client's [parseState] reads back from the buffer of [serializeState]
    every record the engine wrote, in order; the reads end exactly at the
    end of the buffer.  Each field is the value the engine sent, reduced to
    the width of the field. *)
Theorem parseState_reads_back_serializeState (s : GameEngine) :
  conversions_defined s →
  Z.of_nat (size (players_ s)) < 65536 →
  Z.of_nat (length (boids_ s)) < 65536 →
  count_active Resource_active (resources_ s) < 65536 →
  count_active Pickup_active (pickups_ s) < 65536 →
  ∃ buffer, serializeState s = Some buffer
            ∧ read_state buffer 0%nat = Some (state_view s, length buffer)
            ∧ parseState buffer = Some (state_view s).
Proof.
  intros Hconv Hp Hb Hr Hk. exists (snapshot_layout s).
  split; [by apply serializeState_snapshot|].
  unfold parseState.
  pose proof (reads_state s Hp Hb Hr Hk [] []) as Hread.
  rewrite app_nil_r in Hread. cbn [app length] in Hread.
  by rewrite Hread.
Qed.

(** ** A truncated buffer *)

Lemma stable_ret {A} (a : A) : prefix_stable (mret a).
Proof. intros buffer n offset v offset'. cbn. by intros [= <- <-]. Qed.

Lemma stable_bind {A B} (r : Read A) (k : A → Read B) :
  prefix_stable r → (∀ a, prefix_stable (k a)) → prefix_stable (a ← r; k a).
Proof.
  intros Hr Hk buffer n offset v offset'. unfold mbind, read_bind.
  destruct (r (take n buffer) offset) as [[a o1]|] eqn:E; [|done].
  destruct (Hr _ _ _ _ _ E) as [-> Ho1]. intros Hrest.
  destruct (Hk a _ _ _ _ _ Hrest) as [-> Ho']. split; [done|]. auto.
Qed.

Lemma stable_each {A} (r : Read A) n :
  prefix_stable r → prefix_stable (read_each r n).
Proof.
  intros Hr. induction n as [|n IH]; cbn [read_each].
  - apply stable_ret.
  - apply stable_bind; [done|]. intros a.
    apply stable_bind; [done|]. intros items. apply stable_ret.
Qed.

Lemma lookup_take_full (buffer : list Z) n i b :
  take n buffer !! i = Some b → buffer !! i = Some b ∧ (i < n)%nat.
Proof. intros Hb. by apply lookup_take_Some in Hb. Qed.

Lemma stable_U8 : prefix_stable readU8.
Proof.
  intros buffer n offset v offset'. unfold readU8, getUint8.
  destruct (take n buffer !! offset) as [b0|] eqn:E0; cbn; [|done].
  apply lookup_take_full in E0 as [-> H0]. intros [= <- <-]. cbn.
  split; [done|lia].
Qed.

Lemma stable_I8 : prefix_stable readI8.
Proof.
  intros buffer n offset v offset'. unfold readI8, getInt8.
  destruct (take n buffer !! offset) as [b0|] eqn:E0; cbn; [|done].
  apply lookup_take_full in E0 as [-> H0]. intros [= <- <-]. cbn.
  split; [done|lia].
Qed.

Lemma stable_U16 : prefix_stable readU16.
Proof.
  intros buffer n offset v offset'. unfold readU16, getUint16.
  destruct (take n buffer !! offset) as [b0|] eqn:E0; cbn; [|done].
  destruct (take n buffer !! (offset + 1)%nat) as [b1|] eqn:E1; cbn; [|done].
  apply lookup_take_full in E0 as [-> H0].
  apply lookup_take_full in E1 as [-> H1]. intros [= <- <-]. cbn.
  split; [done|lia].
Qed.

Lemma stable_U32 : prefix_stable readU32.
Proof.
  intros buffer n offset v offset'. unfold readU32, getUint32.
  destruct (take n buffer !! offset) as [b0|] eqn:E0; cbn; [|done].
  destruct (take n buffer !! (offset + 1)%nat) as [b1|] eqn:E1; cbn; [|done].
  destruct (take n buffer !! (offset + 2)%nat) as [b2|] eqn:E2; cbn; [|done].
  destruct (take n buffer !! (offset + 3)%nat) as [b3|] eqn:E3; cbn; [|done].
  apply lookup_take_full in E0 as [-> H0].
  apply lookup_take_full in E1 as [-> H1].
  apply lookup_take_full in E2 as [-> H2].
  apply lookup_take_full in E3 as [-> H3]. intros [= <- <-]. cbn.
  split; [done|lia].
Qed.

Lemma stable_F32 : prefix_stable readF32.
Proof.
  intros buffer n offset v offset'. unfold readF32, getFloat32, getUint32.
  destruct (take n buffer !! offset) as [b0|] eqn:E0; cbn; [|done].
  destruct (take n buffer !! (offset + 1)%nat) as [b1|] eqn:E1; cbn; [|done].
  destruct (take n buffer !! (offset + 2)%nat) as [b2|] eqn:E2; cbn; [|done].
  destruct (take n buffer !! (offset + 3)%nat) as [b3|] eqn:E3; cbn; [|done].
  apply lookup_take_full in E0 as [-> H0].
  apply lookup_take_full in E1 as [-> H1].
  apply lookup_take_full in E2 as [-> H2].
  apply lookup_take_full in E3 as [-> H3]. intros [= <- <-]. cbn.
  split; [done|lia].
Qed.

Lemma stable_state : prefix_stable read_state.
Proof.
  unfold read_state, read_player, read_boid, read_resource, read_pickup.
  repeat first
    [ apply stable_ret
    | apply stable_each
    | apply stable_bind; [|intros ?]
    | apply stable_U8 | apply stable_I8 | apply stable_U16
    | apply stable_U32 | apply stable_F32 ].
Qed.

(** [parseState] does not accept a truncated snapshot: on every proper
    prefix of a buffer that [serializeState] has produced (with exact
    counts in the header) a read runs past the end and the parse throws. *)
Theorem parseState_rejects_a_truncated_snapshot (s : GameEngine)
  (buffer : list Z) (n : nat) :
  Z.of_nat (size (players_ s)) < 65536 →
  Z.of_nat (length (boids_ s)) < 65536 →
  count_active Resource_active (resources_ s) < 65536 →
  count_active Pickup_active (pickups_ s) < 65536 →
  serializeState s = Some buffer → (n < length buffer)%nat →
  parseState (take n buffer) = None.
Proof.
  intros Hp Hb Hr Hk Hser Hn.
  pose proof (serializeState_defined s buffer Hser) as Hconv.
  rewrite (serializeState_snapshot s Hconv) in Hser. injection Hser as <-.
  pose proof (reads_state s Hp Hb Hr Hk [] []) as Hread.
  rewrite app_nil_r in Hread. cbn [app length] in Hread.
  unfold parseState.
  destruct (read_state (take n (snapshot_layout s)) 0%nat)
    as [[v offset']|] eqn:E; [|done].
  destruct (stable_state _ _ _ _ _ E) as [Hfull Hbound].
  rewrite Hread in Hfull.
  assert (Hend : offset' = length (snapshot_layout s))
    by (injection Hfull as _ <-; done).
  specialize (Hbound ltac:(lia)). lia.
Qed.

(** ** Fields that never wrap *)


End Round_trip.

(** * The movement of the boids *)

(** ** Step 5 moves every boid by its new velocity *)

Lemma for_range_pointwise {A} (R : A → A → Prop)
  (body : nat → list A → option (list A)) (from count : nat) (l l' : list A) :
  (∀ i l l', body i l = Some l' →
     length l' = length l ∧ (∀ j, j ≠ i → l' !! j = l !! j)
     ∧ ∃ a a', l !! i = Some a ∧ l' !! i = Some a' ∧ R a a') →
  for_range body from count l = Some l' →
  length l' = length l
  ∧ (∀ j, (j < from ∨ from + count ≤ j)%nat → l' !! j = l !! j)
  ∧ (∀ j a a', (from ≤ j < from + count)%nat →
       l !! j = Some a → l' !! j = Some a' → R a a').
Proof.
  intros Hbody. revert from l.
  induction count as [|c IH]; intros from l; cbn.
  - intros [= <-]. split; [done|]. split; [done|]. lia.
  - destruct (body from l) as [l1|] eqn:E; cbn; [|done].
    intros Hrest.
    destruct (Hbody _ _ _ E) as (Hlen1 & Hsame1 & a0 & a1 & Ha0 & Ha1 & HR).
    destruct (IH _ _ Hrest) as (Hlen & Hsame & Hrel).
    split; [congruence|]. split.
    + intros j Hj. rewrite Hsame by lia. apply Hsame1. lia.
    + intros j a a' Hj Ha Ha'.
      destruct (decide (j = from)) as [->|Hne].
      * rewrite Hsame in Ha' by lia. congruence.
      * apply (Hrel j); [lia| |done]. rewrite Hsame1 by done. done.
Qed.

Section Movement.
Context `{libm : Libm} `{mt : Mt19937}.

Lemma boid_rules_body_moved players qt i boids boids' :
  boid_rules_body players qt i boids = Some boids' →
  length boids' = length boids ∧ (∀ j, j ≠ i → boids' !! j = boids !! j)
  ∧ ∃ b b', boids !! i = Some b ∧ boids' !! i = Some b' ∧ moved players b b'.
Proof.
  unfold boid_rules_body.
  destruct (boids !! i) as [boid|] eqn:Hi; cbn; [|done].
  destruct (players !! Boid_playerId boid) as [player|] eqn:Hp.
  - destruct (flock_scan _ _ _ _ _ _ _) as [a|]; cbn; [|done].
    match goal with
    | |- context [if ?c then ?x else Some ?y] =>
        destruct (if c then x else Some y) as [steer|]; cbn; [|done]
    end.
    intros [= <-]. rewrite length_insert. split; [done|]. split.
    + intros j Hj. by rewrite list_lookup_insert_ne.
    + eexists _, _. split; [done|]. split.
      * apply list_lookup_insert_eq. by eapply lookup_lt_Some.
      * unfold moved. cbn. by rewrite Hp.
  - intros [= <-]. split; [done|]. split; [done|].
    exists boid, boid. unfold moved. by rewrite Hp.
Qed.

(** [applyBoidRules] keeps the number and the order of the boids, the id
    and the owner of each, and it moves every boid of a stored player by
    exactly the velocity it has computed for it in this step:
    pos' = pos + vel'.  A boid whose owner is not stored is not touched. *)
Theorem applyBoidRules_moves_by_the_new_velocity (s s' : GameEngine)
  (i : nat) (b b' : Boid) :
  applyBoidRules s = Some s' →
  boids_ s !! i = Some b → boids_ s' !! i = Some b' →
  length (boids_ s') = length (boids_ s)
  ∧ Boid_id b' = Boid_id b ∧ Boid_playerId b' = Boid_playerId b
  ∧ match players_ s !! Boid_playerId b with
    | Some _ => Boid_pos b' = Vec2_add (Boid_pos b) (Boid_vel b')
    | None => b' = b
    end.
Proof.
  unfold applyBoidRules.
  destruct (for_range _ _ _ _) as [boids|] eqn:E; cbn; [|done].
  intros [= <-] Hb Hb'. cbn in Hb'.
  destruct (for_range_pointwise (moved (players_ s)) _ _ _ _ _
              (boid_rules_body_moved (players_ s) (quadTree_ s)) E)
    as (Hlen & _ & Hrel).
  split; [done|]. apply (Hrel i); [|done|done].
  apply lookup_lt_Some in Hb. lia.
Qed.

End Movement.

(** * What the collection phases credit and remove *)

Lemma total_score_insert players k p :
  players !! k = None →
  total_score (<[k := p]> players) = Player_score p + total_score players.
Proof.
  intros Hk. unfold total_score.
  rewrite map_fold_insert_L; [done| |done]. intros. lia.
Qed.

Lemma total_score_update players k p p' :
  players !! k = Some p →
  total_score (<[k := p']> players)
  = total_score players - Player_score p + Player_score p'.
Proof.
  intros Hk.
  rewrite <- (insert_delete_id players k p Hk) at 2.
  rewrite <- (insert_delete_eq players k p').
  rewrite !total_score_insert by apply lookup_delete_eq. lia.
Qed.

Lemma total_value_cons r rs :
  total_value (r :: rs) = total_value [r] + total_value rs.
Proof. unfold total_value. cbn [foldr]. lia. Qed.

Lemma total_value_filter resources :
  total_value (List.filter Resource_active resources) = total_value resources.
Proof.
  induction resources as [|r rs IH]; [done|]. cbn [List.filter].
  destruct (Resource_active r) eqn:Hr.
  - by rewrite (total_value_cons r (List.filter _ rs)),
       (total_value_cons r rs), IH.
  - rewrite (total_value_cons r rs), IH. unfold total_value at 2.
    cbn [foldr]. rewrite Hr. lia.
Qed.

Section Collecting.
Context `{libm : Libm} `{mt : Mt19937}.

Lemma consume_resource_score s res b p :
  players_ s !! Boid_playerId b = Some p →
  total_score (players_ (consume_resource s res b p))
  = total_score (players_ s) + Resource_value res.
Proof.
  intros Hk. unfold consume_resource.
  set (p' := Player_with_mutations _ _).
  assert (Hs : total_score (<[Boid_playerId b := p']> (players_ s))
               = total_score (players_ s) + Resource_value res).
  { rewrite (total_score_update _ _ p) by done. subst p'. cbn. lia. }
  by destruct (_ && _).
Qed.

Lemma collect_resource_score s res s' res' :
  collect_resource s res = Some (s', res') →
  total_score (players_ s') + total_value [res']
  = total_score (players_ s) + total_value [res].
Proof.
  unfold collect_resource.
  destruct (Resource_active res) eqn:Hact; cbn [negb]; [|by intros [= <- <-]].
  generalize (query (quadTree_ s) (resource_queryRect res) []).
  intros nearby. induction nearby as [|ne rest IH]; cbn.
  - by intros [= <- <-].
  - destruct (vec_at _ _) as [b|]; cbn; [|done].
    destruct (players_ s !! Boid_playerId b) as [p|] eqn:Hk; [|done].
    destruct (flt _ _); [|done].
    intros [= <- <-]. rewrite (consume_resource_score s res b p Hk).
    cbn. rewrite Hact. lia.
Qed.

Lemma for_each_collect_score v s s1 rs :
  for_each_mut collect_resource s v = Some (s1, rs) →
  total_score (players_ s1) + total_value rs
  = total_score (players_ s) + total_value v.
Proof.
  revert s s1 rs. induction v as [|r v IH]; intros s s1 rs.
  - cbn. by intros [= <- <-].
  - cbn [for_each_mut].
    destruct (collect_resource s r) as [[s2 r2]|] eqn:E1;
      cbn [mbind option_bind]; [|done].
    destruct (for_each_mut collect_resource s2 v) as [[s3 v3]|] eqn:E2;
      cbn [mbind option_bind]; [|done].
    intros [= <- <-].
    pose proof (collect_resource_score _ _ _ _ E1) as H1.
    pose proof (IH _ _ _ E2) as H2.
    rewrite (total_value_cons r2 v3), (total_value_cons r v). lia.
Qed.

(** [collectResources] credits every resource it consumes once, with its
    value, to the score of one player: the sum of the scores and of the
    values of the active resources on the map is the same before and
    after.  The resources it keeps are all active. *)
Theorem collectResources_credits_each_value_once (s s' : GameEngine) :
  collectResources s = Some s' →
  total_score (players_ s') + total_value (resources_ s')
  = total_score (players_ s) + total_value (resources_ s)
  ∧ Forall (λ r, Resource_active r = true) (resources_ s').
Proof.
  unfold collectResources.
  destruct (for_each_mut _ _ _) as [[s1 rs]|] eqn:E; cbn; [|done].
  intros [= <-]. cbn. split; [|apply filter_active_Forall].
  rewrite total_value_filter. by apply for_each_collect_score.
Qed.

(** ** The mine *)

Lemma count_boids_delete pid boids i bb :
  boids !! i = Some bb →
  count_boids pid (delete i boids)
  = count_boids pid boids - (if Boid_playerId bb =? pid then 1 else 0).
Proof.
  intros Hi. rewrite <- (take_drop_middle boids i bb Hi) at 2.
  rewrite delete_take_drop, !count_boids_app, count_boids_cons. lia.
Qed.

Lemma mine_loop_kills n pid killed boids :
  (n ≤ length boids)%nat → 0 ≤ killed ≤ MINE_KILL_COUNT →
  ∃ boids', mine_loop n pid killed boids = Some boids'
    ∧ count_boids pid boids'
      = count_boids pid boids
        - Z.min (MINE_KILL_COUNT - killed) (count_boids pid (take n boids))
    ∧ List.filter (λ b, negb (Boid_playerId b =? pid)) boids'
      = List.filter (λ b, negb (Boid_playerId b =? pid)) boids.
Proof.
  revert killed boids.
  induction n as [|bi IH]; intros killed boids Hn Hk; cbn [mine_loop].
  - eexists. split; [done|]. split; [|done].
    rewrite take_0. change (count_boids pid []) with 0. lia.
  - destruct (Z.ltb_spec killed MINE_KILL_COUNT) as [Hlt|Hge].
    + destruct (lookup_lt_is_Some_2 boids bi) as [bb Hbb]; [lia|].
      rewrite Hbb. cbn [mbind option_bind].
      pose proof (count_boids_nonneg pid (take bi boids)).
      assert (Htake : count_boids pid (take (S bi) boids)
                      = count_boids pid (take bi boids)
                        + (if Boid_playerId bb =? pid then 1 else 0)).
      { rewrite (take_S_r boids bi bb Hbb), count_boids_app, count_boids_cons.
        change (count_boids pid []) with 0. lia. }
      rewrite Htake.
      destruct (Z.eqb_spec (Boid_playerId bb) pid) as [Hown|Hother].
      * destruct (IH (killed + 1) (delete bi boids))
          as (boids' & -> & Hcount & Hrest);
          [rewrite length_delete by eauto; lia|lia|].
        eexists. split; [done|].
        rewrite Hcount, Hrest, (count_boids_delete pid boids bi bb Hbb).
        assert (Htd : take bi (delete bi boids) = take bi boids).
        { rewrite delete_take_drop. apply take_app_length'.
          rewrite length_take_le; lia. }
        rewrite Htd.
        destruct (Z.eqb_spec (Boid_playerId bb) pid); [|done].
        split; [lia|].
        apply (filter_delete _ _ _ bb Hbb).
        by rewrite Hown, Z.eqb_refl.
      * destruct (IH killed boids) as (boids' & -> & Hcount & Hrest);
          [lia|lia|].
        eexists. split; [done|]. split; [|done]. rewrite Hcount. lia.
    + pose proof (count_boids_nonneg pid (take (S bi) boids)).
      eexists. split; [done|]. split; [lia|done].
Qed.

(** A mine (pickup type 7) removes [MINE_KILL_COUNT] = 4 boids of the
    player whose boid touched it, or all of them when it owns fewer, and no
    boid of any other player; the players are not changed. *)
Theorem mine_kills_four_boids_of_the_collector (s : GameEngine)
  (pickup : Pickup) (b : Boid) (player : Player) :
  Pickup_type pickup = 7 →
  ∃ s', pickup_effect s pickup b player = Some s'
    ∧ count_boids (Player_id player) (boids_ s')
      = count_boids (Player_id player) (boids_ s)
        - Z.min MINE_KILL_COUNT (count_boids (Player_id player) (boids_ s))
    ∧ List.filter (λ b, negb (Boid_playerId b =? Player_id player)) (boids_ s')
      = List.filter (λ b, negb (Boid_playerId b =? Player_id player)) (boids_ s)
    ∧ players_ s' = players_ s.
Proof.
  intros Htype. unfold pickup_effect. rewrite Htype. cbn.
  destruct (mine_loop_kills (length (boids_ s)) (Player_id player) 0 (boids_ s))
    as (boids' & -> & Hcount & Hrest); [done|unfold MINE_KILL_COUNT; lia|].
  cbn. eexists. split; [done|]. cbn.
  rewrite firstn_all in Hcount. rewrite Z.sub_0_r in Hcount. done.
Qed.

End Collecting.

(** The mine of [mine_engine], touched by the first boid of player 1, who
    owns four boids. *)
Lemma mine_kills_four_boids_of_the_collector_witness :
  ∃ s', pickup_effect mine_engine mine_pickup
          (mkBoid 1 1 (mkVec2 480 500) (mkVec2 0 0))
          (Player_default 1 (mkVec2 480 500)) = Some s'
    ∧ count_boids 1 (boids_ s')
      = count_boids 1 (boids_ mine_engine)
        - Z.min MINE_KILL_COUNT (count_boids 1 (boids_ mine_engine))
    ∧ List.filter (λ b, negb (Boid_playerId b =? 1)) (boids_ s')
      = List.filter (λ b, negb (Boid_playerId b =? 1)) (boids_ mine_engine)
    ∧ players_ s' = players_ mine_engine.
Proof.
  apply (mine_kills_four_boids_of_the_collector mine_engine mine_pickup
           (mkBoid 1 1 (mkVec2 480 500) (mkVec2 0 0))
           (Player_default 1 (mkVec2 480 500))).
  reflexivity.
Defined.

(** * The properties on concrete states *)















(** The snapshot of the engine with the drifting boid. *)
Lemma parseState_reads_back_serializeState_witness :
  ∃ buffer, serializeState drifting_engine = Some buffer
            ∧ read_state buffer 0%nat
              = Some (state_view drifting_engine, length buffer)
            ∧ parseState buffer = Some (state_view drifting_engine).
Proof.
  apply (parseState_reads_back_serializeState drifting_engine);
    [apply drifting_engine_converts|..]; vm_compute; reflexivity.
Defined.

(** The snapshot of the engine of one boid has 53 bytes; its first 52
    bytes are not accepted. *)
Lemma parseState_rejects_a_truncated_snapshot_witness :
  length one_boid_snapshot = 53%nat
  ∧ parseState (take 52 one_boid_snapshot) = None.
Proof.
  split; [vm_compute; reflexivity|].
  apply (parseState_rejects_a_truncated_snapshot one_boid_engine
           one_boid_snapshot 52); vm_compute; reflexivity.
Defined.


(** The boid that chases the cursor 100 units to its right. *)
Lemma applyBoidRules_moves_by_the_new_velocity_witness :
  length (boids_ chased_engine) = length (boids_ chasing_engine)
  ∧ Boid_id chased_boid = Boid_id chasing_boid
  ∧ Boid_playerId chased_boid = Boid_playerId chasing_boid
  ∧ match players_ chasing_engine !! Boid_playerId chasing_boid with
    | Some _ =>
        Boid_pos chased_boid
        = Vec2_add (Boid_pos chasing_boid) (Boid_vel chased_boid)
    | None => chased_boid = chasing_boid
    end.
Proof.
  apply (applyBoidRules_moves_by_the_new_velocity chasing_engine chased_engine
           0 chasing_boid chased_boid); vm_compute; reflexivity.
Defined.

(** The boid collects the resource of value 5 and leaves the other. *)
Lemma collectResources_credits_each_value_once_witness :
  total_score (players_ fed_engine) + total_value (resources_ fed_engine)
  = total_score (players_ feeding_engine)
    + total_value (resources_ feeding_engine)
  ∧ Forall (λ r, Resource_active r = true) (resources_ fed_engine).
Proof.
  apply (collectResources_credits_each_value_once feeding_engine fed_engine).
  vm_compute. reflexivity.
Defined.
